(** * ultrawebaudit: ingestion, retrieval and website-analysis routes

    A shallow embedding of
      - [scripts/vectorize-drive.ts]            (script ingestion path),
      - the google-drive sync route             (HTTP ingestion path),
      - [app/api/chat/route.ts]                 (retrieval and answer),
      - [app/api/website/analyze/route.ts]      (content review and its
                                                 pattern detector),
      - [app/api/documents/preview/route.ts]    (document preview),
      - [lib/google-drive.ts]                   (authentication and upload),
      - [app/api/google-drive/upload/route.ts]  (upload route),
      - the transcription route                 (video id, download,
                                                 transcription, upload),
    and the properties of them that the specification states or that the
    code shows. *)

From Stdlib Require Import NArith ZArith QArith Lia Ascii String DecimalString.
From Stdlib Require Import DecimalNat Sorted Permutation.
From stdpp Require Import gmap strings list sorting.

Set Default Proof Using "Type".
Local Open Scope nat_scope.

(** ** JavaScript strings

    A JavaScript string is a sequence of UTF-16 code units; [length],
    [slice], [substring], [trim] and the (non-unicode) regular expressions
    of the routes all work on code units. *)

Module Js.

Definition text := list N.

(** Code units of a literal, for examples. *)
Fixpoint of_string (s : string) : text :=
  match s with
  | EmptyString => []
  | String c r => Ascii.N_of_ascii c :: of_string r
  end.

(** The class [\s] of the regular expressions, which is also the set that
    [String.prototype.trim] strips: WhiteSpace and LineTerminator. *)
Definition is_space (c : N) : bool :=
  ((9 <=? c) && (c <=? 13) || (c =? 32) || (c =? 160) || (c =? 5760)
   || (8192 <=? c) && (c <=? 8202) || (c =? 8232) || (c =? 8233)
   || (c =? 8239) || (c =? 8287) || (c =? 12288) || (c =? 65279))%N.

(** [\n] *)
Definition is_newline (c : N) : bool := (c =? 10)%N.

(** [[.!?]] *)
Definition is_terminal (c : N) : bool :=
  ((c =? 46) || (c =? 33) || (c =? 63))%N.

Fixpoint trimStart (s : text) : text :=
  match s with
  | [] => []
  | c :: r => if is_space c then trimStart r else s
  end.

Definition trimEnd (s : text) : text := rev (trimStart (rev s)).

Definition trim (s : text) : text := trimEnd (trimStart s).

(** [s.slice(i, j)] for non-negative integers [i], [j]. *)
Definition slice (s : text) (i j : nat) : text :=
  let from := Nat.min i (length s) in
  let to := Nat.min j (length s) in
  take (Nat.max (to - from) 0) (drop from s).

(** [s.substring(i, j)] for non-negative integers: both ends are clamped
    and swapped when out of order. *)
Definition substring (s : text) (i j : nat) : text :=
  let a := Nat.min i (length s) in
  let b := Nat.min j (length s) in
  take (Nat.max a b - Nat.min a b) (drop (Nat.min a b) s).

(** Length of the longest prefix whose code units satisfy [p]. *)
Fixpoint run (p : N -> bool) (s : text) : nat :=
  match s with
  | c :: r => if p c then S (run p r) else 0
  | [] => 0
  end.

(** A separator pattern anchored at the head of the text: [Some n] when the
    (greedy) match consumes [n] code units. *)
Definition matcher := text -> option nat.

(** [/\n\n+/] *)
Definition re_paragraph : matcher := fun s =>
  let n := run is_newline s in
  if 2 <=? n then Some n else None.

(** [/[.!?]+\s+/].  The two classes are disjoint, so backtracking inside
    the run of terminals cannot produce a match the greedy attempt misses. *)
Definition re_sentence : matcher := fun s =>
  let a := run is_terminal s in
  let b := run is_space (drop a s) in
  if (1 <=? a) && (1 <=? b) then Some (a + b) else None.

(** [String.prototype.split] with a separator pattern that never matches
    the empty string: scanning left to right, the first position where the
    pattern matches closes the current piece, and the scan resumes after
    the match.  The piece after the last separator is always emitted, also
    when it is empty.  [skip] counts the code units of the current match
    that remain to be stepped over, [cur] is the piece under construction. *)
Fixpoint split_go (m : matcher) (skip : nat) (cur : text) (s : text)
  : list text :=
  match s with
  | [] => [cur]
  | c :: r =>
      match skip with
      | S k => split_go m k cur r
      | O =>
          match m s with
          | Some (S k) => cur :: split_go m k [] r
          | _ => split_go m O (cur ++ [c]) r
          end
      end
  end.

Definition split (m : matcher) (s : text) : list text := split_go m 0 [] s.

(** A text that does not start with white space. *)
Definition head_solid (s : text) : Prop :=
  match s with
  | [] => True
  | c :: _ => is_space c = false
  end.

End Js.

(** ** The chunker (inlined in both ingestion paths) *)

Module Chunker.
Import Js.

Definition MAX_CHUNK_SIZE : nat := 2000.
Definition OVERLAP : nat := 200.
Definition MIN_LENGTH : nat := 20.

(** [.filter((chunk) => chunk.trim().length > 20)] *)
Definition viable (chunk : text) : bool := MIN_LENGTH <? length (trim chunk).

(** The window loop
    [for (let i = 0; i < s.length; i += MAX_CHUNK_SIZE - OVERLAP) {
       const chunk = s.slice(i, i + MAX_CHUNK_SIZE).trim();
       if (chunk.length > 20) chunks.push(chunk); }]
    from loop counter [i] on, pushing onto [chunks].  [sub] is [slice] or
    [substring]; [fuel] bounds the number of iterations. *)
Fixpoint window_loop (sub : text -> nat -> nat -> text) (fuel : nat)
    (s : text) (i : nat) (chunks : list text) : list text :=
  match fuel with
  | O => chunks
  | S fuel' =>
      if i <? length s then
        let chunk := trim (sub s i (i + MAX_CHUNK_SIZE)) in
        window_loop sub fuel' s (i + (MAX_CHUNK_SIZE - OVERLAP))
          (if MIN_LENGTH <? length chunk then chunks ++ [chunk] else chunks)
      else chunks
  end.

(** The loop advances by 1800 code units, so [length s] iterations are
    always enough. *)
Definition windows (sub : text -> nat -> nat -> text) (s : text)
    (chunks : list text) : list text :=
  window_loop sub (length s) s 0 chunks.

(** [for (const para of fragments) { if (para.length <= MAX_CHUNK_SIZE)
    chunks.push(para); else <window loop over para> }] *)
Definition split_large (fragments : list text) (chunks : list text)
  : list text :=
  foldl (fun chunks para =>
           if length para <=? MAX_CHUNK_SIZE then chunks ++ [para]
           else windows slice para chunks)
        chunks fragments.

Definition paragraphChunks (t : text) : list text :=
  List.filter viable (split re_paragraph t).

Definition sentenceChunks (t : text) : list text :=
  List.filter viable (split re_sentence t).

(** The chunking block.  The two paths differ only in the accessor of the
    fixed-size tier ([slice] in the script, [substring] in the route). *)
Definition chunk_with (fixed_sub : text -> nat -> nat -> text) (t : text)
  : list text :=
  let chunks := [] in
  if 0 <? length (paragraphChunks t) then
    split_large (paragraphChunks t) chunks
  else if 0 <? length (sentenceChunks t) then
    split_large (sentenceChunks t) chunks
  else
    windows fixed_sub t chunks.

Definition chunks_script : text -> list text := chunk_with slice.
Definition chunks_route : text -> list text := chunk_with substring.

(** *** Declarative reading of the tiers *)

Inductive tier := Paragraph | Sentence | FixedSize.

Definition selected_tier (t : text) : tier :=
  match paragraphChunks t, sentenceChunks t with
  | _ :: _, _ => Paragraph
  | [], _ :: _ => Sentence
  | [], [] => FixedSize
  end.

Definition STEP : nat := MAX_CHUNK_SIZE - OVERLAP.

(** Number of window offsets [0, STEP, 2*STEP, ...] below [n]. *)
Definition window_count (n : nat) : nat := (n + (STEP - 1)) / STEP.

(** The trimmed window at offset index [k]. *)
Definition window_at (sub : text -> nat -> nat -> text) (s : text) (k : nat)
  : text :=
  trim (sub s (k * STEP) (k * STEP + MAX_CHUNK_SIZE)).

Definition long_enough (c : text) : bool := MIN_LENGTH <? length c.

(** The windows of one string: the trimmed window at every offset that is
    a multiple of [STEP] below the length, kept when above the minimum. *)
Definition windows_of (s : text) : list text :=
  List.filter long_enough
    (map (window_at slice s) (seq 0 (window_count (length s)))).

(** The two bounds every emitted chunk is to satisfy. *)
Definition well_sized (c : text) : Prop :=
  length c <= MAX_CHUNK_SIZE /\ MIN_LENGTH < length (trim c).

(** What one fragment of the paragraph or sentence tier contributes. *)
Definition fragment_chunks (frag : text) : list text :=
  if length frag <=? MAX_CHUNK_SIZE then [frag] else windows_of frag.

Definition tier_chunks (t : text) (r : tier) : list text :=
  match r with
  | Paragraph => flat_map fragment_chunks (paragraphChunks t)
  | Sentence => flat_map fragment_chunks (sentenceChunks t)
  | FixedSize => windows_of t
  end.

End Chunker.

(** ** Exceptions and loosely typed values *)

Module Exn.

(** A thrown JavaScript value: an [Error] with its message, or any other
    value. *)
Inductive thrown :=
| ErrorObj (message : string)
| NonError.

(** An awaited call either throws or returns. *)
Definition result (A : Type) : Type := thrown + A.

(** [error instanceof Error ? error.message : 'Unknown error'] *)
Definition errorMessage (error : thrown) : string :=
  match error with
  | ErrorObj message => message
  | NonError => "Unknown error"
  end.

(** [a || d] on a possibly undefined string: the empty string is falsy. *)
Definition or_default (a : option string) (d : string) : string :=
  match a with
  | Some s => if String.eqb s EmptyString then d else s
  | None => d
  end.

(** [!a] on a possibly undefined string. *)
Definition falsy (a : option string) : bool :=
  match a with
  | Some s => String.eqb s EmptyString
  | None => true
  end.

(** A possibly undefined string inside a template literal. *)
Definition interpolate (a : option string) : string :=
  match a with
  | Some s => s
  | None => "undefined"
  end.

(** [a || b] where both sides may be undefined. *)
Definition or_else (a b : option string) : option string :=
  match a with
  | Some s => if String.eqb s EmptyString then b else a
  | None => b
  end.

(** [hay.includes(needle)] *)
Fixpoint includes (needle hay : string) : bool :=
  String.prefix needle hay ||
  match hay with
  | EmptyString => false
  | String _ rest => includes needle rest
  end.

(** A non-negative integer inside a template literal. *)
Definition decimal (n : nat) : string :=
  DecimalString.NilEmpty.string_of_uint (Nat.to_uint n).

(** A property where a string is expected, read from an object that came
    out of [JSON.parse] or that the route built: absent ([undefined]),
    [null], or a string.  [a === b] on two of them is plain equality: no
    coercion takes place, so [null] and [undefined] are different. *)
Inductive value :=
| Undefined
| Null
| Str (s : string).

#[export] Instance value_eq_dec : EqDecision value.
Proof. solve_decision. Defined.

(** [a || b]: [undefined], [null] and the empty string are falsy. *)
Definition value_or (a b : value) : value :=
  match a with
  | Str s => if String.eqb s EmptyString then b else a
  | _ => b
  end.

(** [a || d] with a string [d]. *)
Definition value_or_text (a : value) (d : string) : string :=
  match a with
  | Str s => if String.eqb s EmptyString then d else s
  | _ => d
  end.

(** Such a property inside a template literal. *)
Definition show (a : value) : string :=
  match a with
  | Undefined => "undefined"
  | Null => "null"
  | Str s => s
  end.

(** An optional string property the route copies from its own data. *)
Definition of_option (a : option string) : value :=
  match a with
  | Some s => Str s
  | None => Undefined
  end.

End Exn.

(** ** Ingestion: the two sync paths *)

Module Ingest.
Import Js Exn.

(** A file as listed by Drive; every field is optional in the SDK type. *)
Record File := {
  id : option string;
  name : option string;
  mimeType : option string;
  modifiedTime : option string;
}.

(** Embedding vectors are opaque payloads here. *)
Definition embedding := list Q.

Record Metadata := {
  title : string;
  text : Js.text;
  fileId : option string;
  chunkIndex : nat;
  md_mimeType : option string;
  md_modifiedTime : option string;
}.

Record Vector := {
  vid : string;
  values : embedding;
  metadata : Metadata;
}.

(** The collaborators of [lib/], fixed for the duration of a sync.
    [upsertRejects] tells whether [upsertToPinecone] throws on a batch; a
    rejected batch writes nothing. *)
Record Env := {
  listFilesInFolder : string -> result (list File);
  getFileContent : option string -> option string -> result (list N);
  extractTextFromDocument : list N -> string -> result Js.text;
  getEmbedding : Js.text -> result embedding;
  upsertRejects : list Vector -> option thrown;
}.

(** The vector index, keyed by vector id: an upsert overwrites. *)
Abbreviation store := (gmap string Vector).

Definition upsertToPinecone (env : Env) (vectors : list Vector) (ix : store)
  : result store :=
  match upsertRejects env vectors with
  | Some e => inl e
  | None => inr (foldl (fun m v => <[vid v := v]> m) ix vectors)
  end.

(** An element of [processedFiles]. *)
Record Entry := {
  e_name : string;
  chunks : nat;
  error : option string;
}.

(** [!text || text.trim().length === 0] *)
Definition no_text (t : Js.text) : bool :=
  (length t =? 0) || (length (trim t) =? 0).

(** *** scripts/vectorize-drive.ts *)

Module Script.

(** [`${file.id}_chunk_${j}`] *)
Definition vector_id (file : File) (j : nat) : string :=
  interpolate (id file) ++ "_chunk_" ++ decimal j.

Definition vector_of (file : File) (j : nat) (chunk : Js.text)
    (emb : embedding) : Vector :=
  {| vid := vector_id file j;
     values := emb;
     metadata := {| title := or_default (name file) "Untitled";
                    text := chunk;
                    fileId := id file;
                    chunkIndex := j;
                    md_mimeType := mimeType file;
                    md_modifiedTime := modifiedTime file |} |}.

(** One iteration of the chunk loop: the body is a [try] whose [catch]
    only logs, so a throwing chunk leaves the counter and the index as
    they were. *)
Definition chunk_step (env : Env) (file : File) (j : nat) (chunk : Js.text)
    (st : nat * store) : nat * store :=
  match getEmbedding env chunk with
  | inl _ => st
  | inr emb =>
      match upsertToPinecone env [vector_of file j chunk emb] st.2 with
      | inl _ => st
      | inr ix' => (S st.1, ix')
      end
  end.

(** [for (let j = 0; j < chunks.length; j++) { try {...} catch {...} }],
    on the chunks from index [j] on. *)
Fixpoint chunk_loop (env : Env) (file : File) (j : nat)
    (chunks : list Js.text) (st : nat * store) : nat * store :=
  match chunks with
  | [] => st
  | chunk :: rest => chunk_loop env file (S j) rest (chunk_step env file j chunk st)
  end.

(** Loop state: [processedFiles], [totalChunks] and the index. *)
Record State := {
  processedFiles : list Entry;
  totalChunks : nat;
  index : store;
}.

Definition push (st : State) (e : Entry) : State :=
  {| processedFiles := processedFiles st ++ [e];
     totalChunks := totalChunks st;
     index := index st |}.

(** The [catch (error)] of the per-file [try]. *)
Definition file_catch (file : File) (st : State) (e : thrown) : State :=
  push st {| e_name := or_default (name file) "Unknown";
             chunks := 0;
             error := Some (String.substring 0 100 (errorMessage e)) |}.

(** The body of the loop over [files] for one file. *)
Definition file_step (env : Env) (st : State) (file : File) : State :=
  let fname := or_default (name file) "Unknown" in
  match getFileContent env (id file) (mimeType file) with
  | inl e => file_catch file st e
  | inr buffer =>
      if length buffer =? 0 then
        push st {| e_name := fname; chunks := 0; error := Some "Empty file" |}
      else
        match extractTextFromDocument env buffer
                (or_default (mimeType file) "text/plain") with
        | inl e => file_catch file st e
        | inr t =>
            if no_text t then
              push st {| e_name := fname; chunks := 0;
                         error := Some "No text extracted" |}
            else
              let chunks := Chunker.chunks_script t in
              if length chunks =? 0 then
                push st {| e_name := fname; chunks := 0;
                           error := Some "No valid chunks" |}
              else
                let '(successfulChunks, ix) :=
                  chunk_loop env file 0 chunks (0, index st) in
                {| processedFiles :=
                     processedFiles st ++
                       [{| e_name := fname; chunks := successfulChunks;
                           error := None |}];
                   totalChunks := totalChunks st + successfulChunks;
                   index := ix |}
        end
  end.

(** How a run of the script ends. *)
Inductive outcome :=
| Exit1                                   (* [process.exit(1)] *)
| NoFiles                                 (* early [return] *)
| Summary (processed : list Entry) (total : nat).

Definition vectorizeDriveFiles (env : Env) (folderId : option string)
    (ix : store) : outcome * store :=
  if falsy folderId then (Exit1, ix)
  else
    match listFilesInFolder env (interpolate folderId) with
    | inl _ => (Exit1, ix)
    | inr files =>
        if length files =? 0 then (NoFiles, ix)
        else
          let st := foldl (file_step env)
                      {| processedFiles := []; totalChunks := 0; index := ix |}
                      files in
          (Summary (processedFiles st) (totalChunks st), index st)
    end.

End Script.

(** *** The google-drive sync route *)

Module Route.

(** [`${file.id}-chunk-${chunkIndex}`] *)
Definition vector_id (file : File) (chunkIndex : nat) : string :=
  interpolate (id file) ++ "-chunk-" ++ decimal chunkIndex.

Definition vector_of (file : File) (chunkIndex : nat) (chunk : Js.text)
    (emb : embedding) : Vector :=
  {| vid := vector_id file chunkIndex;
     values := emb;
     metadata := {| title := interpolate (name file);
                    text := chunk;
                    fileId := id file;
                    chunkIndex := chunkIndex;
                    md_mimeType := mimeType file;
                    md_modifiedTime := None |} |}.

(** [for (let chunkIndex = 0; ...) { const embedding = await
    getEmbedding(chunk); vectors.push({...}); }]: no [try] here, a throwing
    embedding leaves the loop and the per-file [try]. *)
Fixpoint embed_loop (env : Env) (file : File) (chunkIndex : nat)
    (chunks : list Js.text) (vectors : list Vector) : result (list Vector) :=
  match chunks with
  | [] => inr vectors
  | chunk :: rest =>
      match getEmbedding env chunk with
      | inl e => inl e
      | inr emb =>
          embed_loop env file (S chunkIndex) rest
            (vectors ++ [vector_of file chunkIndex chunk emb])
      end
  end.

Record State := {
  processedFiles : list Entry;
  totalChunks : nat;
  failedFileDetails : list (string * string);
  index : store;
}.

Definition push (st : State) (e : Entry) : State :=
  {| processedFiles := processedFiles st ++ [e];
     totalChunks := totalChunks st;
     failedFileDetails := failedFileDetails st;
     index := index st |}.

(** The [catch (error)] of the per-file [try]. *)
Definition file_catch (file : File) (st : State) (e : thrown) : State :=
  {| processedFiles :=
       processedFiles st ++
         [{| e_name := interpolate (name file); chunks := 0;
             error := Some (errorMessage e) |}];
     totalChunks := totalChunks st;
     failedFileDetails :=
       failedFileDetails st ++ [(interpolate (name file), errorMessage e)];
     index := index st |}.

Definition file_step (env : Env) (st : State) (file : File) : State :=
  if falsy (id file) || falsy (name file) then st      (* [continue] *)
  else
    let fname := interpolate (name file) in
    match getFileContent env (id file)
            (Some (or_default (mimeType file) "text/plain")) with
    | inl e => file_catch file st e
    | inr buffer =>
        if length buffer =? 0 then
          push st {| e_name := fname; chunks := 0;
                     error := Some "File is empty (0 bytes)" |}
        else
          match extractTextFromDocument env buffer
                  (or_default (mimeType file) "text/plain") with
          | inl e => file_catch file st e
          | inr t =>
              if no_text t then
                push st {| e_name := fname; chunks := 0;
                           error := Some "No text extracted" |}
              else
                let chunks := Chunker.chunks_route t in
                if length chunks =? 0 then
                  push st {| e_name := fname; chunks := 0;
                             error := Some "No valid chunks created" |}
                else
                  match embed_loop env file 0 chunks [] with
                  | inl e => file_catch file st e
                  | inr vectors =>
                      match upsertToPinecone env vectors (index st) with
                      | inl e => file_catch file st e
                      | inr ix =>
                          {| processedFiles :=
                               processedFiles st ++
                                 [{| e_name := fname;
                                     chunks := length vectors;
                                     error := None |}];
                             totalChunks := totalChunks st + length vectors;
                             failedFileDetails := failedFileDetails st;
                             index := ix |}
                      end
                  end
          end
    end.

Record Report := {
  r_message : string;
  r_totalFiles : nat;
  r_totalChunks : nat;
  r_processedFiles : list Entry;
  r_failedFileDetails : option (list (string * string));
}.

Inductive response :=
| Status200 (report : Report)
| Status400 (error : string)
| Status500 (error details : string).

Definition message (st : State) : string :=
  if 0 <? totalChunks st then
    "Successfully processed " ++ decimal (length (processedFiles st))
      ++ " file(s) and created " ++ decimal (totalChunks st)
      ++ " chunk(s) in Pinecone!"
  else
    "⚠️ No chunks were created. " ++ decimal (length (processedFiles st))
      ++ " file(s) processed but no valid chunks found. Check file types and content.".

Definition POST (env : Env) (folderId : option string) (ix : store)
  : response * store :=
  if falsy folderId then (Status400 "Folder ID is required", ix)
  else
    match listFilesInFolder env (interpolate folderId) with
    | inl e =>
        (Status500 "Failed to sync Google Drive files" (errorMessage e), ix)
    | inr files =>
        if length files =? 0 then
          (Status200 {| r_message := "No files found in the folder";
                        r_totalFiles := 0; r_totalChunks := 0;
                        r_processedFiles := [];
                        r_failedFileDetails := None |}, ix)
        else
          let st := foldl (file_step env)
                      {| processedFiles := []; totalChunks := 0;
                         failedFileDetails := []; index := ix |}
                      files in
          (Status200
             {| r_message := message st;
                r_totalFiles := length (processedFiles st);
                r_totalChunks := totalChunks st;
                r_processedFiles := processedFiles st;
                r_failedFileDetails :=
                  if 0 <? length (failedFileDetails st)
                  then Some (failedFileDetails st) else None |},
           index st)
    end.

End Route.

End Ingest.

(** ** Retrieval and answer: app/api/chat/route.ts *)

Module Chat.
Import Exn.

Record MatchMetadata := {
  title : option string;
  text : option string;
  fileId : option string;
  chunkIndex : option nat;
}.

(** A match as returned by the index; [score] and [metadata] are optional
    in the SDK type.  Scores are finite similarity values. *)
Record Match := {
  m_id : string;
  score : option Q;
  metadata : option MatchMetadata;
}.

Record Source := {
  s_id : string;
  s_title : string;
  s_text : string;
  s_score : Q;
  s_fileId : string;
  s_chunkIndex : nat;
}.

Record ChatMessage := {
  role : string;
  content : string;
}.

(** The collaborators.  [stripMarkdown] stands for the chain of
    [response.replace(...)] calls and the final [trim], a total function of
    the answer text. *)
Record Env := {
  getEmbedding : string -> result (list Q);
  queryPinecone : list Q -> nat -> result (list Match);
  chatCompletion : list ChatMessage -> string -> result string;
  stripMarkdown : string -> string;
}.

(** [x || 0] on a possibly undefined number. *)
Definition num_or_zero (x : option Q) : Q :=
  match x with
  | Some q => if Qeq_bool q 0 then 0%Q else q
  | None => 0%Q
  end.

Definition nat_or_zero (x : option nat) : nat :=
  match x with
  | Some n => n
  | None => 0
  end.

(** [matches.length > 0 ? matches[0].score || 0 : 0] *)
Definition confidenceScore (matches : list Match) : Q :=
  match matches with
  | m :: _ => num_or_zero (score m)
  | [] => 0%Q
  end.

(** [metadata.f] after [const metadata = match.metadata || {}], which is
    also [match.metadata?.f]. *)
Definition meta {A} (f : MatchMetadata -> option A) (m : Match) : option A :=
  match metadata m with
  | Some md => f md
  | None => None
  end.

(** [`[${metadata.title || 'Document'}]: ${metadata.text || match.id}`] *)
Definition render (m : Match) : string :=
  "[" ++ or_default (meta title m) "Document" ++ "]: "
      ++ or_default (meta text m) (m_id m).

(** [parts.join('\n\n')] *)
Fixpoint join (parts : list string) : string :=
  match parts with
  | [] => EmptyString
  | [p] => p
  | p :: rest =>
      p ++ String (ascii_of_nat 10) (String (ascii_of_nat 10) (join rest))
  end.

Definition context (matches : list Match) : string :=
  join (map render matches).

Definition source_of (m : Match) : Source :=
  {| s_id := m_id m;
     s_title := or_default (meta title m) "Untitled Document";
     s_text := or_default (meta text m) EmptyString;
     s_score := num_or_zero (score m);
     s_fileId := or_default (meta fileId m) EmptyString;
     s_chunkIndex := nat_or_zero (meta chunkIndex m) |}.

Record Answer := {
  response : string;
  contextUsed : bool;
  sources : list Source;
  a_confidenceScore : Q;
}.

Inductive reply :=
| Status200 (answer : Answer)
| Status400 (error : string)
| Status500 (error : string).

(** The outer [catch (error)]. *)
Definition outer_catch (e : thrown) : reply :=
  let errorMessage :=
    match e with
    | ErrorObj message => message
    | NonError => "Failed to process chat message"
    end in
  Status500
    (if includes "API key" errorMessage || includes "must be set" errorMessage
     then "Configuration error: Missing API keys. Please check your environment variables (OPENAI_API_KEY is required, PINECONE_API_KEY is optional but recommended)."
     else if includes "Pinecone" errorMessage
     then "Pinecone error: " ++ errorMessage
     else if includes "OpenAI" errorMessage
     then "OpenAI error: " ++ errorMessage
     else errorMessage).

(** The matches the route works with: the inner [try] around the index
    query turns a throw into the empty list. *)
Definition retrieve (env : Env) (queryEmbedding : list Q) : list Match :=
  match queryPinecone env queryEmbedding 5 with
  | inl _ => []
  | inr matches => matches
  end.

Definition messages_of (history : list ChatMessage) (message : string)
  : list ChatMessage :=
  map (fun msg => {| role := role msg; content := content msg |}) history
    ++ [{| role := "user"; content := message |}].

Definition POST (env : Env) (message : option string)
    (history : list ChatMessage) : reply :=
  if falsy message then Status400 "Message is required"
  else
    match getEmbedding env (interpolate message) with
    | inl e => outer_catch e
    | inr queryEmbedding =>
        let matches := retrieve env queryEmbedding in
        match chatCompletion env (messages_of history (interpolate message))
                (context matches) with
        | inl e => outer_catch e
        | inr response =>
            Status200 {| response := stripMarkdown env response;
                         contextUsed := 0 <? length matches;
                         sources := map source_of matches;
                         a_confidenceScore := confidenceScore matches |}
        end
    end.

(** The environment with another index. *)
Definition with_index (env : Env)
    (q : list Q -> nat -> result (list Match)) : Env :=
  {| getEmbedding := getEmbedding env;
     queryPinecone := q;
     chatCompletion := chatCompletion env;
     stripMarkdown := stripMarkdown env |}.

End Chat.

(** ** Content review: app/api/website/analyze/route.ts *)

Module Analyze.
Import Exn.

(** ['low' | 'medium' | 'high'] of the pattern detector. *)
Inductive level := low | medium | high.

Definition level_text (l : level) : string :=
  match l with
  | low => "low"
  | medium => "medium"
  | high => "high"
  end.

(** An element of the array [detectOutdatedTerminology] returns. *)
Record OutdatedIssue := {
  term : string;
  context : string;
  o_severity : level;
  o_location : option string;
}.

(** An issue object: the model's JSON or built by the route.  The fields
    the route compares with [===] ([currentText], [outdatedText],
    [location]) or prints inside a template literal ([type],
    [description]) tell [null] from absent.  [severity] and [priority]
    are only compared with string literals, [suggestedReplacement] and
    [reasoning] are only passed on: for these [None] stands for absent or
    [null], which the route does not tell apart.  The prompt asks for
    strings; other JSON values are outside this model. *)
Record Issue := {
  type : value;
  description : value;
  currentText : value;
  outdatedText : value;
  suggestedReplacement : option string;
  reasoning : option string;
  location : value;
  severity : option string;
  priority : option string;
}.

(** [reason] and [reasoning] are printed inside a template literal. *)
Record Relevance := {
  isRelevant : bool;
  reason : value;
  rel_reasoning : value;
}.

Record Messaging := {
  transitionMessage : option string;
}.

(** The parsed model answer.  It comes out of [JSON.parse], so an entry of
    [issues] may be [null] ([None]); [instructorRecommendations] and the
    entries of [specificChanges] are opaque to the route. *)
Record Analysis := {
  risks : option (list string);
  summary : option string;
  riskLevel : option string;
  issues : option (list (option Issue));
  outdatedTermsFound : option (list string);
  updatePriority : option string;
  currentRelevance : option Relevance;
  futureRelevance : option Relevance;
  messagingStrategy : option Messaging;
  instructorRecommendations : option string;
  specificChanges : option (list string);
}.

Record Page := {
  html : string;
  p_text : string;
}.

(** The collaborators of one request.
    - [fetchPageContent] has its own catch-all and returns [null] ([None])
      on any failure;
    - [detectOutdatedTerminology] is the regular-expression scan of the
      page text;
    - [knowledgeBase] is the embedding of the page text, the index query
      and the rendering of the matches (the first inner [try]);
    - [modelAnalysis] is the prompt, [chatCompletion], and the extraction
      and parsing of the JSON answer (the second inner [try]). *)
Record Env := {
  fetchPageContent : string -> option Page;
  detectOutdatedTerminology : string -> list OutdatedIssue;
  knowledgeBase : string -> result string;
  modelAnalysis : Page -> list OutdatedIssue -> string -> result Analysis;
}.

(** Reading a property of [null]. *)
Definition null_property (prop : string) : thrown :=
  ErrorObj ("Cannot read properties of null (reading '" ++ prop ++ "')").

(** The analysis used when the model path throws. *)
Definition fallback (outdatedIssues : list OutdatedIssue) : Analysis :=
  let n := decimal (length outdatedIssues) in
  let any := 0 <? length outdatedIssues in
  {| risks := Some
       (if any
        then [("Found " ++ n ++ " instance(s) of outdated Blackboard Learn terminology")%string]
        else ["No obvious outdated terminology detected"]);
     summary := Some
       (if any
        then ("Found " ++ n ++ " instance(s) of outdated Blackboard Learn terminology that should be updated to Blackboard Ultra.")%string
        else "No obvious outdated messaging detected.");
     riskLevel := Some (if any then "high" else "low");
     issues := Some
       (map (fun i => Some
          {| type := Str "Outdated Terminology";
             description := Str ("Found outdated term: " ++ term i)%string;
             currentText := Undefined;
             outdatedText := Str (term i);
             suggestedReplacement := Some "Blackboard Ultra";
             reasoning := None;
             location := of_option (o_location i);
             severity := Some (level_text (o_severity i));
             priority := None |}) outdatedIssues);
     outdatedTermsFound := Some (map term outdatedIssues);
     updatePriority := Some (if any then "high" else "low");
     currentRelevance := None;
     futureRelevance := None;
     messagingStrategy := None;
     instructorRecommendations := None;
     specificChanges := None |}.

(** The issue object the route builds for a detected term. *)
Definition heuristic_issue (i : OutdatedIssue) : Issue :=
  {| type := Str "Outdated Terminology";
     description := Str ("Found outdated term: " ++ term i ++ ". This should be updated to acknowledge Learn as current while promoting Ultra adoption.")%string;
     currentText := Str (term i);
     outdatedText := Str (term i);
     suggestedReplacement := Some "Blackboard Ultra (or appropriate messaging acknowledging Learn as current)";
     reasoning := Some "Terminology needs to reflect that Learn is current but Ultra is the future direction";
     location := of_option (o_location i);
     severity := Some (level_text (o_severity i));
     priority := Some (match o_severity i with high => "high" | _ => "medium" end) |}.

(** [[...(analysis.issues || []), ...outdatedIssues.map(...)]] *)
Definition allIssues (analysis : Analysis) (outdatedIssues : list OutdatedIssue)
  : list (option Issue) :=
  default [] (issues analysis) ++ map (fun i => Some (heuristic_issue i)) outdatedIssues.

(** [i.currentText || i.outdatedText] *)
Definition key_text (i : Issue) : value :=
  value_or (currentText i) (outdatedText i).

(** The deduplication key. *)
Definition key (i : Issue) : value * value :=
  (key_text i, location i).

(** The callback of [findIndex]: [i] is read first, then [issue]; the two
    comparisons are [===]. *)
Definition same_key (issue i : option Issue) : result bool :=
  match i, issue with
  | None, _ => inl (null_property "currentText")
  | Some _, None => inl (null_property "currentText")
  | Some i, Some issue =>
      inr (bool_decide (key_text i = key_text issue)
           && bool_decide (location i = location issue))
  end.

(** [self.findIndex(p)], scanning from position [k]. *)
Fixpoint findIndex {A} (p : A -> result bool) (self : list A) (k : Z)
  : result Z :=
  match self with
  | [] => inr (-1)%Z
  | x :: rest =>
      match p x with
      | inl e => inl e
      | inr true => inr k
      | inr false => findIndex p rest (k + 1)%Z
      end
  end.

(** [allIssues.filter((issue, index, self) => index ===
    self.findIndex(...))] on the elements from position [index] on.  An
    element that passes has been read by the callback, so it is an object. *)
Fixpoint filter_first (self : list (option Issue)) (index : Z)
    (l : list (option Issue)) : result (list Issue) :=
  match l with
  | [] => inr []
  | issue :: rest =>
      match findIndex (same_key issue) self 0%Z with
      | inl e => inl e
      | inr k =>
          match issue with
          | None => inl (null_property "currentText")
          | Some obj =>
              match filter_first self (index + 1)%Z rest with
              | inl e => inl e
              | inr kept => inr (if (index =? k)%Z then obj :: kept else kept)
              end
          end
      end
  end.

Definition uniqueIssuesOf (all : list (option Issue)) : result (list Issue) :=
  filter_first all 0%Z all.

(** [i.description || `${i.type}: ${i.description}`] *)
Definition risk_text (i : Issue) : string :=
  value_or_text (description i)
    (show (type i) ++ ": " ++ show (description i))%string.

Definition allRisksOf (analysis : Analysis) (uniqueIssues : list Issue)
  : list string :=
  default [] (risks analysis) ++ map risk_text uniqueIssues.

Definition is_text (s : string) (o : option string) : bool :=
  bool_decide (o = Some s).

(** The block that determines [overallRiskLevel]. *)
Definition overallRiskLevelOf (analysis : Analysis)
    (outdatedIssues : list OutdatedIssue) (uniqueIssues : list Issue)
    (allRisks : list string) : string :=
  let highSeverityIssues :=
    length (List.filter (fun i => is_text "high" (severity i)) uniqueIssues) in
  let mediumSeverityIssues :=
    length (List.filter (fun i => is_text "medium" (severity i)) uniqueIssues) in
  let highPriorityIssues :=
    length (List.filter (fun i => is_text "immediate" (priority i)
                                  || is_text "high" (priority i)) uniqueIssues) in
  let overallRiskLevel :=
    or_default (riskLevel analysis)
      (if 0 <? length outdatedIssues then "high" else "low") in
  if (0 <? highSeverityIssues) || (0 <? highPriorityIssues)
     || (5 <? length allRisks) then "high"
  else if (0 <? mediumSeverityIssues) || (2 <? length allRisks) then "medium"
  else overallRiskLevel.

(** What the aggregation of one page computes. *)
Record Aggregate := {
  uniqueIssues : list Issue;
  allRisks : list string;
  overallRiskLevel : string;
}.

Definition aggregate (analysis : Analysis) (outdatedIssues : list OutdatedIssue)
  : result Aggregate :=
  match uniqueIssuesOf (allIssues analysis outdatedIssues) with
  | inl e => inl e
  | inr unique =>
      let risks := allRisksOf analysis unique in
      inr {| uniqueIssues := unique;
             allRisks := risks;
             overallRiskLevel :=
               overallRiskLevelOf analysis outdatedIssues unique risks |}
  end.

Definition newlines : string :=
  String (ascii_of_nat 10) (String (ascii_of_nat 10) EmptyString).

Definition relevant_text (r : Relevance) : string :=
  if isRelevant r then "Relevant" else "Not relevant".

Definition comprehensiveSummary (analysis : Analysis) : string :=
  let s0 : string := or_default (summary analysis) EmptyString in
  let s1 : string :=
    match currentRelevance analysis with
    | Some r => (s0 ++ newlines ++ "CURRENT RELEVANCE: " ++ relevant_text r
                   ++ " - " ++ show (reason r))%string
    | None => s0
    end in
  let s2 : string :=
    match futureRelevance analysis with
    | Some r => (s1 ++ newlines ++ "FUTURE RELEVANCE: " ++ relevant_text r
                   ++ " - " ++ show (value_or (rel_reasoning r) (reason r)))%string
    | None => s1
    end in
  match messagingStrategy analysis with
  | Some m => (s2 ++ newlines ++ "MESSAGING STRATEGY: "
                 ++ or_default (transitionMessage m) "See detailed recommendations")%string
  | None => s2
  end.

(** An element of [results]. *)
Record Result := {
  url : string;
  success : bool;
  r_error : option string;
  r_risks : list string;
  r_summary : string;
  r_riskLevel : string;
  r_issues : list Issue;
  r_outdatedTermsFound : list string;
  r_updatePriority : option string;
  r_currentRelevance : option Relevance;
  r_futureRelevance : option Relevance;
  r_messagingStrategy : option Messaging;
  r_instructorRecommendations : option string;
  r_specificChanges : list string;
}.

Definition failure (u : string) (error : string) (risks : list string)
    (summary : string) : Result :=
  {| url := u; success := false; r_error := Some error; r_risks := risks;
     r_summary := summary; r_riskLevel := "high"; r_issues := [];
     r_outdatedTermsFound := []; r_updatePriority := None;
     r_currentRelevance := None; r_futureRelevance := None;
     r_messagingStrategy := None; r_instructorRecommendations := None;
     r_specificChanges := [] |}.

(** The body of the per-URL [try], after the page was fetched. *)
Definition analyze_page (env : Env) (u : string) (pageContent : Page)
  : result Result :=
  let outdatedIssues := detectOutdatedTerminology env (p_text pageContent) in
  let ultraContext :=
    match knowledgeBase env (p_text pageContent) with
    | inl _ => EmptyString
    | inr c => c
    end in
  let analysis :=
    match modelAnalysis env pageContent outdatedIssues ultraContext with
    | inl _ => fallback outdatedIssues
    | inr a => a
    end in
  match aggregate analysis outdatedIssues with
  | inl e => inl e
  | inr agg =>
      let s := comprehensiveSummary analysis in
      inr {| url := u;
             success := true;
             r_error := None;
             r_risks := allRisks agg;
             r_summary :=
               if String.eqb s EmptyString then
                 if 0 <? length outdatedIssues then
                   ("Found " ++ decimal (length outdatedIssues) ++ " instances of Blackboard Learn references. Needs messaging update to acknowledge Learn as current while promoting Ultra adoption.")%string
                 else "No obvious outdated messaging detected."
               else s;
             r_riskLevel := overallRiskLevel agg;
             r_issues := uniqueIssues agg;
             r_outdatedTermsFound :=
               default (map term outdatedIssues) (outdatedTermsFound analysis);
             r_updatePriority :=
               Some (or_default (updatePriority analysis) (overallRiskLevel agg));
             r_currentRelevance := currentRelevance analysis;
             r_futureRelevance := futureRelevance analysis;
             r_messagingStrategy := messagingStrategy analysis;
             r_instructorRecommendations := instructorRecommendations analysis;
             r_specificChanges := default [] (specificChanges analysis) |}
  end.

(** Loop state: [results], and the URLs handed to [fetchPageContent] so
    far (the trace of processing). *)
Record State := {
  results : list Result;
  fetched : list string;
}.

(** One iteration of [for (const url of urls)]. *)
Definition url_step (env : Env) (st : State) (u : string) : State :=
  let r :=
    match fetchPageContent env u with
    | None =>
        failure u "Failed to fetch page content" []
          "Unable to analyze - page could not be fetched"
    | Some pageContent =>
        match analyze_page env u pageContent with
        | inr r => r
        | inl e =>
            failure u (errorMessage e)
              [("Analysis failed: " ++ errorMessage e)%string]
              ("Analysis failed: " ++ errorMessage e)%string
        end
    end in
  {| results := results st ++ [r]; fetched := fetched st ++ [u] |}.

Inductive reply :=
| Status200 (results : list Result)
| Status400 (error : string).

(** [urls] is [None] when the body has no array under that name. *)
Definition POST (env : Env) (urls : option (list string))
  : reply * list string :=
  match urls with
  | None => (Status400 "URLs array is required", [])
  | Some urls =>
      if length urls =? 0 then (Status400 "URLs array is required", [])
      else if 100 <? length urls then
        (Status400 "Maximum 100 URLs allowed", [])
      else
        let st := foldl (url_step env) {| results := []; fetched := [] |} urls in
        (Status200 (results st), fetched st)
  end.

(** *** The thresholds as the specification words them *)

(** The severity rule read off the specification: a function of the
    unique issues alone. *)
Definition spec_overallSeverity (unique : list Issue) : string :=
  if existsb (fun i => is_text "high" (severity i)
                       || is_text "immediate" (priority i)
                       || is_text "high" (priority i)) unique
     || (5 <? length unique) then "high"
  else if existsb (fun i => is_text "medium" (severity i)) unique
          || (2 <? length unique) then "medium"
  else "low".

End Analyze.


(** *** Reading the ingestion paths *)

Module IngestSpec.
Import Js Exn Ingest.

(** Index transformers of the shape [W ∪ _]: an upsert only adds or
    overwrites. *)
Definition absorbing (f : store -> store) : Prop :=
  exists W : store, forall m, f m = W ∪ m.

(** The guard at the head of the route's loop body, negated. *)
Definition eligible (f : File) : bool :=
  negb (falsy (id f) || falsy (name f)).

(** [t] is what some collaborator call throws in this environment. *)
Definition thrown_by (env : Env) (t : thrown) : Prop :=
  (exists i m, getFileContent env i m = inl t) \/
  (exists b m, extractTextFromDocument env b m = inl t) \/
  (exists c, getEmbedding env c = inl t) \/
  (exists vs, upsertRejects env vs = Some t).

Definition route_messages : list string :=
  ["File is empty (0 bytes)"; "No text extracted"; "No valid chunks created"].

Definition script_messages : list string :=
  ["Empty file"; "No text extracted"; "No valid chunks"].

(** [vectors] is the batch of a file on the route: the file passes the
    guard, is read, is not empty, gives text and at least one chunk, every
    chunk can be embedded, and [vectors] holds the vector of each chunk,
    in chunk order. *)
Definition whole_batch (env : Env) (f : File) (vectors : list Vector)
  : Prop :=
  eligible f = true /\
  exists buffer txt,
    getFileContent env (id f) (Some (or_default (mimeType f) "text/plain")) =
      inr buffer /\
    length buffer <> 0 /\
    extractTextFromDocument env buffer (or_default (mimeType f) "text/plain") =
      inr txt /\
    no_text txt = false /\
    Chunker.chunks_route txt <> [] /\
    length vectors = length (Chunker.chunks_route txt) /\
    forall k c, Chunker.chunks_route txt !! k = Some c ->
      exists emb, getEmbedding env c = inr emb /\
                  vectors !! k = Some (Route.vector_of f k c emb).

(** The entry the route reports for an eligible file: either chunks were
    written and there is no error, or none were and the error is one of
    the route's messages or the message of what a collaborator threw.
    The first is the case exactly when the file has a batch that the
    upsert accepts, and the entry then counts the batch; in every other
    case the file has failed. *)
Definition route_entry (env : Env) (f : File) (e : Entry) : Prop :=
  e_name e = interpolate (name f) /\
  ((0 < chunks e /\ error e = None) \/
   (chunks e = 0 /\
    exists m, error e = Some m /\
      (In m route_messages \/
       exists t, thrown_by env t /\ m = errorMessage t))) /\
  (forall vectors,
     whole_batch env f vectors -> upsertRejects env vectors = None ->
     chunks e = length vectors /\ error e = None) /\
  ((forall vectors,
      whole_batch env f vectors -> upsertRejects env vectors <> None) ->
   chunks e = 0 /\ exists m, error e = Some m).

(** Chunk [j] of the file is embedded and its upsert accepted. *)
Definition chunk_ok (env : Env) (file : File) (j : nat) (chunk : Js.text)
  : bool :=
  match getEmbedding env chunk with
  | inl _ => false
  | inr emb =>
      match upsertRejects env [Script.vector_of file j chunk emb] with
      | Some _ => false
      | None => true
      end
  end.

(** How many of the chunks, numbered from [j], are. *)
Fixpoint count_ok (env : Env) (file : File) (j : nat) (chunks : list Js.text)
  : nat :=
  match chunks with
  | [] => 0
  | c :: rest =>
      (if chunk_ok env file j c then 1 else 0) + count_ok env file (S j) rest
  end.

(** [chunks] are the chunks of a file on the script path: the file is
    read, is not empty, gives text, and is cut into [chunks], at least
    one. *)
Definition script_chunks (env : Env) (f : File) (chunks : list Js.text)
  : Prop :=
  exists buffer txt,
    getFileContent env (id f) (mimeType f) = inr buffer /\
    length buffer <> 0 /\
    extractTextFromDocument env buffer
      (or_default (mimeType f) "text/plain") = inr txt /\
    no_text txt = false /\
    chunks = Chunker.chunks_script txt /\
    chunks <> [].

(** The entry the script reports for a file.  Either it carries no error:
    then the file was read and cut into at least one chunk, and the entry
    counts the chunks whose embedding and upsert succeeded, which may be
    none of them.  Or it carries an error and counts no chunk: then the
    error is one of the script's messages or the first 100 characters of
    the message of what a collaborator threw.  The first is the case
    exactly when the file has chunks. *)
Definition script_entry (env : Env) (f : File) (e : Entry) : Prop :=
  e_name e = or_default (name f) "Unknown" /\
  ((error e = None /\
    exists chunks,
      script_chunks env f chunks /\
      Ingest.chunks e = count_ok env f 0 chunks) \/
   (chunks e = 0 /\
    exists m, error e = Some m /\
      (In m script_messages \/
       exists t, thrown_by env t /\
                 m = String.substring 0 100 (errorMessage t)))) /\
  (forall chunks,
     script_chunks env f chunks ->
     error e = None /\ Ingest.chunks e = count_ok env f 0 chunks) /\
  ((forall chunks, ~ script_chunks env f chunks) ->
   chunks e = 0 /\ exists m, error e = Some m).

Definition total (es : list Entry) : nat := sum_list (map chunks es).

(** What one iteration of the script's file loop does: it appends one
    entry, adds its chunks to the total and only adds to the index; the
    entry and what is written do not depend on the loop state. *)
Definition script_step_effect (env : Env) (f : File) (e : Entry) (W : store)
  : Prop :=
  forall st,
    Script.processedFiles (Script.file_step env st f) =
      Script.processedFiles st ++ [e] /\
    Script.totalChunks (Script.file_step env st f) =
      Script.totalChunks st + chunks e /\
    Script.index (Script.file_step env st f) = W ∪ Script.index st.

(** The same for the route, which also keeps [failedFileDetails]. *)
Definition route_step_effect (env : Env) (f : File) (e : Entry) (W : store)
    (D : list (string * string)) : Prop :=
  forall st,
    Route.processedFiles (Route.file_step env st f) =
      Route.processedFiles st ++ [e] /\
    Route.totalChunks (Route.file_step env st f) =
      Route.totalChunks st + chunks e /\
    Route.failedFileDetails (Route.file_step env st f) =
      Route.failedFileDetails st ++ D /\
    Route.index (Route.file_step env st f) = W ∪ Route.index st.

(** The entries a run of the script reports. *)
Definition script_entries (o : Script.outcome) : list Entry :=
  match o with
  | Script.Summary processed _ => processed
  | _ => []
  end.

End IngestSpec.

(** *** Reading the aggregation *)

Module AnalyzeSpec.
Import Exn Analyze.

(** First occurrences by key: an issue is kept unless its key was seen. *)
Fixpoint first_by_key (seen : list (value * value))
    (l : list Issue) : list Issue :=
  match l with
  | [] => []
  | i :: rest =>
      if bool_decide (key i ∈ seen) then first_by_key seen rest
      else i :: first_by_key (key i :: seen) rest
  end.

(** An issue that alone makes the page high risk. *)
Definition escalates (i : Issue) : bool :=
  is_text "high" (severity i) || is_text "immediate" (priority i)
  || is_text "high" (priority i).

(** The rule the route follows: the count is that of the risk entries (the
    model's risk strings and one per unique issue), and below the
    thresholds the level is the model's own when it gave one, else "high"
    exactly when the detector found something. *)
Definition amended_overallSeverity (analysis : Analysis)
    (outdatedIssues : list OutdatedIssue) (unique : list Issue)
    (risks : list string) : string :=
  if existsb escalates unique || (5 <? length risks) then "high"
  else if existsb (fun i => is_text "medium" (severity i)) unique
          || (2 <? length risks) then "medium"
  else or_default (riskLevel analysis)
         (if 0 <? length outdatedIssues then "high" else "low").

(** What the route reports for [u]: the result names [u]; a failure
    carries a non-empty error, a success none; a page that cannot be
    fetched is a failure, and so is a page whose analysis (the body of the
    per-URL [try]) throws, with the message of what was thrown; a page
    whose analysis returns is a success, with the result it returned. *)
Definition reported_for (env : Env) (u : string) (r : Result) : Prop :=
  url r = u /\
  (success r = false ->
   exists m, r_error r = Some m /\ m <> EmptyString) /\
  (success r = true -> r_error r = None) /\
  (fetchPageContent env u = None ->
   success r = false /\ r_error r = Some "Failed to fetch page content") /\
  (forall page t,
     fetchPageContent env u = Some page ->
     analyze_page env u page = inl t ->
     success r = false /\ r_error r = Some (errorMessage t)) /\
  (forall page ok,
     fetchPageContent env u = Some page ->
     analyze_page env u page = inr ok ->
     r = ok /\ success r = true).

End AnalyzeSpec.

(** ** Concrete inputs used by the examples *)

Module Samples.
Import Js Exn.

Definition notes : Ingest.File :=
  {| Ingest.id := Some "f1"; Ingest.name := Some "notes.txt";
     Ingest.mimeType := Some "text/plain"; Ingest.modifiedTime := None |}.

(** A listed file that carries no id. *)
Definition nameless : Ingest.File :=
  {| Ingest.id := None; Ingest.name := Some "draft.txt";
     Ingest.mimeType := Some "text/plain"; Ingest.modifiedTime := None |}.

(** Two paragraphs of thirty code units each. *)
Definition two_paragraphs : Js.text :=
  repeat 97%N 30 ++ [10%N; 10%N] ++ repeat 98%N 30.

(** Every collaborator succeeds; the folder lists [files]. *)
Definition healthy (files : list Ingest.File) : Ingest.Env :=
  {| Ingest.listFilesInFolder := fun _ => inr files;
     Ingest.getFileContent := fun _ _ => inr [1%N];
     Ingest.extractTextFromDocument := fun _ _ => inr two_paragraphs;
     Ingest.getEmbedding := fun _ => inr [1 # 2];
     Ingest.upsertRejects := fun _ => None |}.

(** As [healthy], but embedding a chunk that starts with [b] throws. *)
Definition flaky (files : list Ingest.File) : Ingest.Env :=
  {| Ingest.listFilesInFolder := fun _ => inr files;
     Ingest.getFileContent := fun _ _ => inr [1%N];
     Ingest.extractTextFromDocument := fun _ _ => inr two_paragraphs;
     Ingest.getEmbedding := fun chunk =>
       match chunk with
       | 98%N :: _ => inl (ErrorObj "rate limit")
       | _ => inr [1 # 2]
       end;
     Ingest.upsertRejects := fun _ => None |}.

(** As [healthy], but no chunk can be embedded. *)
Definition unembeddable (files : list Ingest.File) : Ingest.Env :=
  {| Ingest.listFilesInFolder := fun _ => inr files;
     Ingest.getFileContent := fun _ _ => inr [1%N];
     Ingest.extractTextFromDocument := fun _ _ => inr two_paragraphs;
     Ingest.getEmbedding := fun _ => inl (ErrorObj "rate limit");
     Ingest.upsertRejects := fun _ => None |}.

(** A chat environment whose index query throws. *)
Definition index_down : Chat.Env :=
  {| Chat.getEmbedding := fun _ => inr [1 # 2];
     Chat.queryPinecone := fun _ _ => inl (ErrorObj "Pinecone unavailable");
     Chat.chatCompletion := fun _ context =>
       inr (String.append "answer with context: " context);
     Chat.stripMarkdown := fun s => s |}.

(** A model answer with no field set. *)
Definition silent : Analyze.Analysis :=
  {| Analyze.risks := None; Analyze.summary := None;
     Analyze.riskLevel := None; Analyze.issues := None;
     Analyze.outdatedTermsFound := None; Analyze.updatePriority := None;
     Analyze.currentRelevance := None; Analyze.futureRelevance := None;
     Analyze.messagingStrategy := None;
     Analyze.instructorRecommendations := None;
     Analyze.specificChanges := None |}.

(** A model answer that gives only a level, risk strings and issues. *)
Definition answer (level : option string) (risks : option (list string))
    (issues : option (list (option Analyze.Issue))) : Analyze.Analysis :=
  {| Analyze.risks := risks; Analyze.summary := None;
     Analyze.riskLevel := level; Analyze.issues := issues;
     Analyze.outdatedTermsFound := None; Analyze.updatePriority := None;
     Analyze.currentRelevance := None; Analyze.futureRelevance := None;
     Analyze.messagingStrategy := None;
     Analyze.instructorRecommendations := None;
     Analyze.specificChanges := None |}.

(** A detected term of low severity in sentence [n]. *)
Definition minor (n : nat) : Analyze.OutdatedIssue :=
  {| Analyze.term := "old Blackboard";
     Analyze.context := "the old Blackboard";
     Analyze.o_severity := Analyze.low;
     Analyze.o_location := Some (String.append "Sentence " (decimal n)) |}.

(** An issue object with a text, a location and a description only. *)
Definition plain_issue (t l d : string) : Analyze.Issue :=
  {| Analyze.type := Undefined; Analyze.description := Str d;
     Analyze.currentText := Str t; Analyze.outdatedText := Undefined;
     Analyze.suggestedReplacement := None; Analyze.reasoning := None;
     Analyze.location := Str l; Analyze.severity := None;
     Analyze.priority := None |}.

(** A site where [bad] cannot be fetched, the model answers [answer] and
    the detector finds nothing. *)
Definition site (bad : string) (answer : Analyze.Analysis) : Analyze.Env :=
  {| Analyze.fetchPageContent := fun u =>
       if String.eqb u bad then None
       else Some {| Analyze.html := "<p>page</p>"; Analyze.p_text := "page" |};
     Analyze.detectOutdatedTerminology := fun _ => [];
     Analyze.knowledgeBase := fun _ => inr "context";
     Analyze.modelAnalysis := fun _ _ _ => inr answer |}.

End Samples.

(** ** Further reading of the chunker *)

Module ChunkerSpec.
Import Js Chunker.

(** [p] is a contiguous part of [t]. *)
Definition part_of (p t : text) : Prop := exists a b, t = a ++ p ++ b.

(** No two adjacent newlines: [/\n\n+/] matches nowhere. *)
Fixpoint blank_line_free (t : text) : bool :=
  match t with
  | a :: (b :: _) as r =>
      negb (is_newline a && is_newline b) && blank_line_free r
  | _ => true
  end.

End ChunkerSpec.

(** ** Further reading of the content review *)

Module AnalyzeSpec2.
Import Exn Analyze.

(** The issue object the fallback analysis builds for a detected term. *)
Definition fallback_issue (i : OutdatedIssue) : Issue :=
  {| type := Str "Outdated Terminology";
     description := Str ("Found outdated term: " ++ term i)%string;
     currentText := Undefined;
     outdatedText := Str (term i);
     suggestedReplacement := Some "Blackboard Ultra";
     reasoning := None;
     location := of_option (o_location i);
     severity := Some (level_text (o_severity i));
     priority := None |}.

End AnalyzeSpec2.

(** ** Document preview: app/api/documents/preview/route.ts *)

Module Preview.
Import Exn.

(** The metadata of a match; both spellings of the file id, of the index
    and of the text are read. *)
Record Metadata := {
  fileId : option string;
  file_id : option string;
  chunkIndex : option nat;
  chunk_index : option nat;
  text : option string;
  content : option string;
  title : option string;
}.

Record Match := {
  m_id : string;
  score : option Q;
  metadata : option Metadata;
}.

(** An element of [chunks] in the reply. *)
Record Chunk := {
  c_id : string;
  c_chunkIndex : nat;
  c_text : string;
  c_score : Q;
  c_title : string;
}.

(** [match.metadata?.f] *)
Definition meta {A} (f : Metadata -> option A) (m : Match) : option A :=
  match metadata m with
  | Some md => f md
  | None => None
  end.

(** [a || b || d] on possibly undefined numbers: 0 is falsy. *)
Definition first_truthy (a b : option nat) (d : nat) : nat :=
  match a with
  | Some (S n) => S n
  | _ => match b with
         | Some (S n) => S n
         | _ => d
         end
  end.

(** [match.metadata?.fileId || match.metadata?.file_id] *)
Definition matchFileId (m : Match) : option string :=
  or_else (meta fileId m) (meta file_id m).

(** [matchFileId === fileId], for the (non-empty) requested id. *)
Definition belongs (requested : string) (m : Match) : bool :=
  bool_decide (matchFileId m = Some requested).

(** [Number(a.metadata?.chunkIndex || a.metadata?.chunk_index || 0) || 0] *)
Definition sort_index (m : Match) : nat :=
  first_truthy (meta chunkIndex m) (meta chunk_index m) 0.

(** [Array.prototype.sort] with the comparator [aIndex - bIndex]: a stable
    sort, ascending in [sort_index].  An element is placed behind the
    elements that do not compare greater. *)
Fixpoint place (x : Match) (sorted : list Match) : list Match :=
  match sorted with
  | [] => [x]
  | y :: rest =>
      if sort_index x <? sort_index y then x :: y :: rest
      else y :: place x rest
  end.

Definition sort (l : list Match) : list Match :=
  foldl (fun sorted x => place x sorted) [] l.

(** [x || 0] on a possibly undefined score. *)
Definition score_or_zero (x : option Q) : Q :=
  match x with
  | Some q => if Qeq_bool q 0 then 0%Q else q
  | None => 0%Q
  end.

(** The callback of [filteredMatches.map((match, index) => ...)]. *)
Definition chunk_of (index : nat) (m : Match) : Chunk :=
  {| c_id := m_id m;
     c_chunkIndex := first_truthy (meta chunkIndex m) (meta chunk_index m) index;
     c_text := or_default (or_else (meta text m) (meta content m)) EmptyString;
     c_score := score_or_zero (score m);
     c_title := or_default (meta title m) "Untitled" |}.

Inductive reply :=
| Found (chunks : list Chunk) (fileId : string) (chunkCount : nat)
| NotIndexed (error : string) (fileId : string)
| Status400 (error : string)
| Status500 (error : string).

Definition POST (queryPineconeByFileId : string -> result (list Match))
    (fileId : option string) : reply :=
  if falsy fileId then Status400 "File ID is required"
  else
    match queryPineconeByFileId (interpolate fileId) with
    | inl _ => Status500 "Failed to get document preview"
    | inr matches =>
        let filteredMatches :=
          List.filter (belongs (interpolate fileId)) matches in
        if length filteredMatches =? 0 then
          NotIndexed
            "No content found for this document. It may not be fully indexed in the vector database."
            (interpolate fileId)
        else
          let chunks := imap chunk_of (sort filteredMatches) in
          Found chunks (interpolate fileId) (length chunks)
    end.

(** Matches whose index is [k]. *)
Definition at_index (k : nat) (m : Match) : bool := sort_index m =? k.

(** The partial order the sort establishes. *)
Definition by_index (a b : Match) : Prop := sort_index a <= sort_index b.

End Preview.

(** ** YouTube transcription route: the video id *)

Module VideoId.
Import Js.

(** [[^&\n?#]] *)
Definition id_char (c : N) : bool :=
  negb ((c =? 38) || (c =? 10) || (c =? 63) || (c =? 35))%N.

(** [.] without the [s] flag: anything but a line terminator. *)
Definition dot (c : N) : bool :=
  negb ((c =? 10) || (c =? 13) || (c =? 8232) || (c =? 8233))%N.

(** The text after the literal [lit] when [s] starts with it. *)
Fixpoint after (lit s : text) : option text :=
  match lit, s with
  | [], _ => Some s
  | l :: lit', c :: s' => if (l =? c)%N then after lit' s' else None
  | _ :: _, [] => None
  end.

(** [([^&\n?#]+)] at the head of [s]: the longest run, if not empty. *)
Definition capture (s : text) : option text :=
  let n := run id_char s in
  if 1 <=? n then Some (take n s) else None.

(** A literal followed by the capture. *)
Definition literal_then_capture (lit : string) (s : text) : option text :=
  match after (of_string lit) s with
  | Some rest => capture rest
  | None => None
  end.

(** The first pattern anchored at the head of [s]:
    [(?:youtube\.com\/watch\?v=|youtu\.be\/|youtube\.com\/embed\/)([^&\n?#]+)],
    the alternatives in their order. *)
Definition first_pattern_here (s : text) : option text :=
  match literal_then_capture "youtube.com/watch?v=" s with
  | Some v => Some v
  | None =>
      match literal_then_capture "youtu.be/" s with
      | Some v => Some v
      | None => literal_then_capture "youtube.com/embed/" s
      end
  end.

(** [.*v=([^&\n?#]+)] at the head of [body], where [.*] may take up to
    [span] code units: the longest choice for [.*] that lets the rest
    match is tried first. *)
Fixpoint greedy_v (body : text) (span : nat) : option text :=
  match span, body with
  | S n, _ :: rest =>
      match greedy_v rest n with
      | Some v => Some v
      | None => literal_then_capture "v=" body
      end
  | _, _ => literal_then_capture "v=" body
  end.

(** The second pattern anchored at the head of [s]:
    [youtube\.com\/watch\?.*v=([^&\n?#]+)]. *)
Definition second_pattern_here (s : text) : option text :=
  match after (of_string "youtube.com/watch?") s with
  | Some body => greedy_v body (run dot body)
  | None => None
  end.

(** [url.match(pattern)] for a pattern without the [g] flag: the match at
    the leftmost position where the pattern matches; its group 1. *)
Fixpoint search (here : text -> option text) (s : text) : option text :=
  match here s with
  | Some v => Some v
  | None =>
      match s with
      | [] => None
      | _ :: rest => search here rest
      end
  end.

(** [extractVideoId]: the first pattern that matches decides; a captured
    group is never empty, so [match[1]] is truthy whenever there is a
    match. *)
Definition extractVideoId (url : text) : option text :=
  match search first_pattern_here url with
  | Some v => Some v
  | None => search second_pattern_here url
  end.

(** [title.replace(/[^a-z0-9]/gi, '_')] *)
Definition alphanumeric (c : N) : bool :=
  ((48 <=? c) && (c <=? 57) || (65 <=? c) && (c <=? 90)
   || (97 <=? c) && (c <=? 122))%N.

Definition sanitize (title : text) : text :=
  map (fun c => if alphanumeric c then c else 95%N) title.

(** [`${videoInfo.title.replace(...)}_${videoId}_transcript.txt`] *)
Definition transcript_name (title videoId : text) : text :=
  sanitize title ++ [95%N] ++ videoId ++ of_string "_transcript.txt".

End VideoId.

Module VideoIdSpec.
Import Js VideoId.

(** What the patterns guarantee about an id. *)
Definition well_formed (v : text) : Prop :=
  v <> [] /\ Forall (fun c => id_char c = true) v.

End VideoIdSpec.

(** ** The Drive library: authentication and upload *)

Module Drive.
Import Exn.

(** What [uploadFileToGoogleDrive] is given: a [Buffer] or a string. *)
Inductive content :=
| Buffer (bytes : list N)
| Text (s : Js.text).

(** The process environment the library reads and the Google client it
    drives.  [refreshAccessToken] is [None] when the call resolves;
    [filesCreate name folder mimeType body] gives the [id] and the
    [webViewLink] of the response. *)
Record Env := {
  GOOGLE_CLIENT_ID : option string;
  GOOGLE_CLIENT_SECRET : option string;
  GOOGLE_DRIVE_FOLDER_ID : option string;
  refreshAccessToken : option thrown;
  filesCreate :
    Js.text -> string -> string -> content -> result (option string * option string)
}.

Definition nl : string := String (Ascii.ascii_of_nat 10) EmptyString.
Definition dquote : string := String (Ascii.ascii_of_nat 34) EmptyString.

Definition token_expired : string :=
  ("Refresh token expired or revoked. This usually happens if:" ++ nl ++
   "- Your app is in " ++ dquote ++ "Testing" ++ dquote ++
   " mode (tokens expire after 7 days)" ++ nl ++
   "- Token hasn't been used for 6 months" ++ nl ++
   "- User revoked access" ++ nl ++ nl ++
   "Solution: Get a new refresh token by visiting:" ++ nl ++
   "http://localhost:3003/api/auth/google" ++ nl ++ nl ++
   "See PREVENT_TOKEN_EXPIRATION.md for more details.")%string.

(** [getGoogleOAuthClient]: the module keeps the client it built once;
    [cached] says whether an earlier call already built it. *)
Definition getGoogleOAuthClient (env : Env) (cached : bool) : result unit :=
  if cached then inr tt
  else if falsy (GOOGLE_CLIENT_ID env) || falsy (GOOGLE_CLIENT_SECRET env)
  then inl (ErrorObj "Google OAuth credentials must be set")
  else inr tt.

(** [getGoogleDriveClient] *)
Definition getGoogleDriveClient (env : Env) (cached : bool) : result unit :=
  match getGoogleOAuthClient env cached with
  | inl e => inl e
  | inr _ =>
      match refreshAccessToken env with
      | None => inr tt
      | Some error =>
          let errorMessage := errorMessage error in
          if includes "invalid_grant" errorMessage
          then inl (ErrorObj token_expired)
          else inl (ErrorObj
                 ("Failed to refresh access token: " ++ errorMessage
                  ++ ". Make sure your refresh token is valid.")%string)
      end
  end.

Record Uploaded := { fileId : string; webViewLink : option string }.

(** A possibly undefined string under [!]: what is left when it is
    truthy. *)
Definition truthy (a : option string) : option string :=
  match a with
  | Some s => if String.eqb s EmptyString then None else Some s
  | None => None
  end.

(** [uploadFileToGoogleDrive] *)
Definition uploadFileToGoogleDrive (env : Env) (cached : bool)
    (fileName : Js.text) (fileContent : content) (mimeType : string)
    (folderId : option string) : result Uploaded :=
  match getGoogleDriveClient env cached with
  | inl e => inl e
  | inr _ =>
      match truthy (or_else folderId (GOOGLE_DRIVE_FOLDER_ID env)) with
      | None =>
          inl (ErrorObj
            "Google Drive folder ID is required. Set GOOGLE_DRIVE_FOLDER_ID in environment variables.")
      | Some targetFolderId =>
          match filesCreate env fileName targetFolderId mimeType fileContent with
          | inr (id, link) =>
              inr {| fileId := or_default id EmptyString;
                     webViewLink := or_else link None |}
          | inl error =>
              inl (ErrorObj
                ("Failed to upload file to Google Drive: "
                 ++ errorMessage error)%string)
          end
      end
  end.

End Drive.

(** ** The upload route *)

Module Upload.
Import Exn.

(** The [file] entry of the form. *)
Record File := {
  name : Js.text;
  type : string;
  bytes : list N
}.

Inductive reply :=
| Ok200 (fileId : string) (fileName : Js.text) (webViewLink : option string)
| Status400
| Status500 (details technicalDetails : string).

(** The [catch] of the route: the message shown to the user. *)
Definition userFriendlyError (errorMessage : string) : string :=
  if includes "refresh access token" errorMessage
     || includes "invalid_grant" errorMessage
  then "Google Drive authentication failed. Please re-authorize the application with write permissions. Visit /api/auth/google to get a new authorization URL."
  else if includes "insufficientFilePermissions" errorMessage
          || includes "403" errorMessage
  then "Insufficient permissions. Make sure your Google OAuth app has write access to Google Drive. You may need to re-authorize with the correct scopes."
  else if includes "GOOGLE_DRIVE_FOLDER_ID" errorMessage
  then "Google Drive folder ID not configured. Please set GOOGLE_DRIVE_FOLDER_ID in your environment variables."
  else errorMessage.

(** [POST] of the upload route, given the parsed form. *)
Definition POST (env : Drive.Env) (cached : bool) (file : option File)
    (folderId : option string) : reply :=
  match file with
  | None => Status400
  | Some file =>
      let mimeType := or_default (Some (type file)) "application/octet-stream" in
      match Drive.uploadFileToGoogleDrive env cached (name file)
              (Drive.Buffer (bytes file)) mimeType (or_else folderId None) with
      | inr result =>
          Ok200 (Drive.fileId result) (name file) (Drive.webViewLink result)
      | inl error =>
          Status500 (userFriendlyError (errorMessage error))
                    (errorMessage error)
      end
  end.

End Upload.

(** ** The transcription route *)

Module Transcribe.
Import Js Exn.

(** The collaborators of the route.  [oembed videoId] is the [title] of
    the oEmbed response; [ytDlp template url] and [youtubeDl template url]
    run the tool and then list the output directory; [whisper path] reads
    the audio file and asks for its transcription. *)
Record Env := {
  oembed : text -> result (option text);
  now : nat;
  ytDlp : text -> text -> result (list text);
  youtubeDl : text -> text -> result (list text);
  getOpenAIClient : result unit;
  whisper : text -> result text;
  drive : Drive.Env;
  driveClientCached : bool
}.

(** [getVideoInfo] *)
Definition getVideoInfo (env : Env) (videoId : text) : text :=
  match oembed env videoId with
  | inr (Some (c :: title)) => c :: title
  | _ => of_string "Untitled Video"
  end.

Definition startsWith (s p : text) : bool :=
  match VideoId.after p s with Some _ => true | None => false end.

Definition endsWith (s p : text) : bool := startsWith (rev s) (rev p).

(** The file the download is taken to have written. *)
Definition audioFile (videoId : text) (files : list text) : option text :=
  find (fun f =>
          startsWith f videoId
          && (endsWith f (of_string ".mp3") || endsWith f (of_string ".m4a")
              || endsWith f (of_string ".webm")))
       files.

(** One attempt: run the tool, list the directory, pick the file. *)
Definition attempt (tool : text -> text -> result (list text))
    (videoUrl videoId : text) : result text :=
  match tool (videoId ++ of_string ".%(ext)s") videoUrl with
  | inl e => inl e
  | inr files =>
      match audioFile videoId files with
      | Some (c :: f) => inr (c :: f)
      | _ => inl (ErrorObj "Audio file not found after download")
      end
  end.

(** [downloadAudio]; the result is the name of the file inside the output
    directory. *)
Definition downloadAudio (env : Env) (videoUrl videoId : text) : result text :=
  let inner :=
    match attempt (ytDlp env) videoUrl videoId with
    | inr f => inr f
    | inl _ =>
        match attempt (youtubeDl env) videoUrl videoId with
        | inr f => inr f
        | inl _ =>
            inl (ErrorObj
              "Neither yt-dlp nor youtube-dl is installed. Please install yt-dlp: brew install yt-dlp (Mac) or apt-get install yt-dlp (Linux)")
        end
    end in
  match inner with
  | inr f => inr f
  | inl error =>
      inl (ErrorObj ("Failed to download audio: " ++ errorMessage error)%string)
  end.

(** [transcribeAudio] *)
Definition transcribeAudio (env : Env) (audioPath : text) : result text :=
  match getOpenAIClient env with
  | inl e => inl e
  | inr _ =>
      match whisper env audioPath with
      | inr t => inr t
      | inl error =>
          let errorMessage := errorMessage error in
          if includes "403" errorMessage
             || includes "does not have access" errorMessage
          then inl (ErrorObj
                 ("Your OpenAI project does not have access to the Whisper API. Please check your OpenAI account settings and ensure Whisper API access is enabled. Error: "
                  ++ errorMessage)%string)
          else inl (ErrorObj
                 ("Failed to transcribe audio: " ++ errorMessage)%string)
      end
  end.

Inductive reply :=
| Ok200 (videoId title transcript : text) (fileId : option string)
| Status400 (error : string)
| ToolNotFound
| WhisperDenied (details : string)
| Status500 (error : string).

(** The [catch] of the route. *)
Definition failure (error : thrown) : reply :=
  let errorMessage := errorMessage error in
  if includes "yt-dlp" errorMessage || includes "youtube-dl" errorMessage
  then ToolNotFound
  else if includes "does not have access" errorMessage
          || includes "Whisper" errorMessage
          || includes "403" errorMessage
  then WhisperDenied errorMessage
  else Status500 errorMessage.

Definition text_of_nat (n : nat) : text := of_string (decimal n).

(** [POST] of the transcription route, given the parsed body. *)
Definition POST (env : Env) (url : option text) (autoUpload : bool) : reply :=
  match url with
  | None | Some [] => Status400 "YouTube URL is required"
  | Some url =>
      match VideoId.extractVideoId url with
      | None => Status400 "Invalid YouTube URL"
      | Some videoId =>
          let title := getVideoInfo env videoId in
          let uniqueId := videoId ++ [95%N] ++ text_of_nat (now env) in
          match downloadAudio env url uniqueId with
          | inl e => failure e
          | inr tempAudioPath =>
              match transcribeAudio env tempAudioPath with
              | inl e => failure e
              | inr transcript =>
                  if autoUpload && negb (bool_decide (transcript = []))
                  then
                    match Drive.uploadFileToGoogleDrive (drive env)
                            (driveClientCached env)
                            (VideoId.transcript_name title videoId)
                            (Drive.Text transcript) "text/plain" None with
                    | inl e => failure e
                    | inr uploadResult =>
                        Ok200 videoId title transcript
                              (Some (Drive.fileId uploadResult))
                    end
                  else Ok200 videoId title transcript None
              end
          end
      end
  end.

End Transcribe.

(** ** The pattern detector of the analysis route *)

Module Detector.
Import Js Exn.

(** [\w], [\d] *)
Definition is_word (c : N) : bool :=
  ((48 <=? c) && (c <=? 57) || (65 <=? c) && (c <=? 90)
   || (97 <=? c) && (c <=? 122) || (c =? 95))%N.

Definition is_digit (c : N) : bool := ((48 <=? c) && (c <=? 57))%N.

(** Case folding of the [i] flag without the [u] flag, as far as it
    concerns patterns written in ASCII: a code unit above 127 is never
    folded onto an ASCII one. *)
Definition fold_case (c : N) : N :=
  if ((97 <=? c) && (c <=? 122))%N then (c - 32)%N else c.

(** The pieces the seven patterns are made of: a literal code unit,
    [\s+] and [\d+].  Every pattern starts and ends with [\b]. *)
Inductive atom :=
| Lit (c : N)
| Spaces
| Digits.

Definition lits (s : string) : list atom := map Lit (of_string s).

(** The atoms matched greedily at the head of [s]: the number of code units
    consumed.  Greedy is enough: [\s+] is always followed by a literal that
    is not a space, and [\d+] by the closing [\b], which no position between
    two digits satisfies. *)
Fixpoint match_atoms (p : list atom) (s : text) : option nat :=
  match p with
  | [] => Some 0
  | Lit c :: p' =>
      match s with
      | x :: s' =>
          if (fold_case x =? fold_case c)%N
          then option_map S (match_atoms p' s')
          else None
      | [] => None
      end
  | Spaces :: p' =>
      let n := run is_space s in
      if 1 <=? n then option_map (Nat.add n) (match_atoms p' (drop n s))
      else None
  | Digits :: p' =>
      let n := run is_digit s in
      if 1 <=? n then option_map (Nat.add n) (match_atoms p' (drop n s))
      else None
  end.

Definition word_at (c : option N) : bool :=
  match c with
  | Some c => is_word c
  | None => false
  end.

(** [\b] between two neighbours, either of which may be missing. *)
Definition boundary (before after : option N) : bool :=
  xorb (word_at before) (word_at after).

(** The whole pattern at the head of [s], [prev] being the code unit
    before it. *)
Definition match_here (p : list atom) (prev : option N) (s : text)
  : option nat :=
  if boundary prev (head s) then
    match match_atoms p s with
    | Some n =>
        if boundary (last (take n s)) (head (drop n s)) then Some n else None
    | None => None
    end
  else None.

(** [sentence.match(pattern)] with the [g] flag: the matches from left to
    right, each search starting where the previous match ended.  [skip]
    counts the code units of the current match still to be stepped over.
    [pattern.test(sentence)] before it succeeds exactly when this list is
    not empty, and [match] starts again from index 0. *)
Fixpoint scan (p : list atom) (prev : option N) (skip : nat) (s : text)
  : list text :=
  match s with
  | [] => []
  | c :: r =>
      match skip with
      | S k => scan p (Some c) k r
      | O =>
          match match_here p prev s with
          | Some (S k) => take (S k) s :: scan p (Some c) k r
          | _ => scan p (Some c) O r
          end
      end
  end.

(** [/\bLearn\s+\(Blackboard\)\b/gi] *)
Definition parenthesised : list atom :=
  lits "Learn" ++ [Spaces] ++ lits "(Blackboard)".

(** [/\bBlackboard\s+Learn\s+9\.\d+\b/gi] *)
Definition versioned : list atom :=
  lits "Blackboard" ++ [Spaces] ++ lits "Learn" ++ [Spaces]
  ++ [Lit 57%N; Lit 46%N; Digits].

Definition outdatedTerms : list (list atom * Analyze.level) :=
  [ (lits "Blackboard Learn", Analyze.high);
    (lits "Bb Learn", Analyze.high);
    (parenthesised, Analyze.high);
    (versioned, Analyze.high);
    (lits "classic" ++ [Spaces] ++ lits "Blackboard", Analyze.medium);
    (lits "Blackboard" ++ [Spaces] ++ lits "Classic", Analyze.medium);
    (lits "old" ++ [Spaces] ++ lits "Blackboard", Analyze.medium) ].

(** [text.match(/[^.!?]+[.!?]+/g)]: [cur] is the match under construction,
    [closing] says whether it has reached its closing marks.  Marks before
    the first other code unit are skipped; what follows the last mark is
    dropped. *)
Fixpoint sentences_go (cur : text) (closing : bool) (s : text) : list text :=
  match s with
  | [] => if closing then [cur] else []
  | c :: r =>
      if is_terminal c then
        match cur with
        | [] => sentences_go [] false r
        | _ => sentences_go (cur ++ [c]) true r
        end
      else if closing then cur :: sentences_go [c] false r
      else sentences_go (cur ++ [c]) false r
  end.

(** [text.match(...) || [text]] *)
Definition sentences (t : text) : list text :=
  match sentences_go [] false t with
  | [] => [t]
  | found => found
  end.

Record issue := {
  term : text;
  context : text;
  severity : Analyze.level;
  location : string
}.

Definition issues_of (index : nat) (sentence : text) : list issue :=
  flat_map
    (fun entry : list atom * Analyze.level =>
       map (fun m =>
              {| term := m;
                 context := substring (trim sentence) 0 200;
                 severity := snd entry;
                 location := ("Sentence " ++ decimal (index + 1))%string |})
           (scan (fst entry) None 0 sentence))
    outdatedTerms.

Definition detectOutdatedTerminology (t : text) : list issue :=
  concat (imap issues_of (sentences t)).

End Detector.

Module DetectorSpec.
Import Js Detector.

(** A text that consists of code units satisfying [p] followed by code
    units that do not. *)
Definition split_at (p : N -> bool) (s : text) : Prop :=
  exists l r, s = l ++ r /\ Forall (fun c => p c = true) l
              /\ Forall (fun c => p c = false) r.

(** [[^.!?]] *)
Definition other (c : N) : bool := negb (is_terminal c).

(** Every closing parenthesis is followed by the end of the text or by a
    code unit outside [\w]. *)
Definition closed_before_space (s : text) : Prop :=
  forall i, s !! i = Some 41%N -> word_at (s !! S i) = false.

End DetectorSpec.

(** ** More concrete inputs *)

Module MoreSamples.
Import Exn.

(** A chat environment whose index returns two ranked matches. *)
Definition two_matches : Chat.Env :=
  {| Chat.getEmbedding := fun _ => inr [1 # 2];
     Chat.queryPinecone := fun _ _ =>
       inr [{| Chat.m_id := "f1-chunk-0"; Chat.score := Some (9 # 10);
               Chat.metadata := None |};
            {| Chat.m_id := "f1-chunk-1"; Chat.score := Some (1 # 2);
               Chat.metadata := None |}];
     Chat.chatCompletion := fun _ _ => inr "answer";
     Chat.stripMarkdown := fun s => s |}.

(** A stored chunk of file [f] at position [k], as the ingestion paths
    write it. *)
Definition stored (f : string) (k : nat) : Preview.Match :=
  {| Preview.m_id := String.append f (String.append "-chunk-" (decimal k));
     Preview.score := Some (1 # 2);
     Preview.metadata := Some
       {| Preview.fileId := Some f; Preview.file_id := None;
          Preview.chunkIndex := Some k; Preview.chunk_index := None;
          Preview.text := Some "text"; Preview.content := None;
          Preview.title := Some "notes.txt" |} |}.

(** An index that answers every query with chunks 1 and 0 of [f1] and one
    chunk of another file, in this order. *)
Definition small_index : string -> result (list Preview.Match) :=
  fun _ => inr [stored "f1" 1; stored "f2" 0; stored "f1" 0].

(** An issue object with no field set. *)
Definition silent_issue : Analyze.Issue :=
  {| Analyze.type := Undefined; Analyze.description := Undefined;
     Analyze.currentText := Undefined; Analyze.outdatedText := Undefined;
     Analyze.suggestedReplacement := None; Analyze.reasoning := None;
     Analyze.location := Undefined; Analyze.severity := None;
     Analyze.priority := None |}.

(** The Drive client of a deployment whose refresh token was revoked. *)
Definition revoked_token : Drive.Env :=
  {| Drive.GOOGLE_CLIENT_ID := Some "id";
     Drive.GOOGLE_CLIENT_SECRET := Some "secret";
     Drive.GOOGLE_DRIVE_FOLDER_ID := Some "folder";
     Drive.refreshAccessToken := Some (ErrorObj "invalid_grant");
     Drive.filesCreate := fun _ _ _ _ => inr (Some "new", None) |}.

(** A Drive client that authenticates but has no folder configured. *)
Definition no_folder : Drive.Env :=
  {| Drive.GOOGLE_CLIENT_ID := Some "id";
     Drive.GOOGLE_CLIENT_SECRET := Some "secret";
     Drive.GOOGLE_DRIVE_FOLDER_ID := None;
     Drive.refreshAccessToken := None;
     Drive.filesCreate := fun _ _ _ _ => inr (Some "new", None) |}.

(** A Drive client whose uploads are refused for lack of permission. *)
Definition read_only_drive : Drive.Env :=
  {| Drive.GOOGLE_CLIENT_ID := Some "id";
     Drive.GOOGLE_CLIENT_SECRET := Some "secret";
     Drive.GOOGLE_DRIVE_FOLDER_ID := Some "folder";
     Drive.refreshAccessToken := None;
     Drive.filesCreate := fun _ _ _ _ =>
       inl (ErrorObj "Request failed with status code 403") |}.

Definition a_file : Upload.File :=
  {| Upload.name := Js.of_string "notes.txt"; Upload.type := EmptyString;
     Upload.bytes := [104; 105]%N |}.

(** A transcription environment in which the video cannot be downloaded:
    yt-dlp runs and reports a private video, youtube-dl is not installed. *)
Definition private_video : Transcribe.Env :=
  {| Transcribe.oembed := fun _ => inl NonError;
     Transcribe.now := 1700;
     Transcribe.ytDlp := fun _ _ => inl (ErrorObj "ERROR: Private video");
     Transcribe.youtubeDl := fun _ _ => inl (ErrorObj "youtube-dl: not found");
     Transcribe.getOpenAIClient := inr tt;
     Transcribe.whisper := fun _ => inr (Js.of_string "hello");
     Transcribe.drive := no_folder;
     Transcribe.driveClientCached := false |}.

(** A transcription environment in which download and transcription work
    and the Drive upload is refused. *)
Definition transcribed_not_stored : Transcribe.Env :=
  {| Transcribe.oembed := fun _ => inr (Some (Js.of_string "A talk"));
     Transcribe.now := 5;
     Transcribe.ytDlp := fun template _ =>
       inr [Js.of_string "other.mp3"; Js.of_string "abc_5.mp3"];
     Transcribe.youtubeDl := fun _ _ => inl NonError;
     Transcribe.getOpenAIClient := inr tt;
     Transcribe.whisper := fun _ => inr (Js.of_string "hello");
     Transcribe.drive := read_only_drive;
     Transcribe.driveClientCached := false |}.

(** A site whose pages hold one outdated term and whose model call
    times out. *)
Definition a_page : Analyze.Page :=
  {| Analyze.html := "<p>We use Blackboard Learn.</p>";
     Analyze.p_text := "We use Blackboard Learn." |}.

Definition model_down : Analyze.Env :=
  {| Analyze.fetchPageContent := fun _ => Some a_page;
     Analyze.detectOutdatedTerminology := fun _ =>
       [{| Analyze.term := "Blackboard Learn";
           Analyze.context := "We use Blackboard Learn.";
           Analyze.o_severity := Analyze.high;
           Analyze.o_location := Some "Sentence 1" |}];
     Analyze.knowledgeBase := fun _ => inr "context";
     Analyze.modelAnalysis := fun _ _ _ => inl (ErrorObj "timeout") |}.

End MoreSamples.

(** * Properties *)

(** ** JavaScript strings *)

Module JsFacts.
Import Js.

Lemma trimStart_solid s : head_solid (trimStart s).
Proof.
  induction s as [|c r IH]; simpl; [exact I|].
  destruct (is_space c) eqn:E; [exact IH | exact E].
Qed.

Lemma trimStart_fixed s : head_solid s -> trimStart s = s.
Proof. destruct s as [|c r]; simpl; [reflexivity|]. intros ->. reflexivity. Qed.

(** [trimStart] removes a prefix. *)
Lemma trimStart_suffix s : exists sp, s = sp ++ trimStart s.
Proof.
  induction s as [|c r [sp IH]]; simpl.
  - exists []. reflexivity.
  - destruct (is_space c).
    + exists (c :: sp). simpl. f_equal. exact IH.
    + exists []. reflexivity.
Qed.

(** [trimEnd] removes a suffix. *)
Lemma trimEnd_prefix s : exists sp, s = trimEnd s ++ sp.
Proof.
  unfold trimEnd. destruct (trimStart_suffix (rev s)) as [sp E].
  exists (rev sp). rewrite <- rev_app_distr, <- E, rev_involutive. reflexivity.
Qed.

Lemma trimEnd_solid_rev s : head_solid (rev (trimEnd s)).
Proof. unfold trimEnd. rewrite rev_involutive. apply trimStart_solid. Qed.

Lemma trimEnd_fixed s : head_solid (rev s) -> trimEnd s = s.
Proof.
  intros H. unfold trimEnd. rewrite (trimStart_fixed _ H). apply rev_involutive.
Qed.

Lemma trimEnd_keeps_head s : head_solid s -> head_solid (trimEnd s).
Proof.
  intros H. destruct (trimEnd_prefix s) as [sp E].
  destruct (trimEnd s) as [|c r]; [exact I|].
  rewrite E in H. exact H.
Qed.

Lemma trim_idempotent s : trim (trim s) = trim s.
Proof.
  unfold trim at 1.
  rewrite (trimStart_fixed (trim s)).
  - apply trimEnd_fixed. apply trimEnd_solid_rev.
  - apply trimEnd_keeps_head, trimStart_solid.
Qed.

Lemma trimStart_length s : length (trimStart s) <= length s.
Proof.
  destruct (trimStart_suffix s) as [sp E]. rewrite E at 2.
  rewrite length_app. lia.
Qed.

Lemma trimEnd_length s : length (trimEnd s) <= length s.
Proof.
  destruct (trimEnd_prefix s) as [sp E]. rewrite E at 2.
  rewrite length_app. lia.
Qed.

Lemma trim_length s : length (trim s) <= length s.
Proof.
  unfold trim. etransitivity; [apply trimEnd_length | apply trimStart_length].
Qed.

Lemma slice_length s i j : length (slice s i j) <= j - i.
Proof. unfold slice. rewrite length_take, length_drop. lia. Qed.

(** On ordered bounds [substring] is [slice]. *)
Lemma substring_slice s i j : i <= j -> substring s i j = slice s i j.
Proof.
  intros H. unfold substring, slice.
  replace (Nat.max (Nat.min i (length s)) (Nat.min j (length s)))
    with (Nat.min j (length s)) by lia.
  replace (Nat.min (Nat.min i (length s)) (Nat.min j (length s)))
    with (Nat.min i (length s)) by lia.
  f_equal. lia.
Qed.

End JsFacts.

(** ** The chunker *)

Module ChunkerFacts.
Import Js Chunker JsFacts.

#[local] Opaque MAX_CHUNK_SIZE OVERLAP MIN_LENGTH.

Lemma STEP_positive : 0 < STEP.
Proof. vm_compute. lia. Qed.

Lemma STEP_eq : MAX_CHUNK_SIZE - OVERLAP = STEP.
Proof. reflexivity. Qed.

(** Offset [k * STEP] is inside a text of length [n] exactly for the first
    [window_count n] values of [k]. *)
Lemma offset_inside n k : k * STEP < n <-> k < window_count n.
Proof.
  unfold window_count. pose proof STEP_positive as Hs.
  split; intros H.
  - apply Nat.div_le_lower_bound; [lia|]. nia.
  - destruct (Nat.lt_ge_cases (k * STEP) n) as [|Hge]; [assumption|].
    exfalso. apply (Nat.lt_irrefl k).
    eapply Nat.lt_le_trans; [exact H|].
    apply Nat.lt_succ_r. apply Nat.Div0.div_lt_upper_bound. nia.
Qed.

Lemma window_count_le n : window_count n <= n.
Proof.
  destruct (Nat.le_gt_cases (window_count n) n) as [|H]; [assumption|].
  apply offset_inside in H. pose proof STEP_positive. nia.
Qed.

(** With enough fuel the loop pushes exactly the windows that are long
    enough, in offset order. *)
Lemma window_loop_spec sub s fuel k chunks :
  window_count (length s) - k <= fuel ->
  window_loop sub fuel s (k * STEP) chunks =
  chunks ++ List.filter long_enough
              (map (window_at sub s) (seq k (window_count (length s) - k))).
Proof.
  revert k chunks. induction fuel as [|fuel IH]; intros k chunks Hfuel.
  - replace (window_count (length s) - k) with 0 by lia.
    simpl. rewrite app_nil_r. reflexivity.
  - simpl. destruct (k * STEP <? length s) eqn:E.
    + apply Nat.ltb_lt, offset_inside in E.
      replace (window_count (length s) - k)
        with (S (window_count (length s) - S k)) by lia.
      rewrite STEP_eq.
      replace (k * STEP + STEP) with (S k * STEP) by lia.
      rewrite IH by lia.
      cbn [seq map List.filter]. unfold window_at at 2, long_enough at 2.
      destruct (MIN_LENGTH <? _); [rewrite <- app_assoc|]; reflexivity.
    + apply Nat.ltb_ge in E.
      assert (~ k < window_count (length s)) as Hk
        by (rewrite <- offset_inside; lia).
      replace (window_count (length s) - k) with 0 by lia.
      simpl. rewrite app_nil_r. reflexivity.
Qed.

Lemma windows_spec sub s chunks :
  windows sub s chunks =
  chunks ++ List.filter long_enough
              (map (window_at sub s) (seq 0 (window_count (length s)))).
Proof.
  unfold windows. pose proof (window_count_le (length s)).
  pose proof (window_loop_spec sub s (length s) 0 chunks) as E.
  rewrite Nat.sub_0_r in E. apply E. lia.
Qed.

(** More fuel changes nothing: the loop has run to its exit. *)
Lemma window_loop_fuel sub s chunks fuel :
  length s <= fuel ->
  window_loop sub fuel s 0 chunks = windows sub s chunks.
Proof.
  intros H. rewrite windows_spec. pose proof (window_count_le (length s)).
  pose proof (window_loop_spec sub s fuel 0 chunks) as E.
  rewrite Nat.sub_0_r in E. apply E. lia.
Qed.

Lemma window_at_substring s k : window_at substring s k = window_at slice s k.
Proof. unfold window_at. rewrite substring_slice by lia. reflexivity. Qed.

Lemma windows_slice s chunks : windows slice s chunks = chunks ++ windows_of s.
Proof. rewrite windows_spec. reflexivity. Qed.

Lemma windows_substring s chunks :
  windows substring s chunks = chunks ++ windows_of s.
Proof.
  rewrite windows_spec. unfold windows_of. do 2 f_equal.
  apply map_ext. intros k. apply window_at_substring.
Qed.

Lemma split_large_spec fragments chunks :
  split_large fragments chunks = chunks ++ flat_map fragment_chunks fragments.
Proof.
  unfold split_large. revert chunks.
  induction fragments as [|f r IH]; intros chunks; simpl.
  - rewrite app_nil_r. reflexivity.
  - rewrite IH. unfold fragment_chunks at 2.
    destruct (length f <=? MAX_CHUNK_SIZE).
    + rewrite <- app_assoc. reflexivity.
    + rewrite windows_slice, <- app_assoc. reflexivity.
Qed.

(** The tier the code takes, read off its two emptiness tests. *)
Lemma chunk_with_tier sub t :
  (sub = slice \/ sub = substring) ->
  chunk_with sub t = tier_chunks t (selected_tier t).
Proof.
  intros Hsub. unfold chunk_with, selected_tier, tier_chunks.
  rewrite !split_large_spec.
  assert (windows sub t [] = windows_of t) as ->.
  { destruct Hsub as [-> | ->];
      [apply windows_slice | apply windows_substring]. }
  destruct (paragraphChunks t) as [|p ps];
    destruct (sentenceChunks t) as [|q qs]; reflexivity.
Qed.

Lemma selected_tier_cases t :
  (selected_tier t = Paragraph <-> paragraphChunks t <> []) /\
  (selected_tier t = Sentence <->
     paragraphChunks t = [] /\ sentenceChunks t <> []) /\
  (selected_tier t = FixedSize <->
     paragraphChunks t = [] /\ sentenceChunks t = []).
Proof.
  unfold selected_tier.
  destruct (paragraphChunks t) as [|p ps];
    destruct (sentenceChunks t) as [|q qs];
    repeat split; intros; try discriminate; try tauto;
    try (destruct H; congruence).
Qed.

Lemma chunks_by_tier t :
  chunks_script t = tier_chunks t (selected_tier t) /\
  chunks_route t = tier_chunks t (selected_tier t).
Proof.
  split; apply chunk_with_tier; [left | right]; reflexivity.
Qed.

(** C3. The chunker applies its three tiers in order: the paragraph tier
    is taken exactly when the paragraph split has a fragment above the
    minimum length, the sentence tier exactly when it has none and the
    sentence split has one, the fixed-size tier exactly when both have
    none; on both ingestion paths the emitted chunks are those of the
    selected tier alone. *)
Theorem C3_tier_fallback (t : text) :
  chunks_script t = tier_chunks t (selected_tier t) /\
  chunks_route t = tier_chunks t (selected_tier t) /\
  (selected_tier t = Paragraph <-> paragraphChunks t <> []) /\
  (selected_tier t = Sentence <->
     paragraphChunks t = [] /\ sentenceChunks t <> []) /\
  (selected_tier t = FixedSize <->
     paragraphChunks t = [] /\ sentenceChunks t = []).
Proof.
  destruct (chunks_by_tier t) as [Hs Hr].
  split; [exact Hs|]. split; [exact Hr|].
  apply selected_tier_cases.
Qed.

Lemma window_at_well_sized s k :
  long_enough (window_at slice s k) = true -> well_sized (window_at slice s k).
Proof.
  unfold long_enough, window_at, well_sized. intros H.
  apply Nat.ltb_lt in H. split.
  - etransitivity; [apply trim_length|].
    etransitivity; [apply slice_length|]. lia.
  - rewrite trim_idempotent. exact H.
Qed.

Lemma windows_of_well_sized s : Forall well_sized (windows_of s).
Proof.
  apply List.Forall_forall. intros c Hc. unfold windows_of in Hc.
  apply filter_In in Hc as [Hin Hlong].
  apply in_map_iff in Hin as [k [<- _]].
  apply window_at_well_sized, Hlong.
Qed.

Lemma fragment_chunks_well_sized f :
  viable f = true -> Forall well_sized (fragment_chunks f).
Proof.
  intros Hv. unfold fragment_chunks.
  destruct (length f <=? MAX_CHUNK_SIZE) eqn:E.
  - constructor; [|constructor]. split.
    + apply Nat.leb_le, E.
    + apply Nat.ltb_lt, Hv.
  - apply windows_of_well_sized.
Qed.

Lemma fragments_well_sized (frags : list text) :
  Forall well_sized (flat_map fragment_chunks (List.filter viable frags)).
Proof.
  apply List.Forall_forall. intros c Hc.
  apply in_flat_map in Hc as [f [Hf Hc]].
  apply filter_In in Hf as [_ Hv].
  pose proof (fragment_chunks_well_sized f Hv) as HF.
  rewrite List.Forall_forall in HF. apply HF, Hc.
Qed.

Lemma tier_chunks_well_sized t r : Forall well_sized (tier_chunks t r).
Proof.
  destruct r; simpl.
  - apply fragments_well_sized.
  - apply fragments_well_sized.
  - apply windows_of_well_sized.
Qed.

(** C4. Every chunk the chunker emits, on either ingestion path, has at
    most [MAX_CHUNK_SIZE] = 2000 code units and more than [MIN_LENGTH] = 20
    code units once trimmed. *)
Theorem C4_chunk_bounds (t : text) :
  Forall well_sized (chunks_script t) /\ Forall well_sized (chunks_route t).
Proof.
  destruct (chunks_by_tier t) as [-> ->].
  split; apply tier_chunks_well_sized.
Qed.

(** The paragraph tier can be selected and still emit nothing: one
    paragraph of 2001 code units whose only solid characters are its first
    and its last. *)
Example paragraph_tier_may_emit_nothing :
  let t := [97%N] ++ repeat 32%N 1999 ++ [98%N] in
  selected_tier t = Paragraph /\ chunks_script t = [] /\ chunks_route t = [].
Proof. vm_compute. repeat split. Qed.

Example scenario_A :
  let t := repeat 97%N 50 ++ [10%N; 10%N] ++ repeat 98%N 3000 in
  map length (chunks_route t) = [50; 2000; 1200].
Proof. vm_compute. reflexivity. Qed.

End ChunkerFacts.

(** ** Ingestion *)

Module IngestFacts.
Import Js Exn Ingest IngestSpec.

(** A batch of upserts is the union of what it writes with what was
    there. *)
Lemma foldl_ins_union (vs : list Vector) :
  exists W : store, forall m : store,
    foldl (fun m v => <[vid v := v]> m) m vs = W ∪ m.
Proof.
  induction vs as [|v vs [W IH]].
  - exists ∅. intros m. simpl. rewrite (left_id_L ∅ (∪)). reflexivity.
  - exists (W ∪ {[vid v := v]}). intros m. simpl.
    rewrite IH, insert_union_singleton_l, (assoc_L (∪)). reflexivity.
Qed.

Lemma absorbing_replay f m : absorbing f -> f (f m) = f m.
Proof.
  intros [W Hf]. rewrite !Hf, (assoc_L (∪)), (idemp_L (∪)). reflexivity.
Qed.

Lemma union_empty_store (m : store) : (∅ : store) ∪ m = m.
Proof. apply (left_id_L ∅ (∪)). Qed.

(** *** The script's chunk loop *)

Lemma chunk_step_spec env file j c n0 (ix : store) :
  Script.chunk_step env file j c (n0, ix) =
  if chunk_ok env file j c
  then match getEmbedding env c with
       | inr emb => (S n0, <[Script.vector_id file j :=
                               Script.vector_of file j c emb]> ix)
       | inl _ => (n0, ix)
       end
  else (n0, ix).
Proof.
  unfold Script.chunk_step, chunk_ok, upsertToPinecone.
  destruct (getEmbedding env c) as [e|emb]; [reflexivity|].
  destruct (upsertRejects env _); reflexivity.
Qed.

(** The loop counts the chunks whose embedding and upsert succeed, whatever
    happens to the others, and the vector of each such chunk is in the
    index afterwards. *)
Lemma chunk_loop_spec env file chunks :
  forall j, exists W : store,
    (forall k c, chunks !! k = Some c -> chunk_ok env file (j + k) c = true ->
                 is_Some (W !! Script.vector_id file (j + k))) /\
    forall n0 (ix : store),
      Script.chunk_loop env file j chunks (n0, ix) =
      (n0 + count_ok env file j chunks, W ∪ ix).
Proof.
  induction chunks as [|c rest IH]; intros j.
  - exists ∅. split.
    + intros k c Hk. rewrite lookup_nil in Hk. discriminate.
    + intros n0 ix. simpl. rewrite union_empty_store. f_equal. lia.
  - destruct (IH (S j)) as [W [Hin Hrun]].
    destruct (chunk_ok env file j c) eqn:Eok.
    + assert (exists emb, getEmbedding env c = inr emb) as [emb Eemb].
      { unfold chunk_ok in Eok. destruct (getEmbedding env c); [discriminate|].
        eexists. reflexivity. }
      exists (W ∪ {[Script.vector_id file j := Script.vector_of file j c emb]}).
      split.
      * intros [|k] c' Hk Hok.
        -- rewrite Nat.add_0_r. apply lookup_union_is_Some. right.
           rewrite lookup_singleton_eq. eexists. reflexivity.
        -- apply lookup_union_is_Some. left.
           replace (j + S k) with (S j + k) in * by lia.
           apply (Hin k c'); assumption.
      * intros n0 ix. cbn [Script.chunk_loop count_ok].
        rewrite chunk_step_spec, Eok, Eemb, Hrun.
        rewrite insert_union_singleton_l, (assoc_L (∪)). f_equal. lia.
    + exists W. split.
      * intros [|k] c' Hk Hok.
        -- rewrite Nat.add_0_r in Hok. simpl in Hk. injection Hk as <-.
           congruence.
        -- replace (j + S k) with (S j + k) in * by lia.
           apply (Hin k c'); assumption.
      * intros n0 ix. cbn [Script.chunk_loop count_ok].
        rewrite chunk_step_spec, Eok, Hrun. f_equal.
Qed.


(** *** One file of the script *)

Lemma thrown_by_content env i m t :
  getFileContent env i m = inl t -> thrown_by env t.
Proof. intros H. left. eauto. Qed.

Lemma thrown_by_extract env b m t :
  extractTextFromDocument env b m = inl t -> thrown_by env t.
Proof. intros H. right. left. eauto. Qed.

Lemma thrown_by_embedding env c t :
  getEmbedding env c = inl t -> thrown_by env t.
Proof. intros H. right. right. left. eauto. Qed.

Lemma thrown_by_upsert env vs t :
  upsertRejects env vs = Some t -> thrown_by env t.
Proof. intros H. right. right. right. eauto. Qed.

Lemma script_file_step env f :
  exists e W, script_entry env f e /\ script_step_effect env f e W.
Proof.
  assert (forall m,
    (In m script_messages \/
     exists t, thrown_by env t /\ m = String.substring 0 100 (errorMessage t)) ->
    (forall chunks, ~ script_chunks env f chunks) ->
    script_entry env f {| e_name := or_default (name f) "Unknown";
                          chunks := 0; error := Some m |}) as Hfail.
  { intros m Hm Hno. split; [reflexivity|]. split; [|split].
    - right. split; [reflexivity|].
      exists m. split; [reflexivity | exact Hm].
    - intros chunks Hc. destruct (Hno chunks Hc).
    - intros _. split; [reflexivity|]. exists m. reflexivity. }
  assert (forall st, (∅ : store) ∪ Script.index st = Script.index st) as Hnone
    by (intros; apply union_empty_store).
  unfold script_step_effect, Script.file_step.
  destruct (getFileContent env (id f) (mimeType f)) as [t|buffer] eqn:Ec.
  { eexists _, ∅. split.
    - apply Hfail.
      + right. exists t.
        split; [eapply thrown_by_content, Ec | reflexivity].
      + intros chunks (b' & t' & Hc' & _). congruence.
    - intros st. simpl. rewrite Hnone. repeat split. lia. }
  destruct (length buffer =? 0) eqn:Eb.
  { eexists _, ∅. split.
    - apply Hfail.
      + left. simpl. left. reflexivity.
      + intros chunks (b' & t' & Hc' & Hb' & _).
        apply Nat.eqb_eq in Eb. congruence.
    - intros st. simpl. rewrite Hnone. repeat split. lia. }
  destruct (extractTextFromDocument env buffer _) as [t|txt] eqn:Ee.
  { eexists _, ∅. split.
    - apply Hfail.
      + right. exists t.
        split; [eapply thrown_by_extract, Ee | reflexivity].
      + intros chunks (b' & t' & Hc' & _ & He' & _). congruence.
    - intros st. simpl. rewrite Hnone. repeat split. lia. }
  destruct (no_text txt) eqn:Et.
  { eexists _, ∅. split.
    - apply Hfail.
      + left. simpl. right. left. reflexivity.
      + intros chunks (b' & t' & Hc' & _ & He' & Ht' & _). congruence.
    - intros st. simpl. rewrite Hnone. repeat split. lia. }
  destruct (length (Chunker.chunks_script txt) =? 0) eqn:Elen.
  { eexists _, ∅. split.
    - apply Hfail.
      + left. simpl. right. right. left. reflexivity.
      + intros chunks (b' & t' & Hc' & _ & He' & _ & -> & Hne').
        apply Hne'. apply Nat.eqb_eq in Elen.
        assert (t' = txt) as -> by congruence.
        destruct (Chunker.chunks_script txt); [reflexivity|discriminate].
    - intros st. simpl. rewrite Hnone. repeat split. lia. }
  destruct (chunk_loop_spec env f (Chunker.chunks_script txt) 0) as [W [_ Hrun]].
  exists {| e_name := or_default (name f) "Unknown";
            chunks := count_ok env f 0 (Chunker.chunks_script txt);
            error := None |}, W.
  assert (script_chunks env f (Chunker.chunks_script txt)) as Hchunks.
  { exists buffer, txt. split; [exact Ec|].
    split; [apply Nat.eqb_neq, Eb|]. split; [exact Ee|].
    split; [exact Et|]. split; [reflexivity|].
    intros Hnil. rewrite Hnil in Elen. discriminate. }
  split.
  - split; [reflexivity|]. split; [|split].
    + left. split; [reflexivity|].
      exists (Chunker.chunks_script txt). split; [exact Hchunks|reflexivity].
    + intros chunks (b' & t' & Hc' & _ & He' & _ & -> & _).
      assert (t' = txt) as -> by congruence. split; reflexivity.
    + intros Hno. destruct (Hno _ Hchunks).
  - intros st. rewrite Hrun. simpl. repeat split.
Qed.

(** The count is 0 exactly when every chunk failed. *)
Lemma count_ok_zero env file chunks :
  forall j,
    count_ok env file j chunks = 0 <->
    forall k c, chunks !! k = Some c -> chunk_ok env file (j + k) c = false.
Proof.
  induction chunks as [|c rest IH]; intros j; cbn [count_ok].
  - split; [|reflexivity]. intros _ k c Hk. rewrite lookup_nil in Hk.
    discriminate.
  - split.
    + intros H [|k] c' Hk.
      * rewrite Nat.add_0_r. injection Hk as <-.
        destruct (chunk_ok env file j c); [discriminate|reflexivity].
      * replace (j + S k) with (S j + k) by lia.
        apply (proj1 (IH (S j))); [|exact Hk].
        destruct (chunk_ok env file j c); [discriminate|exact H].
    + intros H.
      assert (chunk_ok env file j c = false) as ->
        by (rewrite <- (Nat.add_0_r j); apply (H 0 c); reflexivity).
      apply (proj2 (IH (S j))). intros k c' Hk.
      replace (S j + k) with (j + S k) by lia. apply (H (S k) c' Hk).
Qed.

(** The whole loop of the script. *)
Lemma script_loop env files :
  exists es W,
    Forall2 (script_entry env) files es /\
    forall st,
      Script.processedFiles (foldl (Script.file_step env) st files) =
        Script.processedFiles st ++ es /\
      Script.totalChunks (foldl (Script.file_step env) st files) =
        Script.totalChunks st + total es /\
      Script.index (foldl (Script.file_step env) st files) =
        W ∪ Script.index st.
Proof.
  induction files as [|f files [es [W [HF Hrun]]]].
  - exists [], ∅. split; [constructor|]. intros st. simpl.
    rewrite app_nil_r, union_empty_store. repeat split. unfold total. simpl. lia.
  - destruct (script_file_step env f) as [e [V [He Hstep]]].
    exists (e :: es), (W ∪ V). split; [constructor; assumption|].
    intros st. simpl.
    destruct (Hrun (Script.file_step env st f)) as [-> [-> ->]].
    destruct (Hstep st) as [-> [-> ->]].
    rewrite <- app_assoc, (assoc_L (∪)). repeat split.
    unfold total. simpl. lia.
Qed.

(** *** The route *)

Lemma embed_loop_spec env f chunks :
  forall j vs,
    match Route.embed_loop env f j chunks vs with
    | inl t => thrown_by env t
    | inr vs' => length vs' = length vs + length chunks
    end.
Proof.
  induction chunks as [|c rest IH]; intros j vs; simpl.
  - lia.
  - destruct (getEmbedding env c) as [t|emb] eqn:E.
    + eapply thrown_by_embedding, E.
    + specialize (IH (S j) (vs ++ [Route.vector_of f j c emb])).
      destruct (Route.embed_loop env f (S j) rest _); [exact IH|].
      rewrite IH, length_app. simpl. lia.
Qed.

Lemma route_file_skipped env f st :
  eligible f = false -> Route.file_step env st f = st.
Proof.
  unfold eligible, Route.file_step. intros H.
  apply negb_false_iff in H. rewrite H. reflexivity.
Qed.

Lemma embed_loop_vectors env f chunks :
  forall j vs vs',
    Route.embed_loop env f j chunks vs = inr vs' ->
    exists new,
      vs' = vs ++ new /\ length new = length chunks /\
      forall k c, chunks !! k = Some c ->
        exists emb, getEmbedding env c = inr emb /\
                    new !! k = Some (Route.vector_of f (j + k) c emb).
Proof.
  induction chunks as [|c0 rest IH]; intros j vs vs' H.
  - simpl in H. injection H as <-. exists []. rewrite app_nil_r.
    split; [reflexivity|]. split; [reflexivity|].
    intros k c Hk. rewrite lookup_nil in Hk. discriminate.
  - cbn [Route.embed_loop] in H.
    destruct (getEmbedding env c0) as [t|emb0] eqn:E0; [discriminate|].
    destruct (IH _ _ _ H) as [new [-> [Hlen Hnew]]].
    exists (Route.vector_of f j c0 emb0 :: new).
    split; [rewrite <- app_assoc; reflexivity|].
    split; [simpl; lia|].
    intros [|k] c Hk.
    + simpl in Hk. injection Hk as <-. exists emb0.
      rewrite Nat.add_0_r. split; [exact E0 | reflexivity].
    + replace (j + S k) with (S j + k) by lia. apply (Hnew k c Hk).
Qed.

(** The embedding loop builds the batch that [whole_batch] describes. *)
Lemma embed_loop_whole env f chunks :
  forall j vs vectors,
    length vectors = length chunks ->
    (forall k c, chunks !! k = Some c ->
       exists emb, getEmbedding env c = inr emb /\
                   vectors !! k = Some (Route.vector_of f (j + k) c emb)) ->
    Route.embed_loop env f j chunks vs = inr (vs ++ vectors).
Proof.
  induction chunks as [|c0 rest IH]; intros j vs vectors Hlen Hall.
  - destruct vectors; [|discriminate]. rewrite app_nil_r. reflexivity.
  - destruct vectors as [|v0 vectors]; [discriminate|].
    cbn [Route.embed_loop].
    destruct (Hall 0 c0 eq_refl) as [emb0 [E0 Hv0]]. rewrite E0.
    rewrite Nat.add_0_r in Hv0. injection Hv0 as ->.
    rewrite (IH (S j) _ vectors).
    + rewrite <- app_assoc. reflexivity.
    + simpl in Hlen. lia.
    + intros k c Hk. destruct (Hall (S k) c Hk) as [emb [E Hv]].
      exists emb. split; [exact E|].
      replace (S j + k) with (j + S k) by lia. exact Hv.
Qed.

(** A batch is what the embedding loop returns for the chunks of the
    file's text. *)
Lemma whole_batch_inv env f vectors :
  whole_batch env f vectors ->
  exists buffer txt,
    getFileContent env (id f) (Some (or_default (mimeType f) "text/plain")) =
      inr buffer /\
    (length buffer =? 0) = false /\
    extractTextFromDocument env buffer (or_default (mimeType f) "text/plain") =
      inr txt /\
    no_text txt = false /\
    (length (Chunker.chunks_route txt) =? 0) = false /\
    Route.embed_loop env f 0 (Chunker.chunks_route txt) [] = inr vectors.
Proof.
  intros (_ & buffer & txt & Hc & Hb & He & Ht & Hne & Hlen & Hall).
  exists buffer, txt. split; [exact Hc|].
  split; [apply Nat.eqb_neq, Hb|]. split; [exact He|]. split; [exact Ht|].
  split.
  - apply Nat.eqb_neq. destruct (Chunker.chunks_route txt);
      [contradiction|discriminate].
  - exact (embed_loop_whole env f _ 0 [] vectors Hlen Hall).
Qed.

Lemma route_file_step env f :
  eligible f = true ->
  exists e W D, route_entry env f e /\ route_step_effect env f e W D.
Proof.
  intros Hel.
  assert (forall m,
    (In m route_messages \/ exists t, thrown_by env t /\ m = errorMessage t) ->
    (forall vectors,
       whole_batch env f vectors -> upsertRejects env vectors <> None) ->
    route_entry env f {| e_name := interpolate (name f);
                         chunks := 0; error := Some m |}) as Hfail.
  { intros m Hm Hno. split; [reflexivity|]. split; [|split].
    - right. split; [reflexivity|].
      exists m. split; [reflexivity | exact Hm].
    - intros vectors Hw Hu. destruct (Hno vectors Hw Hu).
    - intros _. split; [reflexivity|]. exists m. reflexivity. }
  assert (forall st, (∅ : store) ∪ Route.index st = Route.index st) as Hnone
    by (intros; apply union_empty_store).
  unfold route_step_effect, Route.file_step.
  pose proof Hel as Hel'.
  unfold eligible in Hel. apply negb_true_iff in Hel. rewrite Hel.
  destruct (getFileContent env (id f) _) as [t|buffer] eqn:Ec.
  { eexists _, ∅, _. split.
    - apply Hfail.
      + right. exists t.
        split; [eapply thrown_by_content, Ec | reflexivity].
      + intros vectors Hw.
        destruct (whole_batch_inv _ _ _ Hw) as (b' & t' & Hc' & _).
        congruence.
    - intros st. simpl. rewrite Hnone. repeat split. lia. }
  destruct (length buffer =? 0) eqn:Eb.
  { eexists _, ∅, []. split.
    - apply Hfail.
      + left. simpl. left. reflexivity.
      + intros vectors Hw.
        destruct (whole_batch_inv _ _ _ Hw) as (b' & t' & Hc' & Hb' & _).
        congruence.
    - intros st. simpl. rewrite Hnone, app_nil_r. repeat split. lia. }
  destruct (extractTextFromDocument env buffer _) as [t|txt] eqn:Ee.
  { eexists _, ∅, _. split.
    - apply Hfail.
      + right. exists t.
        split; [eapply thrown_by_extract, Ee | reflexivity].
      + intros vectors Hw.
        destruct (whole_batch_inv _ _ _ Hw) as (b' & t' & Hc' & _ & He' & _).
        congruence.
    - intros st. simpl. rewrite Hnone. repeat split. lia. }
  destruct (no_text txt) eqn:Et.
  { eexists _, ∅, []. split.
    - apply Hfail.
      + left. simpl. right. left. reflexivity.
      + intros vectors Hw.
        destruct (whole_batch_inv _ _ _ Hw)
          as (b' & t' & Hc' & _ & He' & Ht' & _).
        congruence.
    - intros st. simpl. rewrite Hnone, app_nil_r. repeat split. lia. }
  destruct (length (Chunker.chunks_route txt) =? 0) eqn:Elen.
  { eexists _, ∅, []. split.
    - apply Hfail.
      + left. simpl. right. right. left. reflexivity.
      + intros vectors Hw.
        destruct (whole_batch_inv _ _ _ Hw)
          as (b' & t' & Hc' & _ & He' & _ & Hl' & _).
        congruence.
    - intros st. simpl. rewrite Hnone, app_nil_r. repeat split. lia. }
  pose proof (embed_loop_spec env f (Chunker.chunks_route txt) 0 []) as Hemb.
  destruct (Route.embed_loop env f 0 (Chunker.chunks_route txt) [])
    as [t|vectors] eqn:Eloop.
  { eexists _, ∅, _. split.
    - apply Hfail.
      + right. exists t. split; [exact Hemb | reflexivity].
      + intros vectors Hw.
        destruct (whole_batch_inv _ _ _ Hw)
          as (b' & t' & Hc' & _ & He' & _ & _ & Hloop').
        congruence.
    - intros st. simpl. rewrite Hnone. repeat split. lia. }
  assert (forall vectors', whole_batch env f vectors' -> vectors' = vectors)
    as Hsame.
  { intros vectors' Hw.
    destruct (whole_batch_inv _ _ _ Hw)
      as (b' & t' & Hc' & _ & He' & _ & _ & Hloop').
    congruence. }
  assert (whole_batch env f vectors) as Hbatch.
  { destruct (embed_loop_vectors env f _ 0 [] vectors Eloop)
      as [new [-> [Hlen Hnew]]]. cbn [app].
    split; [exact Hel'|]. exists buffer, txt. split; [exact Ec|].
    split; [apply Nat.eqb_neq, Eb|]. split; [exact Ee|].
    split; [exact Et|].
    split; [intros Hnil; rewrite Hnil in Elen; discriminate|].
    split; [exact Hlen|]. exact Hnew. }
  unfold upsertToPinecone.
  destruct (upsertRejects env vectors) as [t|] eqn:Eu.
  { eexists _, ∅, _. split.
    - apply Hfail.
      + right. exists t.
        split; [eapply thrown_by_upsert, Eu | reflexivity].
      + intros vectors' Hw Hu. rewrite (Hsame _ Hw) in Hu. congruence.
    - intros st. simpl. rewrite Hnone. repeat split. lia. }
  destruct (foldl_ins_union vectors) as [W HW].
  exists {| e_name := interpolate (name f); chunks := length vectors;
            error := None |}, W, [].
  split.
  - split; [reflexivity|]. split; [|split].
    + left. split; [|reflexivity]. simpl.
      apply Nat.eqb_neq in Elen. simpl in Hemb. lia.
    + intros vectors' Hw _. rewrite (Hsame _ Hw). split; reflexivity.
    + intros Hno. destruct (Hno vectors Hbatch Eu).
  - intros st. simpl. rewrite HW, app_nil_r. repeat split.
Qed.

(** The whole loop of the route: one entry for every listed file that the
    guard lets through, in listing order. *)
Lemma route_loop env files :
  exists es W D,
    Forall2 (route_entry env) (List.filter eligible files) es /\
    forall st,
      Route.processedFiles (foldl (Route.file_step env) st files) =
        Route.processedFiles st ++ es /\
      Route.totalChunks (foldl (Route.file_step env) st files) =
        Route.totalChunks st + total es /\
      Route.failedFileDetails (foldl (Route.file_step env) st files) =
        Route.failedFileDetails st ++ D /\
      Route.index (foldl (Route.file_step env) st files) =
        W ∪ Route.index st.
Proof.
  induction files as [|f files [es [W [D [HF Hrun]]]]].
  - exists [], ∅, []. split; [constructor|]. intros st. simpl.
    rewrite !app_nil_r, union_empty_store. repeat split.
    unfold total. simpl. lia.
  - simpl. destruct (eligible f) eqn:Hel.
    + destruct (route_file_step env f Hel) as [e [V [D' [He Hstep]]]].
      exists (e :: es), (W ∪ V), (D' ++ D). split; [constructor; assumption|].
      intros st.
      destruct (Hrun (Route.file_step env st f)) as [-> [-> [-> ->]]].
      destruct (Hstep st) as [-> [-> [-> ->]]].
      rewrite <- !app_assoc, (assoc_L (∪)). repeat split.
      unfold total. simpl. lia.
    + exists es, W, D. split; [assumption|].
      intros st. rewrite (route_file_skipped env f st Hel). apply Hrun.
Qed.

(** *** Runs *)

(** X1. A second run of the script over an unchanged folder, with the same
    collaborator behaviour, reports the same entries and leaves the index
    as the first run left it. *)
Lemma script_sync_idempotent env folderId (ix : store) :
  Script.vectorizeDriveFiles env folderId
    (Script.vectorizeDriveFiles env folderId ix).2 =
  Script.vectorizeDriveFiles env folderId ix.
Proof.
  unfold Script.vectorizeDriveFiles.
  destruct (falsy folderId); [reflexivity|].
  destruct (listFilesInFolder env _) as [t|files]; [reflexivity|].
  destruct (length files =? 0); [reflexivity|].
  destruct (script_loop env files) as [es [W [_ Hrun]]].
  cbn [snd].
  repeat match goal with
  | |- context [foldl (Script.file_step env) ?st files] =>
      let H := fresh in
      destruct (Hrun st) as [-> [-> ->]]
  end.
  cbn [Script.index Script.processedFiles Script.totalChunks].
  rewrite (assoc_L (∪)), (idemp_L (∪)). reflexivity.
Qed.

(** X2. The same for the route: a second run of the sync route over an
    unchanged folder, with the same collaborator behaviour, gives the same
    reply and leaves the index as the first run left it. *)
Lemma route_sync_idempotent env folderId (ix : store) :
  Route.POST env folderId (Route.POST env folderId ix).2 =
  Route.POST env folderId ix.
Proof.
  unfold Route.POST.
  destruct (falsy folderId); [reflexivity|].
  destruct (listFilesInFolder env _) as [t|files]; [reflexivity|].
  destruct (length files =? 0); [reflexivity|].
  destruct (route_loop env files) as [es [W [D [_ Hrun]]]].
  cbn [snd]. unfold Route.message.
  repeat match goal with
  | |- context [foldl (Route.file_step env) ?st files] =>
      destruct (Hrun st) as [-> [-> [-> ->]]]
  end.
  cbn [Route.index Route.processedFiles Route.totalChunks
       Route.failedFileDetails].
  rewrite (assoc_L (∪)), (idemp_L (∪)). reflexivity.
Qed.

(** *** Chunk failures, report entries and vector ids *)

(** X3. On the script path a chunk whose embedding or upsert throws is
    skipped: the loop still counts every other chunk and writes its
    vector to the index. *)
Lemma script_chunk_failures_isolated env file chunks (ix : store) :
  (Script.chunk_loop env file 0 chunks (0, ix)).1 =
    count_ok env file 0 chunks /\
  forall k c, chunks !! k = Some c -> chunk_ok env file k c = true ->
    is_Some ((Script.chunk_loop env file 0 chunks (0, ix)).2
               !! Script.vector_id file k).
Proof.
  destruct (chunk_loop_spec env file chunks 0) as [W [Hin Hrun]].
  rewrite Hrun. split; [reflexivity|].
  intros k c Hk Hok. apply lookup_union_is_Some. left.
  apply (Hin k c); assumption.
Qed.

(** On the route the first chunk whose embedding throws ends the
    embedding loop with what it threw, whatever was embedded before. *)
Lemma embed_loop_throws env f pre :
  forall j vs c post t,
    Forall (fun c' => exists emb, getEmbedding env c' = inr emb) pre ->
    getEmbedding env c = inl t ->
    Route.embed_loop env f j (pre ++ c :: post) vs = inl t.
Proof.
  induction pre as [|c0 pre IH]; intros j vs c post t Hpre Ht.
  - cbn [app Route.embed_loop]. rewrite Ht. reflexivity.
  - cbn [app Route.embed_loop].
    apply Forall_cons in Hpre as [[emb0 E0] Hpre]. rewrite E0.
    apply IH; assumption.
Qed.

(** X4. So a file one of whose chunks cannot be embedded goes to the
    per-file [catch] with what the first such chunk threw: the file is
    reported with no chunk and the message of that error, which is also
    put on the list of failed files, and the index and the chunk total
    are left as they were. *)
Lemma route_chunk_failure_is_file_failure env st f buffer txt pre c post t :
  eligible f = true ->
  getFileContent env (id f) (Some (or_default (mimeType f) "text/plain")) =
    inr buffer ->
  length buffer <> 0 ->
  extractTextFromDocument env buffer (or_default (mimeType f) "text/plain") =
    inr txt ->
  no_text txt = false ->
  Chunker.chunks_route txt = pre ++ c :: post ->
  Forall (fun c' => exists emb, getEmbedding env c' = inr emb) pre ->
  getEmbedding env c = inl t ->
  Route.file_step env st f = Route.file_catch f st t /\
  Route.processedFiles (Route.file_step env st f) =
    Route.processedFiles st ++
      [{| e_name := interpolate (name f); chunks := 0;
          error := Some (errorMessage t) |}] /\
  Route.failedFileDetails (Route.file_step env st f) =
    Route.failedFileDetails st ++ [(interpolate (name f), errorMessage t)] /\
  Route.totalChunks (Route.file_step env st f) = Route.totalChunks st /\
  Route.index (Route.file_step env st f) = Route.index st.
Proof.
  intros Hel Hc Hb He Ht Hchunks Hpre Hemb.
  assert (Route.file_step env st f = Route.file_catch f st t) as ->.
  { unfold Route.file_step. unfold eligible in Hel.
    apply negb_true_iff in Hel. rewrite Hel, Hc.
    apply Nat.eqb_neq in Hb. rewrite Hb, He, Ht, Hchunks.
    replace (length (pre ++ c :: post) =? 0) with false
      by (symmetry; apply Nat.eqb_neq; rewrite length_app; simpl; lia).
    rewrite (embed_loop_throws env f pre 0 [] c post t Hpre Hemb).
    reflexivity. }
  repeat split.
Qed.

(** C1. One file of two chunks, the embedding of the second chunk throws.
    The script skips that chunk and reports the other one (1 chunk, its
    vector in the index).  The route reports the file with 0 chunks and
    the thrown message, and writes nothing: the chunk-level failure has
    aborted the file. *)
Theorem C1_route_chunk_failure_aborts_file :
  let env := Samples.flaky [Samples.notes] in
  Chunker.chunks_route Samples.two_paragraphs =
    [repeat 97%N 30; repeat 98%N 30] /\
  (Script.vectorizeDriveFiles env (Some "folder") ∅).1 =
    Script.Summary
      [{| e_name := "notes.txt"; chunks := 1; error := None |}] 1 /\
  map fst (map_to_list (Script.vectorizeDriveFiles env (Some "folder") ∅).2) =
    ["f1_chunk_0"] /\
  (exists report,
     (Route.POST env (Some "folder") ∅).1 = Route.Status200 report /\
     Route.r_processedFiles report =
       [{| e_name := "notes.txt"; chunks := 0; error := Some "rate limit" |}] /\
     Route.r_totalChunks report = 0) /\
  (Route.POST env (Some "folder") ∅).2 = ∅.
Proof.
  repeat split; try (vm_compute; reflexivity).
  eexists. repeat split; vm_compute; reflexivity.
Qed.

(** C2, as stated, fails on either path.
    - On the route: the folder lists one file, which has no id, and the
      report has no entry for it.
    - On the script: the folder lists one file of two chunks, neither of
      which can be embedded; the file has failed, and its entry counts no
      chunk and carries no error. *)
Lemma C2_reports_outside_the_claim :
  (let env := Samples.healthy [Samples.nameless] in
   listFilesInFolder env "folder" = inr [Samples.nameless] /\
   exists report,
     (Route.POST env (Some "folder") ∅).1 = Route.Status200 report /\
     Route.r_processedFiles report = [] /\
     Route.r_totalFiles report = 0) /\
  (let env := Samples.unembeddable [Samples.notes] in
   listFilesInFolder env "folder" = inr [Samples.notes] /\
   Script.vectorizeDriveFiles env (Some "folder") ∅ =
     (Script.Summary
        [{| e_name := "notes.txt"; chunks := 0; error := None |}] 0, ∅)).
Proof.
  split.
  - split; [reflexivity|]. eexists. repeat split; vm_compute; reflexivity.
  - split; [reflexivity|]. vm_compute. reflexivity.
Qed.

(** C2, amended.  Without a folder id both paths stop at once; when the
    listing throws, both paths fail; otherwise neither does, and
    - the route's report has exactly one entry, in listing order, for each
      listed file that has an id and a name; an entry either counts at
      least one chunk and has no error, or counts none and carries one of
      the route's messages or the message of what a collaborator threw;
      it is of the first kind, and counts the chunks of the file, exactly
      when every step for the file succeeded up to the upsert of its
      batch, and of the second kind for every file that failed; the
      totals are those of the entries;
    - the script reports exactly one entry for every listed file, in
      listing order; an entry with an error counts no chunk, and the
      error is one of the script's messages or the first 100 characters
      of what a collaborator threw; an entry without an error is that of
      a file that was read and cut into at least one chunk, and it counts
      the chunks whose embedding and upsert succeeded, which may be
      none; every file that was read and cut into chunks has such an
      entry, and every other file an entry with an error. *)
Theorem C2_report_entries (env : Env) (folderId : option string) (ix : store) :
  match falsy folderId, listFilesInFolder env (interpolate folderId) with
  | true, _ =>
      (Route.POST env folderId ix).1 = Route.Status400 "Folder ID is required" /\
      (Script.vectorizeDriveFiles env folderId ix).1 = Script.Exit1
  | false, inl t =>
      (Route.POST env folderId ix).1 =
        Route.Status500 "Failed to sync Google Drive files" (errorMessage t) /\
      (Script.vectorizeDriveFiles env folderId ix).1 = Script.Exit1
  | false, inr files =>
      (exists report,
         (Route.POST env folderId ix).1 = Route.Status200 report /\
         Forall2 (route_entry env) (List.filter eligible files)
           (Route.r_processedFiles report) /\
         Route.r_totalFiles report = length (List.filter eligible files) /\
         Route.r_totalChunks report = total (Route.r_processedFiles report)) /\
      (Script.vectorizeDriveFiles env folderId ix).1 <> Script.Exit1 /\
      Forall2 (script_entry env) files
        (script_entries (Script.vectorizeDriveFiles env folderId ix).1)
  end.
Proof.
  unfold Route.POST, Script.vectorizeDriveFiles.
  destruct (falsy folderId); [split; reflexivity|].
  destruct (listFilesInFolder env _) as [t|files]; [split; reflexivity|].
  destruct files as [|f files].
  { simpl. split; [|split; [discriminate | constructor]].
    eexists. split; [reflexivity|]. simpl. repeat split. constructor. }
  change (length (f :: files) =? 0) with false. cbv iota.
  destruct (route_loop env (f :: files)) as [es [W [D [HF Hrun]]]].
  destruct (script_loop env (f :: files)) as [es' [W' [HF' Hrun']]].
  split; [|split].
  - eexists. split; [reflexivity|]. cbn [fst Route.r_processedFiles
      Route.r_totalFiles Route.r_totalChunks].
    match goal with
    | |- context [foldl (Route.file_step env) ?st _] =>
        destruct (Hrun st) as [-> [-> _]]
    end.
    simpl. repeat split; [exact HF | symmetry; eapply Forall2_length, HF].
  - discriminate.
  - cbn [fst script_entries].
    match goal with
    | |- context [foldl (Script.file_step env) ?st _] =>
        destruct (Hrun' st) as [-> _]
    end.
    exact HF'.
Qed.

Lemma append_cancel_l (p a b : string) : (p ++ a = p ++ b)%string -> a = b.
Proof.
  induction p as [|c p IH]; simpl; intros H; [exact H|].
  injection H as H. apply IH, H.
Qed.

(** C5. The two paths never agree on the id of a vector: for the same
    file, no id the script forms is an id the route forms.  So syncing one
    unchanged file of two chunks by the script and then by the route
    leaves four vectors in the index, two per chunk, where the script run
    twice leaves two. *)
Theorem C5_paths_disagree_on_vector_ids :
  (forall (file : File) (j k : nat),
     Script.vector_id file j <> Route.vector_id file k) /\
  let env := Samples.healthy [Samples.notes] in
  let after_script := (Script.vectorizeDriveFiles env (Some "folder") ∅).2 in
  let after_both := (Route.POST env (Some "folder") after_script).2 in
  map fst (map_to_list after_script) = ["f1_chunk_1"; "f1_chunk_0"] /\
  map fst (map_to_list after_both) =
    ["f1_chunk_1"; "f1_chunk_0"; "f1-chunk-1"; "f1-chunk-0"] /\
  size (Script.vectorizeDriveFiles env (Some "folder") after_script).2 = 2.
Proof.
  split.
  - intros file j k. unfold Script.vector_id, Route.vector_id. intros H.
    apply append_cancel_l in H. discriminate H.
  - repeat split; vm_compute; reflexivity.
Qed.

End IngestFacts.

(** ** Retrieval *)

Module ChatFacts.
Import Exn Chat.

(** C6. When the index query throws, the route works with no match: it
    answers exactly as it would had the index returned the empty list, the
    generator is called with the empty context, and when the generator
    returns, the reply is a 200 with [contextUsed] false, no source and
    confidence 0; the reply is an error only when the generator throws. *)
Theorem C6_index_failure_degrades (env : Env) (message : option string)
    (history : list ChatMessage) (emb : list Q) (t : thrown) :
  falsy message = false ->
  getEmbedding env (interpolate message) = inr emb ->
  queryPinecone env emb 5 = inl t ->
  retrieve env emb = [] /\
  POST env message history =
    POST (with_index env (fun _ _ => inr [])) message history /\
  match chatCompletion env (messages_of history (interpolate message))
          EmptyString with
  | inr answer =>
      POST env message history =
        Status200 {| response := stripMarkdown env answer;
                     contextUsed := false;
                     sources := [];
                     a_confidenceScore := 0%Q |}
  | inl t' => POST env message history = outer_catch t'
  end.
Proof.
  intros Hm He Hq.
  assert (retrieve env emb = []) as Hr by (unfold retrieve; rewrite Hq; reflexivity).
  split; [exact Hr|]. unfold POST. rewrite Hm. cbn [getEmbedding with_index].
  rewrite He, Hr. unfold retrieve at 1. cbn [queryPinecone with_index].
  split; [reflexivity|]. cbn [context map join].
  destruct (chatCompletion env _ _); reflexivity.
Qed.

Lemma C6_index_failure_degrades_witness :
  POST Samples.index_down (Some "What is Ultra?") [] =
    Status200 {| response := "answer with context: ";
                 contextUsed := false;
                 sources := [];
                 a_confidenceScore := 0%Q |}.
Proof.
  exact (proj2 (proj2 (C6_index_failure_degrades Samples.index_down
                         (Some "What is Ultra?") [] [1 # 2]
                         (ErrorObj "Pinecone unavailable")
                         eq_refl eq_refl eq_refl))).
Defined.

Lemma num_or_zero_value (s : Q) : (num_or_zero (Some s) == s)%Q.
Proof.
  unfold num_or_zero. destruct (Qeq_bool s 0) eqn:E; [|reflexivity].
  apply Qeq_bool_iff in E. symmetry. exact E.
Qed.

(** C7. Whatever list of matches the index returns for the embedded
    message, the reply is decided by it: when the generator returns, the
    reply is a 200 whose confidence score is 0 for the empty list and the
    score of the first match otherwise (0 when that match carries no
    score); the reply is an error only when the generator throws. *)
Theorem C7_confidence_is_top_score (env : Env) (message : option string)
    (history : list ChatMessage) (emb : list Q) (matches : list Match) :
  falsy message = false ->
  getEmbedding env (interpolate message) = inr emb ->
  queryPinecone env emb 5 = inr matches ->
  match chatCompletion env (messages_of history (interpolate message))
          (context matches) with
  | inr answer =>
      exists a,
        POST env message history = Status200 a /\
        response a = stripMarkdown env answer /\
        match matches with
        | [] => a_confidenceScore a = 0%Q
        | m :: _ =>
            match score m with
            | Some s => (a_confidenceScore a == s)%Q
            | None => a_confidenceScore a = 0%Q
            end
        end
  | inl t => POST env message history = outer_catch t
  end.
Proof.
  intros Hm He Hq. unfold POST, retrieve. rewrite Hm, He, Hq.
  destruct (chatCompletion env _ _) as [t|answer]; [reflexivity|].
  eexists. split; [reflexivity|]. split; [reflexivity|].
  cbn [a_confidenceScore].
  destruct matches as [|m rest]; [reflexivity|]. cbn [confidenceScore].
  destruct (score m) as [s|]; [apply num_or_zero_value | reflexivity].
Qed.

Lemma C7_confidence_is_top_score_witness :
  exists a,
    POST MoreSamples.two_matches (Some "What is Ultra?") [] = Status200 a /\
    response a = "answer" /\
    (a_confidenceScore a == 9 # 10)%Q.
Proof.
  exact (C7_confidence_is_top_score MoreSamples.two_matches
           (Some "What is Ultra?") [] [1 # 2]
           [{| m_id := "f1-chunk-0"; score := Some (9 # 10);
               metadata := None |};
            {| m_id := "f1-chunk-1"; score := Some (1 # 2);
               metadata := None |}]
           eq_refl eq_refl eq_refl).
Defined.

(** The same read off a reply: the confidence of a 200 reply is that of
    the matches the index returned, and 0 when the index query threw. *)
Lemma confidence_of_a_reply (env : Env) (message : option string)
    (history : list ChatMessage) (a : Answer) :
  POST env message history = Status200 a ->
  exists emb,
    getEmbedding env (interpolate message) = inr emb /\
    match queryPinecone env emb 5 with
    | inr matches => a_confidenceScore a = confidenceScore matches
    | inl _ => a_confidenceScore a = 0%Q
    end.
Proof.
  unfold POST. destruct (falsy message); [discriminate|].
  destruct (getEmbedding env _) as [t|emb].
  { unfold outer_catch. discriminate. }
  destruct (chatCompletion env _ _) as [t|answer].
  { unfold outer_catch. discriminate. }
  intros H. injection H as <-. exists emb. split; [reflexivity|].
  unfold retrieve. destruct (queryPinecone env emb 5); reflexivity.
Qed.

Example confidence_of_ranked_matches :
  confidenceScore
    [{| m_id := "a"; score := Some (9 # 10); metadata := None |};
     {| m_id := "b"; score := Some (1 # 2); metadata := None |}] = (9 # 10)%Q.
Proof. reflexivity. Qed.

End ChatFacts.

(** ** Content review *)

Module AnalyzeFacts.
Import Exn Analyze AnalyzeSpec.

(** *** Deduplication *)

Lemma elem_of_map {A B} (f : A -> B) (l : list A) (y : B) :
  y ∈ map f l <-> exists x, y = f x /\ x ∈ l.
Proof.
  rewrite list_elem_of_In, in_map_iff. split.
  - intros [x [E H]]. exists x. rewrite list_elem_of_In. auto.
  - intros [x [E H]]. exists x. rewrite <- list_elem_of_In. auto.
Qed.

Lemma same_key_objects (x y : Issue) :
  same_key (Some x) (Some y) = inr (bool_decide (key y = key x)).
Proof.
  unfold same_key, key. f_equal.
  destruct (decide (key_text y = key_text x)) as [E1|E1];
    destruct (decide (location y = location x)) as [E2|E2].
  - rewrite !bool_decide_eq_true_2 by congruence. reflexivity.
  - rewrite (bool_decide_eq_false_2 (location y = location x)) by assumption.
    rewrite (bool_decide_eq_false_2 (_ = (_, _))) by congruence.
    apply andb_false_r.
  - rewrite (bool_decide_eq_false_2 (key_text y = key_text x)) by assumption.
    rewrite (bool_decide_eq_false_2 (_ = (_, _))) by congruence.
    reflexivity.
  - rewrite (bool_decide_eq_false_2 (key_text y = key_text x)) by assumption.
    rewrite (bool_decide_eq_false_2 (_ = (_, _))) by congruence.
    reflexivity.
Qed.

(** No earlier element has the key of [x]: the search stops at [x]. *)
Lemma findIndex_first (x : Issue) (pre post : list Issue) (k : Z) :
  key x ∉ map key pre ->
  findIndex (same_key (Some x)) (map Some (pre ++ x :: post)) k =
  inr (k + Z.of_nat (length pre))%Z.
Proof.
  revert k. induction pre as [|y pre IH]; intros k Hno.
  - cbn [map app findIndex length].
    rewrite same_key_objects, bool_decide_eq_true_2 by reflexivity.
    f_equal. lia.
  - cbn [map app findIndex length] in *. rewrite same_key_objects.
    rewrite bool_decide_eq_false_2.
    + rewrite IH; [f_equal; lia|].
      intros Hin. apply Hno. right. exact Hin.
    + intros E. apply Hno. rewrite E. left.
Qed.

(** An earlier element has the key of [x]: the search stops before the
    position of [x]. *)
Lemma findIndex_earlier (x : Issue) (pre rest : list Issue) (k : Z) :
  key x ∈ map key pre ->
  exists j, findIndex (same_key (Some x)) (map Some (pre ++ rest)) k = inr j /\
            (j < k + Z.of_nat (length pre))%Z.
Proof.
  revert k. induction pre as [|y pre IH]; intros k Hin.
  - cbn [map] in Hin. apply elem_of_nil in Hin. contradiction.
  - cbn [map app findIndex length]. rewrite same_key_objects.
    destruct (decide (key y = key x)) as [E|E].
    + rewrite bool_decide_eq_true_2 by assumption. exists k. split; [reflexivity|lia].
    + rewrite bool_decide_eq_false_2 by assumption.
      cbn [map] in Hin. apply elem_of_cons in Hin as [Hx|Hin]; [congruence|].
      destruct (IH (k + 1)%Z Hin) as [j [Hj Hlt]].
      exists j. split; [exact Hj | lia].
Qed.

(** On objects the filter keeps exactly the first occurrence of each
    key. *)
Lemma filter_first_spec (l : list Issue) :
  forall pre seen,
    (forall k, k ∈ seen <-> k ∈ map key pre) ->
    filter_first (map Some (pre ++ l)) (Z.of_nat (length pre)) (map Some l) =
    inr (first_by_key seen l).
Proof.
  induction l as [|x l IH]; intros pre seen Hseen; [reflexivity|].
  cbn [map filter_first first_by_key].
  assert (pre ++ x :: l = (pre ++ [x]) ++ l) as Eself
    by (rewrite <- app_assoc; reflexivity).
  assert ((Z.of_nat (length pre) + 1)%Z = Z.of_nat (length (pre ++ [x]))) as Eidx
    by (rewrite length_app; simpl; lia).
  destruct (decide (key x ∈ seen)) as [Hin|Hout].
  - rewrite (bool_decide_eq_true_2 _ Hin).
    destruct (findIndex_earlier x pre (x :: l) 0 (proj1 (Hseen _) Hin))
      as [j [-> Hlt]].
    rewrite Eself at 1. rewrite Eidx, (IH (pre ++ [x]) seen).
    + replace (Z.of_nat (length pre) =? j)%Z with false; [reflexivity|].
      symmetry. apply Z.eqb_neq. lia.
    + intros k. rewrite Hseen, map_app, elem_of_app. simpl.
      rewrite list_elem_of_singleton. split; [tauto|].
      intros [H| ->]; [exact H | apply Hseen, Hin].
  - rewrite (bool_decide_eq_false_2 _ Hout).
    rewrite findIndex_first by (rewrite <- Hseen; exact Hout).
    rewrite Eself at 1. rewrite Eidx, (IH (pre ++ [x]) (key x :: seen)).
    + rewrite Z.add_0_l, Z.eqb_refl. reflexivity.
    + intros k. rewrite elem_of_cons, Hseen, map_app, elem_of_app. simpl.
      rewrite list_elem_of_singleton. tauto.
Qed.

Lemma uniqueIssuesOf_objects (all : list Issue) :
  uniqueIssuesOf (map Some all) = inr (first_by_key [] all).
Proof.
  unfold uniqueIssuesOf.
  apply (filter_first_spec all [] []). intros k. reflexivity.
Qed.

Lemma first_by_key_fresh seen l :
  forall i, i ∈ first_by_key seen l -> key i ∉ seen.
Proof.
  revert seen. induction l as [|x l IH]; intros seen i Hi; simpl in Hi.
  - apply elem_of_nil in Hi. contradiction.
  - destruct (decide (key x ∈ seen)) as [Hin|Hout].
    + rewrite (bool_decide_eq_true_2 _ Hin) in Hi. apply (IH _ _ Hi).
    + rewrite (bool_decide_eq_false_2 _ Hout) in Hi.
      apply elem_of_cons in Hi as [->|Hi]; [exact Hout|].
      intros H. apply (IH _ _ Hi). right. exact H.
Qed.

Lemma first_by_key_NoDup seen l : NoDup (map key (first_by_key seen l)).
Proof.
  revert seen. induction l as [|x l IH]; intros seen; simpl.
  - constructor.
  - destruct (bool_decide (key x ∈ seen)); [apply IH|].
    cbn [map]. apply NoDup_cons. split; [|apply IH].
    intros Hin. apply elem_of_map in Hin as [i [Ek Hi]].
    apply first_by_key_fresh in Hi. apply Hi. rewrite <- Ek. left.
Qed.

Lemma first_by_key_sublist seen l : sublist (first_by_key seen l) l.
Proof.
  revert seen. induction l as [|x l IH]; intros seen; simpl.
  - constructor.
  - destruct (bool_decide (key x ∈ seen)).
    + apply sublist_cons, IH.
    + apply sublist_skip, IH.
Qed.



(** Distinct keys: nothing is dropped. *)
Lemma first_by_key_distinct seen l :
  NoDup (map key l) -> (forall i, i ∈ l -> key i ∉ seen) ->
  first_by_key seen l = l.
Proof.
  revert seen. induction l as [|x l IH]; intros seen Hnd Hseen; [reflexivity|].
  simpl in *. apply NoDup_cons in Hnd as [Hx Hnd].
  rewrite bool_decide_eq_false_2 by (apply Hseen; left).
  f_equal. apply IH; [exact Hnd|].
  intros i Hi H. apply elem_of_cons in H as [E|H].
  - apply Hx. rewrite <- E. apply elem_of_map. exists i. split; [reflexivity|exact Hi].
  - apply (Hseen i); [right; exact Hi | exact H].
Qed.



Example scenario_D :
  uniqueIssuesOf
    [Some (Samples.plain_issue "Blackboard Learn" "Header" "first wording");
     Some (Samples.plain_issue "Blackboard Learn" "Header" "second wording")] =
  inr [Samples.plain_issue "Blackboard Learn" "Header" "first wording"].
Proof. vm_compute. reflexivity. Qed.

(** A location that is [null] and a location that is absent are different
    under [===]: both issues are kept, where an issue met twice is kept
    once; and a [null] type and description are printed as "null". *)
Example null_is_not_absent :
  let a := {| type := Undefined; description := Str "first wording";
              currentText := Str "x"; outdatedText := Undefined;
              suggestedReplacement := None; reasoning := None;
              location := Null; severity := None; priority := None |} in
  let b := {| type := Undefined; description := Str "second wording";
              currentText := Str "x"; outdatedText := Undefined;
              suggestedReplacement := None; reasoning := None;
              location := Undefined; severity := None; priority := None |} in
  uniqueIssuesOf [Some a; Some b] = inr [a; b] /\
  uniqueIssuesOf [Some b; Some b] = inr [b] /\
  map risk_text
    [{| type := Null; description := Null;
        currentText := Undefined; outdatedText := Undefined;
        suggestedReplacement := None; reasoning := None;
        location := Undefined; severity := None; priority := None |}] =
  ["null: null"].
Proof. repeat split; vm_compute; reflexivity. Qed.

(** *** The overall level *)

Lemma some_counted {A} (p : A -> bool) (l : list A) :
  (0 <? length (List.filter p l)) = existsb p l.
Proof.
  induction l as [|x l IH]; [reflexivity|]. simpl.
  destruct (p x); [reflexivity | exact IH].
Qed.

Lemma existsb_either {A} (p q : A -> bool) (l : list A) :
  existsb (fun x => p x || q x) l = existsb p l || existsb q l.
Proof.
  induction l as [|x l IH]; [reflexivity|]. simpl. rewrite IH.
  destruct (p x), (q x), (existsb p l); reflexivity.
Qed.

Lemma overallRiskLevelOf_amended analysis outdated unique risks :
  overallRiskLevelOf analysis outdated unique risks =
  amended_overallSeverity analysis outdated unique risks.
Proof.
  unfold overallRiskLevelOf, amended_overallSeverity, escalates.
  rewrite !some_counted.
  rewrite (existsb_either (fun i => is_text "immediate" (priority i))
             (fun i => is_text "high" (priority i))).
  rewrite (existsb_either
             (fun i => is_text "high" (severity i)
                       || is_text "immediate" (priority i))
             (fun i => is_text "high" (priority i))).
  rewrite (existsb_either (fun i => is_text "high" (severity i))
             (fun i => is_text "immediate" (priority i))).
  rewrite <- !orb_assoc. reflexivity.
Qed.

Lemma NoDup_map_injective {A B} (f : A -> B) (l : list A) :
  (forall x y, f x = f y -> x = y) -> NoDup l -> NoDup (map f l).
Proof.
  intros Hinj. induction l as [|x l IH]; intros Hnd; cbn [map].
  - constructor.
  - apply NoDup_cons in Hnd as [Hx Hnd]. apply NoDup_cons. split; [|apply IH, Hnd].
    intros Hin. apply elem_of_map in Hin as [y [E Hy]].
    apply Hinj in E. subst y. exact (Hx Hy).
Qed.

Lemma heuristic_key (i : OutdatedIssue) :
  key (heuristic_issue i) = (Str (term i), of_option (o_location i)).
Proof.
  unfold key, key_text, heuristic_issue, value_or. simpl.
  destruct (String.eqb (term i) EmptyString); reflexivity.
Qed.

Lemma of_option_inj (a b : option string) : of_option a = of_option b -> a = b.
Proof. destruct a, b; simpl; congruence. Qed.

(** C8, as stated, fails.  No detected term and a model answer with no
    issue: there is no unique issue, so the stated rule gives "low".
    - When the model's answer carries the level "medium", the route
      reports "medium".
    - When it carries the level "low" and three risk strings, the route
      counts three risk entries and reports "medium". *)
Lemma C8_level_not_from_issues_alone :
  (exists agg,
     aggregate (Samples.answer (Some "medium") None (Some [])) [] = inr agg /\
     uniqueIssues agg = [] /\
     spec_overallSeverity (uniqueIssues agg) = "low" /\
     overallRiskLevel agg = "medium") /\
  (exists agg,
     aggregate (Samples.answer (Some "low")
                  (Some ["old name"; "old menu"; "old link"]) (Some [])) []
       = inr agg /\
     uniqueIssues agg = [] /\
     spec_overallSeverity (uniqueIssues agg) = "low" /\
     overallRiskLevel agg = "medium").
Proof. split; eexists; repeat split; vm_compute; reflexivity. Qed.

(** One detected term of low severity and a model answer without issues,
    risks or level: the only unique issue has severity "low" and priority
    "medium", and the route reports "high" because the detector found
    something. *)
Example low_issue_reported_high :
  exists agg,
    aggregate Samples.silent [Samples.minor 1] = inr agg /\
    map severity (uniqueIssues agg) = [Some "low"] /\
    map priority (uniqueIssues agg) = [Some "medium"] /\
    spec_overallSeverity (uniqueIssues agg) = "low" /\
    overallRiskLevel agg = "high".
Proof. eexists. repeat split; vm_compute; reflexivity. Qed.

(** C8, amended.  The level the route computes is
    - "high" when a unique issue has severity "high" or priority
      "immediate" or "high", or there are more than 5 risk entries;
    - else "medium" when a unique issue has severity "medium" or there are
      more than 2 risk entries;
    - else the model's own level when it gave one, and otherwise "high"
      when the detector found something and "low" when it did not;
    where the risk entries are the model's risk strings followed by one
    entry per unique issue.  Six or more detected terms with pairwise
    distinct (term, location), whatever their severities, and no model
    issue give "high". *)
Theorem C8_overall_risk_level :
  (forall analysis outdated agg,
     aggregate analysis outdated = inr agg ->
     allRisks agg =
       default [] (risks analysis) ++ map risk_text (uniqueIssues agg) /\
     overallRiskLevel agg =
       amended_overallSeverity analysis outdated
         (uniqueIssues agg) (allRisks agg)) /\
  (forall analysis outdated,
     issues analysis = None \/ issues analysis = Some [] ->
     NoDup (map (fun i => (term i, o_location i)) outdated) ->
     5 < length outdated ->
     exists agg,
       aggregate analysis outdated = inr agg /\
       uniqueIssues agg = map heuristic_issue outdated /\
       overallRiskLevel agg = "high").
Proof.
  split.
  - intros analysis outdated agg. unfold aggregate.
    destruct (uniqueIssuesOf _) as [t|unique]; [discriminate|].
    intros H. injection H as <-. simpl. split; [reflexivity|].
    apply overallRiskLevelOf_amended.
  - intros analysis outdated Hnone Hnd Hlen.
    assert (allIssues analysis outdated =
            map Some (map heuristic_issue outdated)) as Eall.
    { unfold allIssues. rewrite map_map.
      destruct Hnone as [-> | ->]; reflexivity. }
    assert (first_by_key [] (map heuristic_issue outdated) =
            map heuristic_issue outdated) as Euniq.
    { apply first_by_key_distinct; [|intros; apply not_elem_of_nil].
      rewrite map_map.
      rewrite (map_ext _ (fun i => (Str (term i), of_option (o_location i))))
        by apply heuristic_key.
      rewrite <- (map_map (fun i => (term i, o_location i))
                    (fun p => (Str p.1, of_option p.2))).
      apply NoDup_map_injective; [|exact Hnd].
      intros [a b] [c d] E. simpl in E. injection E as E1 E2.
      apply of_option_inj in E2. congruence. }
    unfold aggregate. rewrite Eall, uniqueIssuesOf_objects, Euniq.
    eexists. split; [reflexivity|]. split; [reflexivity|]. simpl.
    rewrite overallRiskLevelOf_amended. unfold amended_overallSeverity.
    replace (5 <? length (allRisksOf analysis (map heuristic_issue outdated)))
      with true; [rewrite orb_true_r; reflexivity|].
    symmetry. apply Nat.ltb_lt. unfold allRisksOf.
    rewrite length_app, !length_map. lia.
Qed.

Example scenario_C :
  exists agg,
    aggregate Samples.silent (map Samples.minor [1; 2; 3; 4; 5; 6]) = inr agg /\
    map severity (uniqueIssues agg) = repeat (Some "low") 6 /\
    overallRiskLevel agg = "high".
Proof. eexists. repeat split; vm_compute; reflexivity. Qed.


(** *** The loop over the URLs *)

(** The only thing the body of the per-URL [try] throws is the reading of
    a [null] entry of the model's issues. *)
Lemma findIndex_throws issue self k t :
  findIndex (same_key issue) self k = inl t -> t = null_property "currentText".
Proof.
  revert k. induction self as [|i self IH]; intros k; cbn [findIndex].
  - discriminate.
  - destruct (same_key issue i) as [t'|[|]] eqn:E.
    + intros H. injection H as <-. unfold same_key in E.
      destruct i as [i|]; [destruct issue as [issue|]|]; congruence.
    + discriminate.
    + apply IH.
Qed.

Lemma filter_first_throws self index l t :
  filter_first self index l = inl t -> t = null_property "currentText".
Proof.
  revert index. induction l as [|issue l IH]; intros index; cbn [filter_first].
  - discriminate.
  - destruct (findIndex (same_key issue) self 0) as [t'|k] eqn:E.
    + intros H. injection H as <-. eapply findIndex_throws, E.
    + destruct issue as [obj|]; [|congruence].
      destruct (filter_first self (index + 1) l) as [t'|kept] eqn:E'.
      * intros H. injection H as <-. eapply IH, E'.
      * discriminate.
Qed.

Lemma analyze_page_throws env u page t :
  analyze_page env u page = inl t -> t = null_property "currentText".
Proof.
  unfold analyze_page, aggregate, uniqueIssuesOf.
  destruct (filter_first _ _ _) as [t'|unique] eqn:E; [|discriminate].
  intros H. injection H as <-. eapply filter_first_throws, E.
Qed.

Lemma analyze_page_returns env u page r :
  analyze_page env u page = inr r ->
  url r = u /\ success r = true /\ r_error r = None.
Proof.
  unfold analyze_page. destruct (aggregate _ _); [discriminate|].
  intros H. injection H as <-. repeat split.
Qed.

(** One iteration appends one result, for the URL at hand, and records the
    URL as fetched; the result does not depend on the loop state. *)
Lemma url_step_spec env u :
  exists r, reported_for env u r /\
    forall st, results (url_step env st u) = results st ++ [r] /\
               fetched (url_step env st u) = fetched st ++ [u].
Proof.
  unfold url_step, reported_for.
  destruct (fetchPageContent env u) as [page|] eqn:Ef.
  - destruct (analyze_page env u page) as [t|r] eqn:E.
    + pose proof (analyze_page_throws env u page t E) as Ht.
      eexists. split; [|intros st; split; reflexivity].
      split; [reflexivity|]. split; [|split; [|split; [|split]]].
      * intros _. eexists. split; [reflexivity|]. subst t. discriminate.
      * discriminate.
      * discriminate.
      * intros page' t' Hp E'. injection Hp as <-.
        rewrite E in E'. injection E' as <-. split; reflexivity.
      * intros page' ok Hp E'. injection Hp as <-.
        rewrite E in E'. discriminate.
    + destruct (analyze_page_returns env u page r E) as [Hu [Hs He]].
      exists r. split; [|intros st; split; reflexivity].
      split; [exact Hu|]. split; [|split; [|split; [|split]]].
      * rewrite Hs. discriminate.
      * intros _. exact He.
      * discriminate.
      * intros page' t' Hp E'. injection Hp as <-.
        rewrite E in E'. discriminate.
      * intros page' ok Hp E'. injection Hp as <-.
        rewrite E in E'. injection E' as <-. split; [reflexivity|exact Hs].
  - eexists. split; [|intros st; split; reflexivity].
    split; [reflexivity|]. split; [|split; [|split; [|split]]].
    + intros _. eexists. split; [reflexivity|]. discriminate.
    + discriminate.
    + intros _. split; reflexivity.
    + discriminate.
    + discriminate.
Qed.

Lemma url_loop env urls :
  exists rs, Forall2 (reported_for env) urls rs /\
    forall st, results (foldl (url_step env) st urls) = results st ++ rs /\
               fetched (foldl (url_step env) st urls) = fetched st ++ urls.
Proof.
  induction urls as [|u urls [rs [HF Hrun]]].
  - exists []. split; [constructor|]. intros st. simpl.
    rewrite !app_nil_r. split; reflexivity.
  - destruct (url_step_spec env u) as [r [Hr Hstep]].
    exists (r :: rs). split; [constructor; assumption|].
    intros st. simpl.
    destruct (Hrun (url_step env st u)) as [-> ->].
    destruct (Hstep st) as [-> ->].
    rewrite <- !app_assoc. split; reflexivity.
Qed.

Lemma reported_urls env urls rs :
  Forall2 (reported_for env) urls rs -> map url rs = urls.
Proof.
  induction 1 as [|u r urls rs [Hu _] _ IH]; [reflexivity|].
  simpl. rewrite Hu, IH. reflexivity.
Qed.

(** C10. A request with no URL or with more than 100 URLs is answered
    with a validation error and nothing is fetched.  For 1 to 100 URLs the
    reply has one result per URL, in the order of the request, and every
    URL was handed to the fetcher once, in that order; a result that is
    not a success carries a non-empty error; a URL whose page cannot be
    fetched gets such a result, and so does a URL whose analysis throws,
    with the message of what was thrown as its error; a URL whose
    analysis returns gets the result it returned, a success. *)
Theorem C10_one_result_per_url (env : Env) (urls : list string) :
  if length urls =? 0 then
    POST env (Some urls) = (Status400 "URLs array is required", [])
  else if 100 <? length urls then
    POST env (Some urls) = (Status400 "Maximum 100 URLs allowed", [])
  else
    exists rs,
      POST env (Some urls) = (Status200 rs, urls) /\
      length rs = length urls /\
      map url rs = urls /\
      Forall2 (reported_for env) urls rs.
Proof.
  unfold POST.
  destruct (length urls =? 0); [reflexivity|].
  destruct (100 <? length urls); [reflexivity|].
  destruct (url_loop env urls) as [rs [HF Hrun]].
  exists rs.
  match goal with
  | |- context [foldl (url_step env) ?st urls] =>
      destruct (Hrun st) as [-> ->]
  end.
  simpl. split; [reflexivity|].
  split; [symmetry; eapply Forall2_length, HF|].
  split; [eapply reported_urls, HF | exact HF].
Qed.

(** Three URLs: the second cannot be fetched, and the model's answer for
    the others has a [null] among its issues.  Three results, in order,
    none a success, each with its error. *)
Example failures_keep_their_place :
  let answer :=
    {| risks := None; summary := None; riskLevel := None;
       issues := Some [None]; outdatedTermsFound := None;
       updatePriority := None; currentRelevance := None;
       futureRelevance := None; messagingStrategy := None;
       instructorRecommendations := None; specificChanges := None |} in
  exists rs,
    (POST (Samples.site "b" answer) (Some ["a"; "b"; "c"])).1 = Status200 rs /\
    map url rs = ["a"; "b"; "c"] /\
    map success rs = [false; false; false] /\
    map r_error rs =
      [Some "Cannot read properties of null (reading 'currentText')";
       Some "Failed to fetch page content";
       Some "Cannot read properties of null (reading 'currentText')"].
Proof. eexists. repeat split; vm_compute; reflexivity. Qed.

Example too_many_urls_rejected :
  POST (Samples.site "b" Samples.silent) (Some (repeat "a" 101)) =
  (Status400 "Maximum 100 URLs allowed", []).
Proof. vm_compute. reflexivity. Qed.

End AnalyzeFacts.

(** ** More on the chunker *)

Module ChunkerMore.
Import Js Chunker JsFacts ChunkerFacts ChunkerSpec.

#[local] Opaque MAX_CHUNK_SIZE OVERLAP MIN_LENGTH.

Lemma paths_chunk_alike (t : text) : chunks_script t = chunks_route t.
Proof. destruct (chunks_by_tier t) as [-> ->]. reflexivity. Qed.

(** X8. Both ingestion paths cut a text into the same chunks: the
    accessor they differ in ([slice] in the script, [substring] in the
    route) is only called with ordered bounds. *)
Theorem both_paths_chunk_alike (t : text) : chunks_script t = chunks_route t.
Proof. apply paths_chunk_alike. Qed.

(** *** Trimming a part trims no more than trimming the whole *)

Lemma trimStart_snoc x c :
  trimStart (x ++ [c]) =
  match trimStart x with
  | [] => trimStart [c]
  | y => y ++ [c]
  end.
Proof.
  induction x as [|d x IH]; [reflexivity|].
  cbn [app trimStart]. destruct (is_space d); [exact IH | reflexivity].
Qed.

Lemma trimEnd_cons c r :
  trimEnd (c :: r) =
  match trimEnd r with
  | [] => if is_space c then [] else [c]
  | _ => c :: trimEnd r
  end.
Proof.
  unfold trimEnd. cbn [rev]. rewrite trimStart_snoc.
  destruct (trimStart (rev r)) as [|y ys].
  - cbn [rev trimStart]. destruct (is_space c); reflexivity.
  - rewrite rev_app_distr. cbn [rev app]. destruct (rev ys); reflexivity.
Qed.

Lemma trimEnd_cons_length c r : length (trimEnd r) <= length (trimEnd (c :: r)).
Proof.
  rewrite trimEnd_cons. destruct (trimEnd r); simpl; lia.
Qed.

Lemma trimEnd_app_l a s : length (trimEnd s) <= length (trimEnd (a ++ s)).
Proof.
  induction a as [|c a IH]; [reflexivity|].
  etransitivity; [exact IH | apply trimEnd_cons_length].
Qed.

Lemma trimEnd_app_r s b : length (trimEnd s) <= length (trimEnd (s ++ b)).
Proof.
  induction s as [|c s IH]; [simpl; lia|].
  cbn [app]. rewrite !trimEnd_cons.
  destruct (trimEnd s) as [|x xs]; destruct (trimEnd (s ++ b)) as [|y ys];
    simpl in *; try lia.
  destruct (is_space c); simpl; lia.
Qed.

Lemma trim_le_trimEnd s : length (trim s) <= length (trimEnd s).
Proof.
  unfold trim. destruct (trimStart_suffix s) as [sp E].
  rewrite E at 2. apply trimEnd_app_l.
Qed.

Lemma trim_app_l a s : length (trim s) <= length (trim (a ++ s)).
Proof.
  induction a as [|c a IH]; [reflexivity|].
  unfold trim at 2. cbn [app trimStart]. destruct (is_space c).
  - exact IH.
  - etransitivity; [apply trim_le_trimEnd|].
    apply (trimEnd_app_l (c :: a) s).
Qed.

Lemma trim_app_r s b : length (trim s) <= length (trim (s ++ b)).
Proof.
  induction s as [|c s IH]; [simpl; lia|].
  unfold trim. cbn [app trimStart]. destruct (is_space c).
  - exact IH.
  - apply (trimEnd_app_r (c :: s) b).
Qed.

Lemma trim_part p t : part_of p t -> length (trim p) <= length (trim t).
Proof.
  intros [a [b ->]].
  etransitivity; [apply (trim_app_r p b) | apply trim_app_l].
Qed.


(** *** The pieces of a split and the windows are parts of the text *)

Lemma short_not_long_enough (w : text) :
  length (trim w) <= MIN_LENGTH -> (MIN_LENGTH <? length (trim w)) = false.
Proof. intros H. apply Nat.ltb_ge, H. Qed.

Lemma part_of_refl (t : text) : part_of t t.
Proof. exists [], []. rewrite app_nil_r. reflexivity. Qed.

Lemma part_of_cons p c t : part_of p t -> part_of p (c :: t).
Proof. intros [a [b ->]]. exists (c :: a), b. reflexivity. Qed.

Lemma part_of_app_l p x t : part_of p t -> part_of p (x ++ t).
Proof.
  intros H. induction x as [|c x IH]; [exact H | apply part_of_cons, IH].
Qed.

Lemma part_of_prefix (p r : text) : part_of p (p ++ r).
Proof. exists [], r. reflexivity. Qed.

Lemma split_go_parts m s :
  forall skip cur, (skip = 0 \/ cur = []) ->
    forall p, In p (split_go m skip cur s) -> part_of p (cur ++ s).
Proof.
  induction s as [|c r IH]; intros skip cur Hinv p Hp.
  - simpl in Hp. destruct Hp as [<-|[]]. rewrite app_nil_r. apply part_of_refl.
  - cbn [split_go] in Hp. destruct skip as [|k].
    + destruct (m (c :: r)) as [[|k]|] eqn:Em.
      * replace (cur ++ c :: r) with ((cur ++ [c]) ++ r)
          by (rewrite <- app_assoc; reflexivity).
        apply (IH 0 (cur ++ [c])); [left; reflexivity | exact Hp].
      * destruct Hp as [<-|Hp]; [apply part_of_prefix|].
        apply part_of_app_l, part_of_cons.
        apply (IH k [] (or_intror eq_refl) p Hp).
      * replace (cur ++ c :: r) with ((cur ++ [c]) ++ r)
          by (rewrite <- app_assoc; reflexivity).
        apply (IH 0 (cur ++ [c])); [left; reflexivity | exact Hp].
    + destruct Hinv as [Hk| ->]; [discriminate|].
      apply part_of_cons. apply (IH k [] (or_intror eq_refl) p Hp).
Qed.

Lemma split_parts m t p : In p (split m t) -> part_of p t.
Proof. apply (split_go_parts m t 0 [] (or_introl eq_refl)). Qed.

Lemma slice_part s i j : part_of (slice s i j) s.
Proof.
  unfold slice, part_of.
  set (from := Nat.min i (length s)). set (n := Nat.max _ 0).
  exists (take from s), (drop n (drop from s)).
  rewrite take_drop, take_drop. reflexivity.
Qed.

Lemma windows_of_short (t : text) :
  length (trim t) <= MIN_LENGTH -> windows_of t = [].
Proof.
  intros Hshort. unfold windows_of.
  induction (seq 0 (window_count (length t))) as [|k ks IH]; [reflexivity|].
  cbn [map List.filter]. unfold long_enough at 1, window_at at 1.
  rewrite short_not_long_enough; [exact IH|].
  etransitivity; [apply trim_part, slice_part | exact Hshort].
Qed.


Lemma no_viable_part (m : matcher) (t : text) :
  length (trim t) <= MIN_LENGTH -> List.filter viable (split m t) = [].
Proof.
  intros Hshort.
  assert (forall l, (forall p, In p l -> part_of p t) ->
                    List.filter viable l = []) as Hall.
  { induction l as [|p l IH]; intros Hl; [reflexivity|].
    cbn [List.filter]. unfold viable at 1.
    rewrite short_not_long_enough.
    - apply IH. intros q Hq. apply Hl. right. exact Hq.
    - etransitivity; [apply trim_part, Hl; left; reflexivity | exact Hshort]. }
  apply Hall. intros p. apply split_parts.
Qed.

(** X9. A text with at most 20 code units between its first and its last
    non-blank character gives no chunk on either path, whatever it
    contains: every paragraph, sentence and window is a part of the text
    and trims to no more than the text does. *)
Theorem short_text_gives_no_chunk (t : text) :
  length (trim t) <= MIN_LENGTH ->
  chunks_script t = [] /\ chunks_route t = [].
Proof.
  intros Hshort. rewrite <- paths_chunk_alike.
  assert (chunks_script t = []) as ->; [|split; reflexivity].
  destruct (chunks_by_tier t) as [-> _].
  unfold selected_tier, paragraphChunks, sentenceChunks, tier_chunks.
  unfold paragraphChunks, sentenceChunks.
  rewrite !no_viable_part by exact Hshort.
  apply windows_of_short, Hshort.
Qed.

Lemma short_text_gives_no_chunk_witness :
  chunks_script (of_string "   a short note   ") = [] /\
  chunks_route (of_string "   a short note   ") = [].
Proof.
  apply (short_text_gives_no_chunk (of_string "   a short note   ")).
  apply Nat.leb_le. vm_compute. reflexivity.
Defined.

(** *** One small paragraph *)

Lemma blank_line_free_tail c r :
  blank_line_free (c :: r) = true -> blank_line_free r = true.
Proof.
  destruct r as [|d r]; [reflexivity|]. cbn [blank_line_free].
  intros H. apply andb_true_iff in H as [_ H]. exact H.
Qed.

Lemma blank_line_free_no_match s :
  blank_line_free s = true -> re_paragraph s = None.
Proof.
  unfold re_paragraph. destruct s as [|a [|b r]]; cbn [run blank_line_free].
  - reflexivity.
  - intros _. destruct (is_newline a); reflexivity.
  - intros H. apply andb_true_iff in H as [H _].
    destruct (is_newline a); [|reflexivity].
    destruct (is_newline b); [discriminate|reflexivity].
Qed.

Lemma split_go_whole cur s :
  blank_line_free s = true -> split_go re_paragraph 0 cur s = [cur ++ s].
Proof.
  revert cur. induction s as [|c r IH]; intros cur H.
  - simpl. rewrite app_nil_r. reflexivity.
  - cbn [split_go]. rewrite (blank_line_free_no_match _ H).
    rewrite IH by (eapply blank_line_free_tail, H).
    rewrite <- app_assoc. reflexivity.
Qed.

(** X10. A text without a blank line, of at most 2000 code units and with
    more than 20 once trimmed, is one chunk, and that chunk is the text as
    it stands, leading and trailing white space included. *)
Theorem small_paragraph_kept_verbatim (t : text) :
  blank_line_free t = true ->
  length t <= MAX_CHUNK_SIZE ->
  MIN_LENGTH < length (trim t) ->
  chunks_script t = [t] /\ chunks_route t = [t].
Proof.
  intros Hfree Hmax Hmin. rewrite <- paths_chunk_alike.
  assert (chunks_script t = [t]) as ->; [|split; reflexivity].
  destruct (chunks_by_tier t) as [-> _].
  assert (paragraphChunks t = [t]) as Ep.
  { unfold paragraphChunks, split. rewrite (split_go_whole [] t Hfree).
    cbn [app List.filter]. unfold viable.
    apply Nat.ltb_lt in Hmin. rewrite Hmin. reflexivity. }
  unfold selected_tier. rewrite Ep. cbn [tier_chunks]. rewrite Ep.
  cbn [flat_map]. unfold fragment_chunks.
  apply Nat.leb_le in Hmax. rewrite Hmax. reflexivity.
Qed.

Lemma small_paragraph_kept_verbatim_witness :
  let t := of_string "  Ultra replaces the course menu with a single page.  " in
  chunks_script t = [t] /\ chunks_route t = [t].
Proof.
  apply small_paragraph_kept_verbatim.
  - vm_compute. reflexivity.
  - apply Nat.leb_le. vm_compute. reflexivity.
  - apply Nat.ltb_lt. vm_compute. reflexivity.
Defined.

End ChunkerMore.

(** ** More on ingestion *)

Module IngestMore.
Import Js Exn Ingest IngestSpec IngestFacts.

Lemma route_chunk_failure_is_file_failure_witness :
  let st := {| Route.processedFiles := []; Route.totalChunks := 0;
               Route.failedFileDetails := []; Route.index := ∅ |} in
  let st' := Route.file_step (Samples.flaky [Samples.notes]) st
               Samples.notes in
  st' = Route.file_catch Samples.notes st (ErrorObj "rate limit") /\
  Route.processedFiles st' =
    Route.processedFiles st ++
      [{| e_name := interpolate (name Samples.notes); chunks := 0;
          error := Some (errorMessage (ErrorObj "rate limit")) |}] /\
  Route.failedFileDetails st' =
    Route.failedFileDetails st ++
      [(interpolate (name Samples.notes),
        errorMessage (ErrorObj "rate limit"))] /\
  Route.totalChunks st' = Route.totalChunks st /\
  Route.index st' = Route.index st.
Proof.
  apply (route_chunk_failure_is_file_failure (Samples.flaky [Samples.notes])
           _ Samples.notes [1%N] Samples.two_paragraphs
           [repeat 97%N 30] (repeat 98%N 30) [] (ErrorObj "rate limit")).
  - reflexivity.
  - reflexivity.
  - discriminate.
  - reflexivity.
  - vm_compute. reflexivity.
  - vm_compute. reflexivity.
  - constructor; [|constructor]. eexists. reflexivity.
  - reflexivity.
Defined.

(** *** Error messages of the script are cut at 100 characters *)

Lemma substring_length_le (n : nat) (s : string) :
  String.length (String.substring 0 n s) <= n.
Proof.
  revert s. induction n as [|n IH]; intros s.
  - destruct s; simpl; lia.
  - destruct s as [|c s]; simpl; [lia|]. specialize (IH s). lia.
Qed.

Lemma script_entry_message_short env f e m :
  script_entry env f e -> error e = Some m -> String.length m <= 100.
Proof.
  intros [_ [[[Hnone _]|[_ [m' [Hm Horigin]]]] _]] He; [congruence|].
  rewrite Hm in He. injection He as <-.
  destruct Horigin as [Hfixed|[t [_ ->]]].
  - simpl in Hfixed.
    destruct Hfixed as [<-|[<-|[<-|[]]]]; apply Nat.leb_le; reflexivity.
  - apply substring_length_le.
Qed.

(** X5. Every error message in the script's report has at most 100
    characters: a thrown message is cut by [substring(0, 100)] and the
    script's own messages are shorter. *)
Theorem script_error_messages_bounded (env : Env) (folderId : option string)
    (ix : store) :
  Forall (fun e => forall m, error e = Some m -> String.length m <= 100)
    (script_entries (Script.vectorizeDriveFiles env folderId ix).1).
Proof.
  unfold Script.vectorizeDriveFiles.
  destruct (falsy folderId); [constructor|].
  destruct (listFilesInFolder env _) as [t|files]; [constructor|].
  destruct (length files =? 0); [constructor|].
  destruct (script_loop env files) as [es [W [HF Hrun]]].
  cbn [fst script_entries].
  match goal with
  | |- context [foldl (Script.file_step env) ?st files] =>
      destruct (Hrun st) as [-> _]
  end.
  cbn [Script.processedFiles app]. clear Hrun.
  induction HF as [|f e fs es' He _ IH].
  - constructor.
  - constructor; [|exact IH].
    intros m. apply (script_entry_message_short env f e m He).
Qed.


(** *** What the script's chunk loop leaves in the index *)

Lemma decimal_inj (a b : nat) : decimal a = decimal b -> a = b.
Proof.
  unfold decimal. intros H.
  apply (f_equal DecimalString.NilEmpty.uint_of_string) in H.
  rewrite !DecimalString.NilEmpty.usu in H. injection H as H.
  apply DecimalNat.Unsigned.to_uint_inj, H.
Qed.

Lemma script_vector_id_inj (file : File) (a b : nat) :
  Script.vector_id file a = Script.vector_id file b -> a = b.
Proof.
  unfold Script.vector_id. intros H.
  apply append_cancel_l in H. apply (append_cancel_l "_chunk_") in H.
  apply decimal_inj, H.
Qed.

Lemma chunk_step_index env file j c n0 (ix : store) key :
  key <> Script.vector_id file j ->
  (Script.chunk_step env file j c (n0, ix)).2 !! key = ix !! key.
Proof.
  intros Hne. rewrite chunk_step_spec.
  destruct (chunk_ok env file j c); [|reflexivity].
  destruct (getEmbedding env c); [reflexivity|].
  cbn [snd]. apply lookup_insert_ne. congruence.
Qed.

Lemma chunk_step_pair env file j c (st : nat * store) :
  Script.chunk_step env file j c st =
  Script.chunk_step env file j c (st.1, st.2).
Proof. destruct st. reflexivity. Qed.

(** Ids the loop does not form are left alone. *)
Lemma chunk_loop_elsewhere env file chunks :
  forall j n0 (ix : store) key,
    (forall k, k < length chunks -> key <> Script.vector_id file (j + k)) ->
    (Script.chunk_loop env file j chunks (n0, ix)).2 !! key = ix !! key.
Proof.
  induction chunks as [|c rest IH]; intros j n0 ix key Hkey; [reflexivity|].
  cbn [Script.chunk_loop].
  destruct (Script.chunk_step env file j c (n0, ix)) as [n1 ix1] eqn:E.
  rewrite IH.
  - change ix1 with (n1, ix1).2. rewrite <- E. apply chunk_step_index.
    specialize (Hkey 0). rewrite Nat.add_0_r in Hkey. apply Hkey. simpl. lia.
  - intros k Hk. replace (S j + k) with (j + S k) by lia.
    apply Hkey. simpl. lia.
Qed.

Lemma chunk_loop_slot env file chunks :
  forall j n0 (ix : store) k c,
    chunks !! k = Some c ->
    (Script.chunk_loop env file j chunks (n0, ix)).2
      !! Script.vector_id file (j + k) =
    match getEmbedding env c with
    | inr emb =>
        if chunk_ok env file (j + k) c
        then Some (Script.vector_of file (j + k) c emb)
        else ix !! Script.vector_id file (j + k)
    | inl _ => ix !! Script.vector_id file (j + k)
    end.
Proof.
  induction chunks as [|c0 rest IH]; intros j n0 ix k c Hk.
  - rewrite lookup_nil in Hk. discriminate.
  - cbn [Script.chunk_loop].
    destruct (Script.chunk_step env file j c0 (n0, ix)) as [n1 ix1] eqn:E.
    destruct k as [|k].
    + simpl in Hk. injection Hk as ->. rewrite Nat.add_0_r.
      rewrite chunk_loop_elsewhere.
      * rewrite chunk_step_spec in E.
        destruct (chunk_ok env file j c) eqn:Eok.
        -- destruct (getEmbedding env c) as [t|emb] eqn:Ee.
           ++ unfold chunk_ok in Eok. rewrite Ee in Eok. discriminate.
           ++ injection E as _ <-. apply lookup_insert_eq.
        -- injection E as _ <-. destruct (getEmbedding env c); reflexivity.
      * intros k _ H. apply script_vector_id_inj in H. lia.
    + cbn [lookup] in Hk. simpl in Hk.
      replace (j + S k) with (S j + k) by lia.
      rewrite (IH (S j) n1 ix1 k c Hk).
      assert (ix1 !! Script.vector_id file (S j + k) =
              ix !! Script.vector_id file (S j + k)) as ->.
      { change ix1 with (n1, ix1).2. rewrite <- E. apply chunk_step_index.
        intros H. apply script_vector_id_inj in H. lia. }
      reflexivity.
Qed.

(** X6. After the script's chunk loop over a file, the index holds under
    the id of chunk [k] the vector of that chunk (its text, its position,
    the file's id and the embedding that was computed) when its embedding
    and upsert succeeded; when either threw, the slot is as it was before
    the loop, so a vector left there by an earlier sync stays. *)
Theorem script_index_after_chunk_loop (env : Env) (file : File)
    (chunks : list Js.text) (ix : store) (k : nat) (c : Js.text) :
  chunks !! k = Some c ->
  (Script.chunk_loop env file 0 chunks (0, ix)).2 !! Script.vector_id file k =
  match getEmbedding env c with
  | inr emb =>
      if chunk_ok env file k c
      then Some {| vid := Script.vector_id file k;
                   values := emb;
                   metadata :=
                     {| title := or_default (name file) "Untitled";
                        text := c;
                        fileId := id file;
                        chunkIndex := k;
                        md_mimeType := mimeType file;
                        md_modifiedTime := modifiedTime file |} |}
      else ix !! Script.vector_id file k
  | inl _ => ix !! Script.vector_id file k
  end.
Proof. intros Hk. apply (chunk_loop_slot env file chunks 0 0 ix k c Hk). Qed.

Lemma script_index_after_chunk_loop_witness :
  let env := Samples.flaky [Samples.notes] in
  let chunks := [repeat 97%N 30; repeat 98%N 30] in
  (Script.chunk_loop env Samples.notes 0 chunks (0, ∅)).2
    !! Script.vector_id Samples.notes 1 = None.
Proof.
  exact (script_index_after_chunk_loop (Samples.flaky [Samples.notes])
           Samples.notes [repeat 97%N 30; repeat 98%N 30] ∅ 1
           (repeat 98%N 30) eq_refl).
Defined.


(** *** The route hands the index all the chunks of a file or none *)

Lemma route_vector_id_inj (file : File) (a b : nat) :
  Route.vector_id file a = Route.vector_id file b -> a = b.
Proof.
  unfold Route.vector_id. intros H.
  apply append_cancel_l in H. apply (append_cancel_l "-chunk-") in H.
  apply decimal_inj, H.
Qed.

Lemma foldl_ins_other (vs : list Vector) (m : store) key :
  (forall v, In v vs -> vid v <> key) ->
  foldl (fun m v => <[vid v := v]> m) m vs !! key = m !! key.
Proof.
  revert m. induction vs as [|v vs IH]; intros m H; [reflexivity|].
  cbn [foldl]. rewrite IH by (intros w Hw; apply H; right; exact Hw).
  apply lookup_insert_ne. apply H. left. reflexivity.
Qed.

Lemma foldl_ins_lookup (vs : list Vector) :
  forall (m : store) k v,
    (forall i j vi vj, vs !! i = Some vi -> vs !! j = Some vj ->
                       vid vi = vid vj -> i = j) ->
    vs !! k = Some v ->
    foldl (fun m v => <[vid v := v]> m) m vs !! vid v = Some v.
Proof.
  induction vs as [|v0 vs IH]; intros m k v Hinj Hk.
  - rewrite lookup_nil in Hk. discriminate.
  - cbn [foldl]. destruct k as [|k].
    + simpl in Hk. injection Hk as <-.
      rewrite foldl_ins_other; [apply lookup_insert_eq|].
      intros w Hw E. apply list_elem_of_In, list_elem_of_lookup in Hw as [i Hi].
      specialize (Hinj (S i) 0 w v0 Hi eq_refl E). discriminate.
    + apply (IH _ k v); [|exact Hk].
      intros i j vi vj Hi Hj E.
      specialize (Hinj (S i) (S j) vi vj Hi Hj E). lia.
Qed.

(** X7. The route never hands the index part of a file.  When a listed
    file has a batch (it passes every step before the upsert, and the
    batch holds one vector per chunk, in chunk order), the route hands the
    index exactly this batch, in one upsert: when the upsert returns, the
    index is what it returned and the total grows by the number of chunks;
    when it throws, the file is reported as failed with the message of
    what it threw and the total is unchanged.  When the file has no batch,
    nothing is handed over: the index and the total are as they were. *)
Theorem route_upserts_whole_files (env : Env) (st : Route.State) (f : File) :
  let st' := Route.file_step env st f in
  (forall vectors, whole_batch env f vectors ->
     match upsertToPinecone env vectors (Route.index st) with
     | inr ix =>
         Route.index st' = ix /\
         Route.totalChunks st' = Route.totalChunks st + length vectors /\
         Route.processedFiles st' =
           Route.processedFiles st ++
             [{| e_name := interpolate (name f); chunks := length vectors;
                 error := None |}]
     | inl t =>
         Route.totalChunks st' = Route.totalChunks st /\
         Route.processedFiles st' =
           Route.processedFiles st ++
             [{| e_name := interpolate (name f); chunks := 0;
                 error := Some (errorMessage t) |}]
     end) /\
  ((forall vectors, ~ whole_batch env f vectors) ->
   Route.index st' = Route.index st /\
   Route.totalChunks st' = Route.totalChunks st).
Proof.
  cbv zeta. split.
  - intros vectors (Hel & buffer & txt & Hc & Hb & He & Ht & Hne & Hlen & Hall).
    unfold Route.file_step. unfold eligible in Hel.
    apply negb_true_iff in Hel. rewrite Hel, Hc.
    apply Nat.eqb_neq in Hb. rewrite Hb, He, Ht.
    replace (length (Chunker.chunks_route txt) =? 0) with false
      by (symmetry; apply Nat.eqb_neq;
          destruct (Chunker.chunks_route txt); [contradiction|discriminate]).
    rewrite (embed_loop_whole env f _ 0 [] vectors Hlen Hall). cbn [app].
    destruct (upsertToPinecone env vectors (Route.index st)) as [t|ix];
      repeat split.
  - intros Hnone. unfold Route.file_step.
    destruct (falsy (id f) || falsy (name f)) eqn:Hel; [split; reflexivity|].
    destruct (getFileContent env (id f) _) as [t|buffer] eqn:Ec;
      [split; reflexivity|].
    destruct (length buffer =? 0) eqn:Eb; [split; reflexivity|].
    destruct (extractTextFromDocument env buffer _) as [t|txt] eqn:Ee;
      [split; reflexivity|].
    destruct (no_text txt) eqn:Et; [split; reflexivity|].
    destruct (length (Chunker.chunks_route txt) =? 0) eqn:El;
      [split; reflexivity|].
    destruct (Route.embed_loop env f 0 (Chunker.chunks_route txt) [])
      as [t|vectors] eqn:Eloop; [split; reflexivity|].
    exfalso. apply (Hnone vectors).
    destruct (embed_loop_vectors env f _ 0 [] vectors Eloop)
      as [new [-> [Hlen Hnew]]]. cbn [app].
    split; [unfold eligible; rewrite Hel; reflexivity|].
    exists buffer, txt. split; [exact Ec|].
    split; [apply Nat.eqb_neq, Eb|]. split; [exact Ee|].
    split; [exact Et|].
    split; [intros Hnil; rewrite Hnil in El; discriminate|].
    split; [exact Hlen|]. exact Hnew.
Qed.

(** One file of two chunks, every collaborator succeeding: the batch holds
    the two vectors and both are in the index afterwards. *)
Example whole_file_upserted :
  let env := Samples.healthy [Samples.notes] in
  let st := {| Route.processedFiles := []; Route.totalChunks := 0;
               Route.failedFileDetails := []; Route.index := ∅ |} in
  whole_batch env Samples.notes
    [Route.vector_of Samples.notes 0 (repeat 97%N 30) [1 # 2];
     Route.vector_of Samples.notes 1 (repeat 98%N 30) [1 # 2]] /\
  map fst (map_to_list (Route.index (Route.file_step env st Samples.notes))) =
    ["f1-chunk-1"; "f1-chunk-0"] /\
  Route.totalChunks (Route.file_step env st Samples.notes) = 2.
Proof.
  split; [|split; vm_compute; reflexivity].
  split; [reflexivity|]. exists [1%N], Samples.two_paragraphs.
  split; [reflexivity|]. split; [discriminate|]. split; [reflexivity|].
  split; [vm_compute; reflexivity|].
  assert (Chunker.chunks_route Samples.two_paragraphs =
          [repeat 97%N 30; repeat 98%N 30]) as -> by (vm_compute; reflexivity).
  split; [discriminate|]. split; [reflexivity|].
  intros [|[|k]] c Hk; try discriminate; injection Hk as <-;
    exists [1 # 2]; split; reflexivity.
Qed.

End IngestMore.

(** ** More on retrieval *)

Module ChatMore.
Import Exn Chat.


Lemma append_nonempty (a b : string) :
  a <> EmptyString -> (a ++ b)%string <> EmptyString.
Proof. destruct a; [congruence | discriminate]. Qed.

Lemma render_nonempty (m : Match) : render m <> EmptyString.
Proof. unfold render. discriminate. Qed.

Lemma context_empty (matches : list Match) :
  context matches = EmptyString <-> matches = [].
Proof.
  unfold context. split; [|intros ->; reflexivity].
  destruct matches as [|m [|m' rest]]; [reflexivity| |].
  - simpl. intros H. destruct (render_nonempty m H).
  - cbn [map join]. intros H. exfalso.
    revert H. apply append_nonempty, render_nonempty.
Qed.

(** X12. In a 200 reply the sources mirror the matches the route worked
    with: one source per match, in rank order, with the match's id; and
    [contextUsed] is true exactly when there is at least one source, which
    is exactly when the context handed to the generator is not empty. *)
Theorem chat_sources_mirror_matches (env : Env) (message : option string)
    (history : list ChatMessage) (a : Answer) :
  POST env message history = Status200 a ->
  exists emb,
    getEmbedding env (interpolate message) = inr emb /\
    map s_id (sources a) = map m_id (retrieve env emb) /\
    length (sources a) = length (retrieve env emb) /\
    (contextUsed a = true <-> sources a <> []) /\
    (contextUsed a = true <-> context (retrieve env emb) <> EmptyString).
Proof.
  unfold POST. destruct (falsy message); [discriminate|].
  destruct (getEmbedding env _) as [t|emb]; [unfold outer_catch; discriminate|].
  destruct (chatCompletion env _ _) as [t|answer];
    [unfold outer_catch; discriminate|].
  intros H. injection H as <-. exists emb. cbn [sources contextUsed].
  split; [reflexivity|].
  split; [rewrite map_map; reflexivity|].
  split; [apply length_map|].
  rewrite context_empty.
  destruct (retrieve env emb) as [|m ms]; simpl; split; split;
    try discriminate; try congruence; reflexivity.
Qed.

Lemma chat_sources_mirror_matches_witness :
  exists emb,
    getEmbedding MoreSamples.two_matches "What changed?" = inr emb /\
    map s_id [source_of {| m_id := "f1-chunk-0"; score := Some (9 # 10);
                           metadata := None |};
              source_of {| m_id := "f1-chunk-1"; score := Some (1 # 2);
                           metadata := None |}] =
      map m_id (retrieve MoreSamples.two_matches emb) /\
    2 = length (retrieve MoreSamples.two_matches emb) /\
    (true = true <->
     [source_of {| m_id := "f1-chunk-0"; score := Some (9 # 10);
                   metadata := None |};
      source_of {| m_id := "f1-chunk-1"; score := Some (1 # 2);
                   metadata := None |}] <> []) /\
    (true = true <->
     context (retrieve MoreSamples.two_matches emb) <> EmptyString).
Proof.
  exact (chat_sources_mirror_matches MoreSamples.two_matches
           (Some "What changed?") [] _ eq_refl).
Defined.

End ChatMore.

(** ** More on content review *)

Module AnalyzeMore.
Import Exn Analyze AnalyzeSpec AnalyzeSpec2 AnalyzeFacts.

(** *** A null among the issues *)

Lemma filter_first_null self index l :
  In None l -> exists t, filter_first self index l = inl t.
Proof.
  revert index. induction l as [|issue l IH]; intros index Hin; [destruct Hin|].
  cbn [filter_first].
  destruct (findIndex (same_key issue) self 0) as [t|k]; [eauto|].
  destruct issue as [obj|]; [|eauto].
  destruct Hin as [Hin|Hin]; [discriminate|].
  destruct (IH (index + 1)%Z Hin) as [t ->]. eauto.
Qed.

Lemma uniqueIssuesOf_null (all : list (option Issue)) :
  In None all -> uniqueIssuesOf all = inl (null_property "currentText").
Proof.
  intros Hin. unfold uniqueIssuesOf.
  destruct (filter_first_null all 0 all Hin) as [t E].
  rewrite E. f_equal. eapply filter_first_throws, E.
Qed.

(** X13. One [null] among the issues of the model's answer fails the
    page, wherever it stands and whatever else the answer and the detector
    found: the result of the URL is a failure whose error is the
    TypeError of reading [currentText] of null. *)
Theorem null_issue_fails_the_page (env : Env) (st : State) (u : string)
    (page : Page) (answer : Analysis) (l : list (option Issue)) :
  fetchPageContent env u = Some page ->
  (forall outdated ctx, modelAnalysis env page outdated ctx = inr answer) ->
  issues answer = Some l ->
  In None l ->
  results (url_step env st u) =
    results st ++
      [failure u "Cannot read properties of null (reading 'currentText')"
         ["Analysis failed: Cannot read properties of null (reading 'currentText')"]
         "Analysis failed: Cannot read properties of null (reading 'currentText')"].
Proof.
  intros Hf Hm Hi Hnull. unfold url_step. rewrite Hf. cbn [results].
  unfold analyze_page. rewrite Hm. unfold aggregate.
  rewrite uniqueIssuesOf_null; [reflexivity|].
  unfold allIssues. rewrite Hi. apply in_or_app. left. exact Hnull.
Qed.

Lemma null_issue_fails_the_page_witness :
  let env := Samples.site "b" (Samples.answer None None
                                 (Some [Some MoreSamples.silent_issue; None])) in
  results (url_step env {| results := []; fetched := [] |} "a") =
    [failure "a" "Cannot read properties of null (reading 'currentText')"
       ["Analysis failed: Cannot read properties of null (reading 'currentText')"]
       "Analysis failed: Cannot read properties of null (reading 'currentText')"].
Proof.
  apply (null_issue_fails_the_page
           (Samples.site "b" (Samples.answer None None
                                (Some [Some MoreSamples.silent_issue; None])))
           {| results := []; fetched := [] |} "a"
           {| html := "<p>page</p>"; p_text := "page" |}
           (Samples.answer None None (Some [Some MoreSamples.silent_issue; None]))
           [Some MoreSamples.silent_issue; None]).
  - reflexivity.
  - intros; reflexivity.
  - reflexivity.
  - right. left. reflexivity.
Defined.

(** *** Deduplicating twice *)

Lemma objects_only (all : list (option Issue)) :
  ~ In None all -> exists l, all = map Some l.
Proof.
  induction all as [|[x|] all IH]; intros H.
  - exists []. reflexivity.
  - destruct IH as [l ->]; [intros Hin; apply H; right; exact Hin|].
    exists (x :: l). reflexivity.
  - exfalso. apply H. left. reflexivity.
Qed.

(** X14. Deduplication is idempotent: the issues it returns, deduplicated
    again, come back unchanged. *)
Theorem deduplication_idempotent (all : list (option Issue))
    (unique : list Issue) :
  uniqueIssuesOf all = inr unique ->
  uniqueIssuesOf (map Some unique) = inr unique.
Proof.
  intros H.
  assert (~ In None all) as Hobj.
  { intros Hin. rewrite (uniqueIssuesOf_null all Hin) in H. discriminate. }
  destruct (objects_only all Hobj) as [l ->].
  rewrite uniqueIssuesOf_objects in H. injection H as <-.
  rewrite uniqueIssuesOf_objects. f_equal.
  apply first_by_key_distinct; [apply first_by_key_NoDup|].
  intros i _. apply not_elem_of_nil.
Qed.

Lemma deduplication_idempotent_witness :
  uniqueIssuesOf
    (map Some [Samples.plain_issue "Blackboard Learn" "Header" "first wording"]) =
  inr [Samples.plain_issue "Blackboard Learn" "Header" "first wording"].
Proof.
  apply (deduplication_idempotent
           [Some (Samples.plain_issue "Blackboard Learn" "Header" "first wording");
            Some (Samples.plain_issue "Blackboard Learn" "Header" "second wording")]).
  vm_compute. reflexivity.
Defined.


(** *** Splitting a request *)

(** X15. The result of a URL does not depend on what else is in the
    request: when two lists of URLs are analysed in one request of at most
    100 URLs, the results are those of the first list followed by those of
    the second, as two separate requests return them. *)
Theorem results_of_concatenated_requests (env : Env) (a b : list string)
    (ra rb : list Result) :
  (POST env (Some a)).1 = Status200 ra ->
  (POST env (Some b)).1 = Status200 rb ->
  length (a ++ b) <= 100 ->
  POST env (Some (a ++ b)) = (Status200 (ra ++ rb), a ++ b).
Proof.
  unfold POST. intros Ha Hb Hlen.
  destruct (length a =? 0) eqn:Ea; [discriminate|].
  destruct (length b =? 0) eqn:Eb; [discriminate|].
  rewrite length_app in Hlen.
  replace (100 <? length a) with false in Ha
    by (symmetry; apply Nat.ltb_ge; lia).
  replace (100 <? length b) with false in Hb
    by (symmetry; apply Nat.ltb_ge; lia).
  apply Nat.eqb_neq in Ea.
  replace (length (a ++ b) =? 0) with false
    by (symmetry; apply Nat.eqb_neq; rewrite length_app; lia).
  replace (100 <? length (a ++ b)) with false
    by (symmetry; apply Nat.ltb_ge; rewrite length_app; lia).
  destruct (url_loop env a) as [rsa [_ Hra]].
  destruct (url_loop env b) as [rsb [_ Hrb]].
  cbn [fst] in Ha, Hb. injection Ha as Ha. injection Hb as Hb.
  rewrite foldl_app.
  destruct (Hrb (foldl (url_step env) {| results := []; fetched := [] |} a))
    as [-> ->].
  destruct (Hra {| results := []; fetched := [] |}) as [Era Efa].
  destruct (Hrb {| results := []; fetched := [] |}) as [Erb _].
  rewrite Era in Ha. rewrite Erb in Hb. cbn [results app] in Ha, Hb.
  subst rsa rsb. rewrite Era, Efa. reflexivity.
Qed.

Lemma results_of_concatenated_requests_witness :
  exists ra rb,
    POST (Samples.site "b" Samples.silent) (Some (["a"] ++ ["b"])) =
    (Status200 (ra ++ rb), ["a"] ++ ["b"]).
Proof.
  eexists _, _.
  apply (results_of_concatenated_requests
           (Samples.site "b" Samples.silent) ["a"] ["b"]).
  - vm_compute. reflexivity.
  - vm_compute. reflexivity.
  - apply Nat.leb_le. reflexivity.
Defined.

(** *** When the model path throws *)

Lemma first_by_key_seen_all seen l :
  (forall i, i ∈ l -> key i ∈ seen) -> first_by_key seen l = [].
Proof.
  induction l as [|x l IH]; intros H; [reflexivity|]. cbn [first_by_key].
  rewrite bool_decide_eq_true_2 by (apply H; left).
  apply IH. intros i Hi. apply H. right. exact Hi.
Qed.

Lemma first_by_key_app seen l1 l2 :
  (forall i, i ∈ l2 -> key i ∈ seen \/ key i ∈ map key l1) ->
  first_by_key seen (l1 ++ l2) = first_by_key seen l1.
Proof.
  revert seen. induction l1 as [|x l1 IH]; intros seen H.
  - cbn [app first_by_key]. apply first_by_key_seen_all.
    intros i Hi. destruct (H i Hi) as [Hs|Hn]; [exact Hs|].
    cbn [map] in Hn. apply elem_of_nil in Hn. contradiction.
  - cbn [app first_by_key]. destruct (bool_decide (key x ∈ seen)) eqn:E.
    + apply IH. intros i Hi. destruct (H i Hi) as [Hs|Hn]; [left; exact Hs|].
      cbn [map] in Hn. apply elem_of_cons in Hn as [->|Hn].
      * left. apply bool_decide_eq_true_1 in E. exact E.
      * right. exact Hn.
    + f_equal. apply IH. intros i Hi.
      destruct (H i Hi) as [Hs|Hn]; [left; right; exact Hs|].
      cbn [map] in Hn. apply elem_of_cons in Hn as [->|Hn].
      * left. left.
      * right. exact Hn.
Qed.

Lemma fallback_issues (detected : list OutdatedIssue) :
  issues (fallback detected) = Some (map Some (map fallback_issue detected)).
Proof. unfold fallback. cbn [issues]. rewrite map_map. reflexivity. Qed.

Lemma fallback_key (i : OutdatedIssue) :
  key (fallback_issue i) = (Str (term i), of_option (o_location i)).
Proof. reflexivity. Qed.

Lemma fallback_unique (detected : list OutdatedIssue) :
  uniqueIssuesOf (allIssues (fallback detected) detected) =
  inr (first_by_key [] (map fallback_issue detected)).
Proof.
  unfold allIssues. rewrite fallback_issues. cbn [default from_option id].
  rewrite <- (map_map heuristic_issue Some), <- map_app.
  rewrite uniqueIssuesOf_objects. f_equal.
  apply first_by_key_app. intros i Hi. right.
  apply elem_of_map in Hi as [d [-> Hd]].
  rewrite heuristic_key, map_map. apply elem_of_map. exists d.
  split; [reflexivity | exact Hd].
Qed.

(** X16. When the model path throws, the page is still a success, built
    from the detector alone: its issues are the detected terms, one per
    (term, location), in the form the fallback gives them (without a
    priority), so there are no more issues than detected terms; and its
    risk level is "low" exactly when nothing was detected, "high" or
    "medium" otherwise. *)
Theorem model_failure_falls_back (env : Env) (u : string) (page : Page)
    (t : thrown) :
  (forall outdated ctx, modelAnalysis env page outdated ctx = inl t) ->
  exists r,
    analyze_page env u page = inr r /\
    success r = true /\
    r_issues r =
      first_by_key []
        (map fallback_issue (detectOutdatedTerminology env (p_text page))) /\
    Forall (fun i => priority i = None) (r_issues r) /\
    length (r_issues r) <=
      length (detectOutdatedTerminology env (p_text page)) /\
    (r_riskLevel r = "low" <->
       detectOutdatedTerminology env (p_text page) = []) /\
    (r_riskLevel r = "low" \/ r_riskLevel r = "medium" \/ r_riskLevel r = "high").
Proof.
  intros Hm. unfold analyze_page. rewrite Hm.
  set (detected := detectOutdatedTerminology env (p_text page)).
  unfold aggregate. rewrite fallback_unique.
  set (unique := first_by_key [] (map fallback_issue detected)).
  eexists. split; [reflexivity|]. cbn [success r_issues r_riskLevel
    uniqueIssues overallRiskLevel].
  split; [reflexivity|]. split; [reflexivity|].
  assert (sublist unique (map fallback_issue detected)) as Hsub
    by apply first_by_key_sublist.
  split; [|split].
  - apply List.Forall_forall. intros i Hi.
    apply list_elem_of_In in Hi.
    eapply elem_of_sublist in Hi; [|exact Hsub].
    apply elem_of_map in Hi as [d [-> _]]. reflexivity.
  - apply sublist_length in Hsub. rewrite length_map in Hsub. exact Hsub.
  - rewrite overallRiskLevelOf_amended. unfold amended_overallSeverity.
    destruct detected as [|d ds] eqn:Ed.
    + subst unique. cbn. split; [split; reflexivity | left; reflexivity].
    + cbn [fallback riskLevel length Nat.ltb Nat.leb or_default String.eqb].
      destruct (existsb escalates unique || _).
      * split; [split; discriminate | right; right; reflexivity].
      * destruct (existsb _ unique || _).
        -- split; [split; discriminate | right; left; reflexivity].
        -- cbn. split; [split; discriminate | right; right; reflexivity].
Qed.

Lemma model_failure_falls_back_witness :
  let env := MoreSamples.model_down in
  let page := MoreSamples.a_page in
  exists r,
    analyze_page env "https://a.example" page = inr r /\
    success r = true /\
    r_issues r =
      first_by_key []
        (map fallback_issue (detectOutdatedTerminology env (p_text page))) /\
    Forall (fun i => priority i = None) (r_issues r) /\
    length (r_issues r) <=
      length (detectOutdatedTerminology env (p_text page)) /\
    (r_riskLevel r = "low" <->
       detectOutdatedTerminology env (p_text page) = []) /\
    (r_riskLevel r = "low" \/ r_riskLevel r = "medium" \/ r_riskLevel r = "high").
Proof.
  apply (model_failure_falls_back MoreSamples.model_down "https://a.example"
           MoreSamples.a_page (ErrorObj "timeout")).
  reflexivity.
Defined.

End AnalyzeMore.

(** ** Document preview *)

Module PreviewFacts.
Import Exn Preview.

Lemma place_permutation x l : Permutation (place x l) (x :: l).
Proof.
  induction l as [|y l IH]; cbn [place]; [reflexivity|].
  destruct (sort_index x <? sort_index y); [reflexivity|].
  rewrite IH. apply perm_swap.
Qed.

Lemma sort_accumulates l :
  forall acc, Permutation (foldl (fun sorted x => place x sorted) acc l)
                          (acc ++ l).
Proof.
  induction l as [|x l IH]; intros acc; cbn [foldl].
  - rewrite app_nil_r. reflexivity.
  - rewrite IH, place_permutation.
    change (x :: acc) with ([x] ++ acc).
    rewrite (Permutation_app_comm [x] acc), <- app_assoc. reflexivity.
Qed.

Lemma sort_permutation l : Permutation (sort l) l.
Proof. apply (sort_accumulates l []). Qed.

Lemma place_sorted x l :
  StronglySorted by_index l -> StronglySorted by_index (place x l).
Proof.
  induction 1 as [|y l Hl IH Hy]; cbn [place].
  - repeat constructor.
  - destruct (sort_index x <? sort_index y) eqn:E.
    + apply Nat.ltb_lt in E. constructor; [constructor; assumption|].
      constructor; [unfold by_index; lia|].
      eapply Forall_impl; [exact Hy|]. unfold by_index. intros z Hz. lia.
    + apply Nat.ltb_ge in E. constructor; [exact IH|].
      apply List.Forall_forall. intros z Hz.
      apply (Permutation_in _ (place_permutation x l)) in Hz.
      destruct Hz as [<-|Hz]; [exact E|].
      rewrite List.Forall_forall in Hy. apply Hy, Hz.
Qed.

Lemma sort_sorted l : StronglySorted by_index (sort l).
Proof.
  unfold sort.
  assert (forall acc, StronglySorted by_index acc ->
            StronglySorted by_index
              (foldl (fun sorted x => place x sorted) acc l)) as H.
  { induction l as [|x l IH]; intros acc Hacc; cbn [foldl]; [exact Hacc|].
    apply IH, place_sorted, Hacc. }
  apply H. constructor.
Qed.

Lemma filter_none {A} (p : A -> bool) (l : list A) :
  (forall z, In z l -> p z = false) -> List.filter p l = [].
Proof.
  induction l as [|w ws IH]; intros H; [reflexivity|]. cbn [List.filter].
  rewrite (H w) by (left; reflexivity).
  apply IH. intros z Hz. apply H. right. exact Hz.
Qed.

(** Matches with the same index keep the order they came in. *)
Lemma place_stable k x l :
  StronglySorted by_index l ->
  List.filter (at_index k) (place x l) =
  List.filter (at_index k) l ++ List.filter (at_index k) [x].
Proof.
  induction 1 as [|y l Hl IH Hy]; cbn [place]; [reflexivity|].
  destruct (sort_index x <? sort_index y) eqn:E.
  - apply Nat.ltb_lt in E.
    change (x :: y :: l) with ([x] ++ (y :: l)). rewrite List.filter_app.
    destruct (at_index k x) eqn:Ex.
    + rewrite (filter_none (at_index k) (y :: l));
        [rewrite app_nil_r; reflexivity|].
      unfold at_index in *. apply Nat.eqb_eq in Ex.
      intros z [<-|Hz]; apply Nat.eqb_neq; [lia|].
      rewrite List.Forall_forall in Hy. specialize (Hy z Hz).
      unfold by_index in Hy. lia.
    + cbn [List.filter]. rewrite Ex. rewrite app_nil_r. reflexivity.
  - cbn [List.filter]. destruct (at_index k y); rewrite IH; reflexivity.
Qed.

Lemma sort_stable k l :
  List.filter (at_index k) (sort l) = List.filter (at_index k) l.
Proof.
  unfold sort.
  assert (forall acc, StronglySorted by_index acc ->
            List.filter (at_index k)
              (foldl (fun sorted x => place x sorted) acc l) =
            List.filter (at_index k) acc ++ List.filter (at_index k) l) as H.
  { induction l as [|x l IH]; intros acc Hacc; cbn [foldl].
    - rewrite app_nil_r. reflexivity.
    - rewrite IH by (apply place_sorted, Hacc).
      rewrite place_stable by exact Hacc.
      rewrite <- app_assoc. f_equal.
      cbn [List.filter]. destruct (at_index k x); reflexivity. }
  apply (H [] (SSorted_nil _)).
Qed.

Lemma imap_ids (l : list Match) :
  forall f : nat -> Match -> Chunk,
    (forall i m, c_id (f i m) = m_id m) ->
    map c_id (imap f l) = map m_id l.
Proof.
  induction l as [|m l IH]; intros f Hf; [reflexivity|].
  cbn [imap map]. rewrite Hf. f_equal. apply IH. intros i m'. apply Hf.
Qed.

(** X17. A successful preview lists the chunks of the requested file and
    only those: the ids of the chunks are, up to order, the ids of the
    matches the index returned whose file id (under either spelling) is
    the requested one; there is at least one, and [chunkCount] counts
    them. *)
Theorem preview_lists_the_file
    (queryPineconeByFileId : string -> result (list Match))
    (fileId : option string) (chunks : list Chunk) (fid : string) (n : nat) :
  POST queryPineconeByFileId fileId = Found chunks fid n ->
  fid = interpolate fileId /\
  exists matches,
    queryPineconeByFileId fid = inr matches /\
    Permutation (map c_id chunks)
      (map m_id (List.filter (belongs fid) matches)) /\
    n = length chunks /\ 0 < n.
Proof.
  unfold POST. destruct (falsy fileId); [discriminate|].
  destruct (queryPineconeByFileId (interpolate fileId)) as [t|matches] eqn:Eq;
    [discriminate|].
  destruct (length _ =? 0) eqn:El; [discriminate|].
  intros H. injection H as <- <- <-. split; [reflexivity|].
  exists matches. split; [exact Eq|].
  split; [|split; [reflexivity|]].
  - rewrite imap_ids by reflexivity.
    apply Permutation_map, sort_permutation.
  - rewrite length_imap. apply Nat.eqb_neq in El.
    rewrite (Permutation_length (sort_permutation _)). lia.
Qed.


Lemma preview_lists_the_file_witness :
  "f1" = interpolate (Some "f1") /\
  exists matches,
    MoreSamples.small_index "f1" = inr matches /\
    Permutation
      (map c_id [chunk_of 0 (MoreSamples.stored "f1" 0);
                 chunk_of 1 (MoreSamples.stored "f1" 1)])
      (map m_id (List.filter (belongs "f1") matches)) /\
    2 = length [chunk_of 0 (MoreSamples.stored "f1" 0);
                chunk_of 1 (MoreSamples.stored "f1" 1)] /\
    0 < 2.
Proof.
  exact (preview_lists_the_file MoreSamples.small_index (Some "f1")
           [chunk_of 0 (MoreSamples.stored "f1" 0);
            chunk_of 1 (MoreSamples.stored "f1" 1)] "f1" 2 eq_refl).
Defined.

Lemma chunk_index_reported (p : nat) (m : Match) :
  c_chunkIndex (chunk_of p m) =
  if sort_index m =? 0 then p else sort_index m.
Proof.
  unfold chunk_of, sort_index, first_truthy. cbn [c_chunkIndex].
  destruct (meta chunkIndex m) as [[|a]|];
    destruct (meta chunk_index m) as [[|b]|]; reflexivity.
Qed.

(** X18. The chunks of a successful preview are listed by ascending
    stored index, and matches with the same stored index in the order the
    index returned them.  The chunk at position [p] reports its stored
    index when that is positive and [p] when it is 0 or missing. *)
Theorem preview_order
    (queryPineconeByFileId : string -> result (list Match))
    (fileId : option string) (chunks : list Chunk) (fid : string) (n : nat) :
  POST queryPineconeByFileId fileId = Found chunks fid n ->
  exists matches ordered,
    queryPineconeByFileId fid = inr matches /\
    length ordered = length chunks /\
    StronglySorted by_index ordered /\
    (forall k, List.filter (at_index k) ordered =
               List.filter (at_index k) (List.filter (belongs fid) matches)) /\
    (forall p c, chunks !! p = Some c ->
       exists m, ordered !! p = Some m /\
                 c_id c = m_id m /\
                 c_chunkIndex c =
                   if sort_index m =? 0 then p else sort_index m).
Proof.
  unfold POST. destruct (falsy fileId); [discriminate|].
  destruct (queryPineconeByFileId (interpolate fileId)) as [t|matches] eqn:Eq;
    [discriminate|].
  destruct (length _ =? 0); [discriminate|].
  intros H. injection H as <- <- <-.
  exists matches, (sort (List.filter (belongs (interpolate fileId)) matches)).
  split; [exact Eq|].
  split; [rewrite length_imap; reflexivity|].
  split; [apply sort_sorted|].
  split; [intros k; apply sort_stable|].
  intros p c Hc. rewrite list_lookup_imap in Hc.
  destruct (sort _ !! p) as [m|]; [|discriminate].
  simpl in Hc. injection Hc as <-. exists m.
  split; [reflexivity|]. split; [reflexivity|]. apply chunk_index_reported.
Qed.

Lemma preview_order_witness :
  exists matches ordered,
    MoreSamples.small_index "f1" = inr matches /\
    length ordered =
      length [chunk_of 0 (MoreSamples.stored "f1" 0);
              chunk_of 1 (MoreSamples.stored "f1" 1)] /\
    StronglySorted by_index ordered /\
    (forall k, List.filter (at_index k) ordered =
               List.filter (at_index k) (List.filter (belongs "f1") matches)) /\
    (forall p c,
       [chunk_of 0 (MoreSamples.stored "f1" 0);
        chunk_of 1 (MoreSamples.stored "f1" 1)] !! p = Some c ->
       exists m, ordered !! p = Some m /\
                 c_id c = m_id m /\
                 c_chunkIndex c =
                   if sort_index m =? 0 then p else sort_index m).
Proof.
  exact (preview_order MoreSamples.small_index (Some "f1")
           [chunk_of 0 (MoreSamples.stored "f1" 0);
            chunk_of 1 (MoreSamples.stored "f1" 1)] "f1" 2 eq_refl).
Defined.


Lemma seq_sorted (off n : nat) : StronglySorted le (seq off n).
Proof.
  revert off. induction n as [|n IH]; intros off; cbn [seq]; constructor.
  - apply IH.
  - apply List.Forall_forall. intros z Hz. apply in_seq in Hz. lia.
Qed.

Lemma sorted_indices (l : list Match) :
  StronglySorted by_index l -> StronglySorted le (map sort_index l).
Proof.
  induction 1 as [|m l Hl IH Hm]; cbn [map]; constructor; [exact IH|].
  apply List.Forall_forall. intros z Hz. apply in_map_iff in Hz as [w [<- Hw]].
  rewrite List.Forall_forall in Hm. apply Hm, Hw.
Qed.

Lemma reported_indices (l : list Match) :
  forall off,
    map sort_index l = seq off (length l) ->
    map c_chunkIndex (imap (fun i => chunk_of (off + i)) l) =
    seq off (length l).
Proof.
  induction l as [|m l IH]; intros off H; [reflexivity|].
  cbn [map length seq] in H. injection H as Hm Hl.
  cbn [imap map length seq]. rewrite chunk_index_reported, Hm, Nat.add_0_r.
  f_equal; [destruct (off =? 0); reflexivity|].
  rewrite <- (IH (S off) Hl). f_equal. apply imap_ext.
  intros i x _. cbn. f_equal. lia.
Qed.

(** X19. When the matches of the requested file carry the indices
    0, 1, ..., n-1, each once (as a sync writes them), in whatever order
    the index returns them, the preview reports the chunks with the
    indices 0, 1, ..., n-1 in this order. *)
Theorem preview_of_complete_file
    (queryPineconeByFileId : string -> result (list Match))
    (fileId : option string) (matches : list Match) (n : nat) :
  falsy fileId = false ->
  queryPineconeByFileId (interpolate fileId) = inr matches ->
  0 < n ->
  Permutation
    (map sort_index (List.filter (belongs (interpolate fileId)) matches))
    (seq 0 n) ->
  exists chunks,
    POST queryPineconeByFileId fileId = Found chunks (interpolate fileId) n /\
    map c_chunkIndex chunks = seq 0 n.
Proof.
  intros Hf Hq Hn Hperm. unfold POST. rewrite Hf, Hq.
  set (filtered := List.filter (belongs (interpolate fileId)) matches) in *.
  assert (length filtered = n) as Hlen.
  { rewrite <- (length_map sort_index), (Permutation_length Hperm).
    apply length_seq. }
  replace (length filtered =? 0) with false
    by (symmetry; apply Nat.eqb_neq; lia).
  assert (length (sort filtered) = n) as Hlen'
    by (rewrite (Permutation_length (sort_permutation filtered)); exact Hlen).
  eexists. split; [rewrite length_imap, Hlen'; reflexivity|].
  assert (map sort_index (sort filtered) = seq 0 n) as Hkeys.
  { apply (StronglySorted_unique le).
    - apply sorted_indices, sort_sorted.
    - apply seq_sorted.
    - rewrite <- Hperm. apply Permutation_map, sort_permutation. }
  rewrite <- Hlen' in Hkeys |- *.
  apply (reported_indices (sort filtered) 0 Hkeys).
Qed.

Lemma preview_of_complete_file_witness :
  exists chunks,
    POST MoreSamples.small_index (Some "f1") = Found chunks "f1" 2 /\
    map c_chunkIndex chunks = seq 0 2.
Proof.
  apply (preview_of_complete_file MoreSamples.small_index (Some "f1")
           [MoreSamples.stored "f1" 1; MoreSamples.stored "f2" 0;
            MoreSamples.stored "f1" 0] 2).
  - reflexivity.
  - reflexivity.
  - apply Nat.ltb_lt. reflexivity.
  - vm_compute. apply perm_swap.
Defined.

End PreviewFacts.

(** ** The video id of the transcription route *)

Module VideoIdFacts.
Import Js VideoId VideoIdSpec ChunkerSpec.

Lemma run_take (p : N -> bool) (s : text) :
  Forall (fun c => p c = true) (take (run p s) s).
Proof.
  induction s as [|c s IH]; cbn; [constructor|].
  destruct (p c) eqn:E; cbn; [|constructor].
  constructor; assumption.
Qed.

Lemma run_exact (p : N -> bool) (v rest : text) :
  Forall (fun c => p c = true) v ->
  match rest with [] => True | c :: _ => p c = false end ->
  run p (v ++ rest) = length v.
Proof.
  intros Hv Hr. induction Hv as [|c v Hc _ IH]; cbn.
  - destruct rest as [|c r]; cbn; [reflexivity|]. rewrite Hr. reflexivity.
  - rewrite Hc, IH. reflexivity.
Qed.

Lemma after_spec (lit s rest : text) :
  after lit s = Some rest -> s = lit ++ rest.
Proof.
  revert s. induction lit as [|l lit IH]; intros s H; cbn in H.
  - injection H as ->. reflexivity.
  - destruct s as [|c s]; [discriminate|].
    destruct (l =? c)%N eqn:E; [|discriminate].
    apply N.eqb_eq in E. subst c. cbn. f_equal. apply IH, H.
Qed.

Lemma capture_spec (s v : text) :
  capture s = Some v -> well_formed v /\ exists b, s = v ++ b.
Proof.
  unfold capture. destruct (1 <=? run id_char s) eqn:E; [|discriminate].
  intros [= <-]. apply Nat.leb_le in E. repeat split.
  - intros H. apply (f_equal (@length N)) in H.
    rewrite length_take in H. cbn in H.
    assert (run id_char s <= length s).
    { clear. induction s as [|c s IH]; cbn; [lia|].
      destruct (id_char c); lia. }
    lia.
  - apply run_take.
  - exists (drop (run id_char s) s). symmetry. apply take_drop.
Qed.

Lemma capture_exact (v rest : text) :
  well_formed v ->
  match rest with [] => True | c :: _ => id_char c = false end ->
  capture (v ++ rest) = Some v.
Proof.
  intros [Hne Hv] Hr. unfold capture. rewrite (run_exact _ _ _ Hv Hr).
  destruct v as [|c v]; [contradiction|]. cbn [length Nat.leb].
  f_equal. change (S (length v)) with (length (c :: v)).
  apply take_app_length.
Qed.

Lemma literal_then_capture_spec (lit : string) (s v : text) :
  literal_then_capture lit s = Some v -> well_formed v /\ part_of v s.
Proof.
  unfold literal_then_capture.
  destruct (after (of_string lit) s) as [rest|] eqn:E; [|discriminate].
  intros H. apply capture_spec in H as [Hw [b ->]].
  apply after_spec in E. split; [exact Hw|].
  exists (of_string lit), b. exact E.
Qed.

Lemma part_of_after (lit v s rest : text) :
  after lit s = Some rest -> part_of v rest -> part_of v s.
Proof.
  intros E (a & b & ->). apply after_spec in E.
  exists (lit ++ a), b. rewrite E, <- app_assoc. reflexivity.
Qed.

Lemma first_pattern_here_spec (s v : text) :
  first_pattern_here s = Some v -> well_formed v /\ part_of v s.
Proof.
  unfold first_pattern_here.
  destruct (literal_then_capture "youtube.com/watch?v=" s) eqn:E1.
  { intros [= <-]. eapply literal_then_capture_spec, E1. }
  destruct (literal_then_capture "youtu.be/" s) eqn:E2.
  { intros [= <-]. eapply literal_then_capture_spec, E2. }
  apply literal_then_capture_spec.
Qed.

Lemma greedy_v_spec (span : nat) (body v : text) :
  greedy_v body span = Some v -> well_formed v /\ part_of v body.
Proof.
  revert body. induction span as [|n IH]; intros body.
  - destruct body; apply literal_then_capture_spec.
  - destruct body as [|c rest]; [apply literal_then_capture_spec|].
    cbn [greedy_v]. destruct (greedy_v rest n) eqn:E.
    + intros [= <-]. destruct (IH _ E) as [Hw Hp].
      split; [exact Hw|]. apply ChunkerMore.part_of_cons, Hp.
    + apply literal_then_capture_spec.
Qed.

Lemma second_pattern_here_spec (s v : text) :
  second_pattern_here s = Some v -> well_formed v /\ part_of v s.
Proof.
  unfold second_pattern_here.
  destruct (after (of_string "youtube.com/watch?") s) as [body|] eqn:E;
    [|discriminate].
  intros H. apply greedy_v_spec in H as [Hw Hp].
  split; [exact Hw|]. eapply part_of_after; eassumption.
Qed.

Lemma search_spec (here : text -> option text) (s v : text) :
  (forall s' v', here s' = Some v' -> well_formed v' /\ part_of v' s') ->
  search here s = Some v -> well_formed v /\ part_of v s.
Proof.
  intros Hhere. induction s as [|c s IH]; cbn.
  - destruct (here []) eqn:E; [|discriminate]. intros [= <-].
    apply Hhere, E.
  - destruct (here (c :: s)) eqn:E.
    + intros [= <-]. apply Hhere, E.
    + intros H. destruct (IH H) as [Hw Hp].
      split; [exact Hw|]. apply ChunkerMore.part_of_cons, Hp.
Qed.

(** X20.  Whatever [extractVideoId] returns is a non-empty piece of the
    URL that contains none of [&], line feed, [?] and [#]; nothing else
    about it is checked. *)
Theorem video_id_shape (url v : text) :
  extractVideoId url = Some v ->
  v <> [] /\ Forall (fun c => id_char c = true) v /\ part_of v url.
Proof.
  unfold extractVideoId.
  destruct (search first_pattern_here url) eqn:E1.
  - intros [= <-].
    destruct (search_spec _ _ _ first_pattern_here_spec E1) as [[? ?] ?].
    auto.
  - intros E2.
    destruct (search_spec _ _ _ second_pattern_here_spec E2) as [[? ?] ?].
    auto.
Qed.

Lemma video_id_shape_witness :
  let url := of_string "https://www.youtube.com/watch?feature=share&v=abc#t" in
  let v := of_string "abc" in
  extractVideoId url = Some v /\
  (v <> [] /\ Forall (fun c => id_char c = true) v /\ part_of v url).
Proof.
  split; [vm_compute; reflexivity|].
  apply video_id_shape. vm_compute. reflexivity.
Defined.

Lemma after_app (lit rest : text) : after lit (lit ++ rest) = Some rest.
Proof.
  induction lit as [|l lit IH]; cbn; [reflexivity|].
  rewrite N.eqb_refl. exact IH.
Qed.

Lemma literal_then_capture_exact (lit : string) (v rest : text) :
  capture (v ++ rest) = Some v ->
  literal_then_capture lit (of_string lit ++ v ++ rest) = Some v.
Proof.
  intros Hc. unfold literal_then_capture. rewrite after_app. exact Hc.
Qed.

Lemma search_here (here : text -> option text) (s v : text) :
  here s = Some v -> search here s = Some v.
Proof. intros H. destruct s; cbn; rewrite H; reflexivity. Qed.

Lemma search_next (here : text -> option text) (c : N) (s : text) :
  here (c :: s) = None -> search here (c :: s) = search here s.
Proof. intros H. cbn. rewrite H. reflexivity. Qed.

(** Steps over the code units of a literal prefix at which the pattern
    cannot start. *)
Ltac skip_prefix :=
  match goal with
  | |- context [search _ (of_string _ ++ ?rest)] =>
      let tail := fresh "tail" in
      set (tail := rest); cbn [of_string app];
      repeat (rewrite search_next by (vm_compute; reflexivity));
      subst tail
  end.

(** X21.  The three URL forms the first pattern names give back the id
    they carry: for every non-empty id over the admitted code units that
    is followed by the end of the URL or by one of [&], line feed, [?],
    [#], the watch, short and embed URLs built from it are mapped to that
    id. *)
Theorem video_id_round_trip (v rest : text) :
  v <> [] ->
  Forall (fun c => id_char c = true) v ->
  match rest with [] => True | c :: _ => id_char c = false end ->
  extractVideoId (of_string "https://www.youtube.com/watch?v=" ++ v ++ rest)
    = Some v /\
  extractVideoId (of_string "https://youtu.be/" ++ v ++ rest) = Some v /\
  extractVideoId (of_string "https://www.youtube.com/embed/" ++ v ++ rest)
    = Some v.
Proof.
  intros Hne Hv Hr.
  assert (Hc : capture (v ++ rest) = Some v)
    by (apply capture_exact; [split|]; assumption).
  unfold extractVideoId.
  repeat split.
  - change (of_string "https://www.youtube.com/watch?v=" ++ v ++ rest)
      with (of_string "https://www."
            ++ (of_string "youtube.com/watch?v=" ++ v ++ rest)).
    skip_prefix.
    rewrite (search_here first_pattern_here _ v); [reflexivity|].
    unfold first_pattern_here.
    rewrite (literal_then_capture_exact _ _ _ Hc). reflexivity.
  - change (of_string "https://youtu.be/" ++ v ++ rest)
      with (of_string "https://" ++ (of_string "youtu.be/" ++ v ++ rest)).
    skip_prefix.
    rewrite (search_here first_pattern_here _ v); [reflexivity|].
    unfold first_pattern_here.
    assert (literal_then_capture "youtube.com/watch?v="
              (of_string "youtu.be/" ++ v ++ rest) = None) as ->
      by (vm_compute; reflexivity).
    rewrite (literal_then_capture_exact _ _ _ Hc). reflexivity.
  - change (of_string "https://www.youtube.com/embed/" ++ v ++ rest)
      with (of_string "https://www."
            ++ (of_string "youtube.com/embed/" ++ v ++ rest)).
    skip_prefix.
    rewrite (search_here first_pattern_here _ v); [reflexivity|].
    unfold first_pattern_here.
    assert (literal_then_capture "youtube.com/watch?v="
              (of_string "youtube.com/embed/" ++ v ++ rest) = None) as ->
      by (vm_compute; reflexivity).
    assert (literal_then_capture "youtu.be/"
              (of_string "youtube.com/embed/" ++ v ++ rest) = None) as ->
      by (vm_compute; reflexivity).
    rewrite (literal_then_capture_exact _ _ _ Hc). reflexivity.
Qed.

Lemma video_id_round_trip_witness :
  let v := of_string "dQw4w9WgXcQ" in
  let rest := of_string "&t=42s" in
  extractVideoId (of_string "https://www.youtube.com/watch?v=" ++ v ++ rest)
    = Some v /\
  extractVideoId (of_string "https://youtu.be/" ++ v ++ rest) = Some v /\
  extractVideoId (of_string "https://www.youtube.com/embed/" ++ v ++ rest)
    = Some v.
Proof.
  apply video_id_round_trip.
  - discriminate.
  - cbn [of_string]. repeat constructor.
  - reflexivity.
Defined.

End VideoIdFacts.

(** ** The Drive library and the upload route *)

Module UploadFacts.
Import Exn Drive Upload.

Lemma includes_app_r (needle a b : string) :
  includes needle b = true -> includes needle (a ++ b) = true.
Proof.
  intros H. induction a as [|c a IH]; [exact H|].
  change (includes needle (String c (a ++ b)) = true).
  cbn [includes]. rewrite IH. apply orb_true_r.
Qed.

Lemma or_else_falsy (a b : option string) :
  falsy a = true -> or_else a b = b.
Proof.
  destruct a as [s|]; cbn; [|reflexivity]. intros ->. reflexivity.
Qed.

Lemma truthy_falsy (a : option string) : falsy a = true -> truthy a = None.
Proof.
  destruct a as [s|]; cbn; [|reflexivity]. intros ->. reflexivity.
Qed.

(** X22.  When the Drive client authenticates and neither the form nor the
    environment names a folder, the upload route answers 500 with the
    folder-not-configured text and the library's message as technical
    details, whatever [files.create] would have done: it is not reached. *)
Theorem upload_without_folder (env : Env) (cached : bool) (file : File)
    (folderId : option string) :
  getGoogleDriveClient env cached = inr tt ->
  falsy folderId = true ->
  falsy (GOOGLE_DRIVE_FOLDER_ID env) = true ->
  POST env cached (Some file) folderId =
    Status500
      "Google Drive folder ID not configured. Please set GOOGLE_DRIVE_FOLDER_ID in your environment variables."
      "Google Drive folder ID is required. Set GOOGLE_DRIVE_FOLDER_ID in environment variables.".
Proof.
  intros Hc Hf He. unfold POST, uploadFileToGoogleDrive. rewrite Hc.
  rewrite (or_else_falsy folderId None Hf). cbn [or_else].
  rewrite (truthy_falsy _ He). vm_compute. reflexivity.
Qed.

Lemma upload_without_folder_witness :
  POST MoreSamples.no_folder false (Some MoreSamples.a_file) (Some EmptyString) =
    Status500
      "Google Drive folder ID not configured. Please set GOOGLE_DRIVE_FOLDER_ID in your environment variables."
      "Google Drive folder ID is required. Set GOOGLE_DRIVE_FOLDER_ID in environment variables.".
Proof. apply upload_without_folder; reflexivity. Defined.

(** X23.  When refreshing the access token fails, the upload route answers
    500 and never calls [files.create].  A failure whose message mentions
    [invalid_grant] is replaced by the library's explanation of expired
    tokens, which the route passes on unchanged; any other failure is
    wrapped by the library and shown as the route's authentication
    text. *)
Theorem upload_with_failed_refresh (env : Env) (cached : bool) (file : File)
    (folderId : option string) (error : thrown) :
  getGoogleOAuthClient env cached = inr tt ->
  refreshAccessToken env = Some error ->
  POST env cached (Some file) folderId =
    if includes "invalid_grant" (errorMessage error)
    then Status500 token_expired token_expired
    else Status500
           "Google Drive authentication failed. Please re-authorize the application with write permissions. Visit /api/auth/google to get a new authorization URL."
           ("Failed to refresh access token: " ++ errorMessage error
            ++ ". Make sure your refresh token is valid.")%string.
Proof.
  intros Ha Hr. unfold POST, uploadFileToGoogleDrive, getGoogleDriveClient.
  rewrite Ha, Hr. cbv zeta.
  destruct (includes "invalid_grant" (errorMessage error)).
  - vm_compute. reflexivity.
  - cbn [errorMessage]. unfold userFriendlyError.
    assert (includes "refresh access token"
              ("Failed to refresh access token: " ++ errorMessage error
               ++ ". Make sure your refresh token is valid.") = true) as ->.
    { change ("Failed to refresh access token: " ++ errorMessage error
               ++ ". Make sure your refresh token is valid.")%string
        with ("Failed to " ++ ("refresh access token: " ++ errorMessage error
               ++ ". Make sure your refresh token is valid."))%string.
      apply includes_app_r. reflexivity. }
    reflexivity.
Qed.

Lemma upload_with_failed_refresh_witness :
  POST MoreSamples.revoked_token false (Some MoreSamples.a_file) None =
    Status500 token_expired token_expired.
Proof.
  apply (upload_with_failed_refresh MoreSamples.revoked_token false
           MoreSamples.a_file None (ErrorObj "invalid_grant"));
    reflexivity.
Defined.

End UploadFacts.

(** ** The transcription route *)

Module TranscribeFacts.
Import Js Exn VideoId Transcribe.

Lemma append_cons (c : ascii) (a b : string) :
  (String c a ++ b = String c (a ++ b))%string.
Proof. reflexivity. Qed.

Lemma append_nil (b : string) : (EmptyString ++ b = b)%string.
Proof. reflexivity. Qed.

Lemma includes_cons (needle : string) (c : ascii) (h : string) :
  includes needle (String c h) =
  String.prefix needle (String c h) || includes needle h.
Proof. reflexivity. Qed.

(** Walks [includes] over a literal that is followed by an unknown
    message, when the needle cannot start inside the literal. *)
Ltac walk_literal :=
  repeat (rewrite append_cons, includes_cons;
          match goal with
          | |- context [String.prefix ?n (String ?c ?X)] =>
              replace (String.prefix n (String c X)) with false
                by (vm_compute; reflexivity)
          end;
          cbn [orb]);
  rewrite append_nil.

Lemma upload_message_tools (needle m : string) :
  needle = "yt-dlp" \/ needle = "youtube-dl" ->
  includes needle ("Failed to upload file to Google Drive: " ++ m) =
  includes needle m.
Proof. intros [-> | ->]; walk_literal; reflexivity. Qed.

Lemma download_failure_message (env : Env) (url videoId : text) (e : thrown) :
  downloadAudio env url videoId = inl e ->
  e = ErrorObj
        "Failed to download audio: Neither yt-dlp nor youtube-dl is installed. Please install yt-dlp: brew install yt-dlp (Mac) or apt-get install yt-dlp (Linux)".
Proof.
  unfold downloadAudio.
  destruct (attempt (ytDlp env) url videoId); [|discriminate].
  destruct (attempt (youtubeDl env) url videoId); [|discriminate].
  intros [= <-]. reflexivity.
Qed.

Lemma extract_nonempty (url videoId : text) :
  extractVideoId url = Some videoId -> url <> [].
Proof. intros H ->. vm_compute in H. discriminate. Qed.

(** X24.  Whatever makes the download fail (the tool is missing, the video
    is private, the file is not found afterwards), the transcription route
    answers 500 "Audio extraction tool not found": the cause is replaced
    by the fixed text about the missing tools before the route classifies
    it. *)
Theorem download_failure_blames_the_tool (env : Env) (url videoId : text)
    (autoUpload : bool) :
  extractVideoId url = Some videoId ->
  (forall f,
     downloadAudio env url (videoId ++ [95%N] ++ text_of_nat (now env))
       <> inr f) ->
  POST env (Some url) autoUpload = ToolNotFound.
Proof.
  intros Hid Hfail. pose proof (extract_nonempty _ _ Hid) as Hne.
  unfold POST. destruct url as [|c url]; [contradiction|]. rewrite Hid.
  cbv zeta.
  destruct (downloadAudio env (c :: url)
              (videoId ++ [95%N] ++ text_of_nat (now env))) as [e|f] eqn:E.
  - apply download_failure_message in E. subst e. vm_compute. reflexivity.
  - destruct (Hfail f). reflexivity.
Qed.

Lemma download_failure_blames_the_tool_witness :
  POST MoreSamples.private_video
       (Some (of_string "https://youtu.be/abc")) true = ToolNotFound.
Proof.
  apply (download_failure_blames_the_tool MoreSamples.private_video
           (of_string "https://youtu.be/abc") (of_string "abc") true).
  - vm_compute. reflexivity.
  - intros f H. vm_compute in H. discriminate.
Defined.

(** X25.  A transcript that was produced but cannot be stored is lost, and
    the refusal is blamed on Whisper: when download and transcription
    succeed and [files.create] fails with a message that mentions 403, the
    route answers 500 "Whisper API access denied" with the library's
    upload message as details, and the transcript is not in the reply. *)
Theorem upload_refusal_reported_as_whisper (env : Env)
    (url videoId path transcript : text) (m : string) :
  extractVideoId url = Some videoId ->
  downloadAudio env url (videoId ++ [95%N] ++ text_of_nat (now env))
    = inr path ->
  transcribeAudio env path = inr transcript ->
  transcript <> [] ->
  Drive.getGoogleDriveClient (drive env) (driveClientCached env) = inr tt ->
  falsy (Drive.GOOGLE_DRIVE_FOLDER_ID (drive env)) = false ->
  (forall name folder mime body,
     Drive.filesCreate (drive env) name folder mime body
       = inl (ErrorObj m)) ->
  includes "403" m = true ->
  includes "yt-dlp" m = false ->
  includes "youtube-dl" m = false ->
  POST env (Some url) true =
    WhisperDenied ("Failed to upload file to Google Drive: " ++ m).
Proof.
  intros Hid Hd Ht Hne Hc Hf Hcreate H403 Hy1 Hy2.
  pose proof (extract_nonempty _ _ Hid) as Hu.
  unfold POST. destruct url as [|c url]; [contradiction|]. rewrite Hid.
  cbv zeta. rewrite Hd, Ht.
  rewrite bool_decide_eq_false_2 by assumption. cbn [andb negb].
  unfold Drive.uploadFileToGoogleDrive. rewrite Hc. cbn [or_else].
  destruct (Drive.GOOGLE_DRIVE_FOLDER_ID (drive env)) as [g|];
    [|discriminate].
  cbn [falsy] in Hf. cbn [Drive.truthy]. rewrite Hf, Hcreate.
  unfold failure. cbn [errorMessage].
  rewrite !upload_message_tools by auto. rewrite Hy1, Hy2. cbn [orb].
  rewrite (UploadFacts.includes_app_r "403" _ m H403).
  rewrite !orb_true_r. reflexivity.
Qed.

Lemma upload_refusal_reported_as_whisper_witness :
  POST MoreSamples.transcribed_not_stored
       (Some (of_string "https://youtu.be/abc")) true =
    WhisperDenied
      "Failed to upload file to Google Drive: Request failed with status code 403".
Proof.
  apply (upload_refusal_reported_as_whisper
           MoreSamples.transcribed_not_stored
           (of_string "https://youtu.be/abc") (of_string "abc")
           (of_string "abc_5.mp3") (of_string "hello")
           "Request failed with status code 403");
    try (vm_compute; reflexivity).
  discriminate.
Defined.

End TranscribeFacts.

(** ** The pattern detector *)

Module DetectorFacts.
Import Js Exn Detector DetectorSpec ChunkerSpec.

(** *** Sentences *)

Lemma split_at_tail (p : N -> bool) (c : N) (s : text) :
  split_at p (c :: s) -> split_at p s.
Proof.
  intros (l & r & E & Hl & Hr). destruct l as [|x l].
  - destruct r as [|y r]; [discriminate|]. injection E as -> ->.
    exists [], r. repeat split; [constructor|].
    inversion Hr; assumption.
  - injection E as -> ->. exists l, r. repeat split; [|assumption].
    inversion Hl; assumption.
Qed.

Lemma split_at_pair (p : N -> bool) (s : text) (i : nat) (a b : N) :
  split_at p s -> s !! i = Some a -> s !! S i = Some b ->
  p a = false -> p b = false.
Proof.
  unfold text in *. intros (l & r & -> & Hl & Hr) Ha Hb Hpa.
  destruct (decide (i < length l)) as [Hi|Hi].
  - rewrite lookup_app_l in Ha by assumption.
    rewrite Forall_lookup in Hl. rewrite (Hl _ _ Ha) in Hpa. discriminate.
  - rewrite lookup_app_r in Hb by lia.
    rewrite Forall_lookup in Hr. exact (Hr _ _ Hb).
Qed.

Lemma split_at_snoc (p : N -> bool) (s : text) (c : N) :
  split_at p s -> p c = false -> split_at p (s ++ [c]).
Proof.
  intros (l & r & -> & Hl & Hr) Hc. exists l, (r ++ [c]).
  rewrite app_assoc. repeat split; [assumption|].
  apply Forall_app. split; [assumption|]. constructor; [assumption|constructor].
Qed.

Lemma split_at_all (p : N -> bool) (s : text) :
  Forall (fun c => p c = true) s -> split_at p s.
Proof.
  intros H. exists s, []. rewrite app_nil_r. repeat split;
    [assumption|constructor].
Qed.

Lemma split_at_none (p : N -> bool) (s : text) :
  Forall (fun c => p c = false) s -> split_at p s.
Proof.
  intros H. exists [], s. repeat split; [constructor|assumption].
Qed.

Lemma sentences_go_shape (s cur : text) (closing : bool) (x : text) :
  (if closing then split_at other cur
   else Forall (fun c => other c = true) cur) ->
  x ∈ sentences_go cur closing s -> split_at other x.
Proof.
  revert cur closing. induction s as [|c r IH]; intros cur closing Hinv Hx.
  - cbn in Hx. destruct closing; [|inversion Hx].
    apply list_elem_of_singleton in Hx. subst x. exact Hinv.
  - cbn [sentences_go] in Hx. destruct (is_terminal c) eqn:Ec.
    + destruct cur as [|c0 cur0] eqn:Ecur.
      * apply (IH [] false); [constructor|exact Hx].
      * apply (IH ((c0 :: cur0) ++ [c]) true); [|exact Hx].
        apply split_at_snoc; [|unfold other; rewrite Ec; reflexivity].
        destruct closing; [exact Hinv|apply split_at_all, Hinv].
    + destruct closing.
      * apply elem_of_cons in Hx as [->|Hx]; [exact Hinv|].
        apply (IH [c] false); [|exact Hx].
        constructor; [unfold other; rewrite Ec; reflexivity|constructor].
      * apply (IH (cur ++ [c]) false); [|exact Hx].
        apply Forall_app. split; [exact Hinv|].
        constructor; [unfold other; rewrite Ec; reflexivity|constructor].
Qed.

Lemma sentences_go_closing (s cur : text) :
  cur <> [] -> sentences_go cur true s <> [].
Proof.
  revert cur. induction s as [|c r IH]; intros cur Hne; cbn [sentences_go].
  - discriminate.
  - destruct (is_terminal c).
    + destruct cur as [|c0 cur0]; [contradiction|].
      apply IH. discriminate.
    + discriminate.
Qed.

Lemma sentences_go_nothing (s cur : text) :
  sentences_go cur false s = [] ->
  match cur with
  | [] => split_at is_terminal s
  | _ :: _ => Forall (fun c => is_terminal c = false) s
  end.
Proof.
  revert cur. induction s as [|c r IH]; intros cur H.
  - destruct cur; [apply split_at_all|]; constructor.
  - cbn [sentences_go] in H. destruct (is_terminal c) eqn:Ec.
    + destruct cur as [|c0 cur0].
      * specialize (IH [] H). cbn in IH.
        destruct IH as (l & r' & -> & Hl & Hr).
        exists (c :: l), r'. repeat split; [|assumption].
        constructor; assumption.
      * exfalso. revert H. apply sentences_go_closing.
        destruct cur0; discriminate.
    + specialize (IH (cur ++ [c]) H).
      assert (Hr : Forall (fun c => is_terminal c = false) r)
        by (destruct cur; exact IH).
      assert (Hall : Forall (fun c => is_terminal c = false) (c :: r))
        by (constructor; assumption).
      destruct cur; [apply split_at_none|]; exact Hall.
Qed.

Lemma sentences_shape (t x : text) :
  x ∈ sentences t -> split_at other x \/ split_at is_terminal x.
Proof.
  unfold sentences. destruct (sentences_go [] false t) as [|y l] eqn:E.
  - intros Hx. apply list_elem_of_singleton in Hx. subst x. right.
    exact (sentences_go_nothing t [] E).
  - intros Hx. left. apply (sentences_go_shape t [] false).
    + constructor.
    + rewrite E. exact Hx.
Qed.

Lemma sentences_go_open (tail cur : text) :
  Forall (fun c => is_terminal c = false) tail ->
  sentences_go cur false tail = [].
Proof.
  intros Htail. revert cur.
  induction Htail as [|c tl Hc _ IHt]; intros cur;
    cbn [sentences_go]; [reflexivity|]. rewrite Hc. apply IHt.
Qed.

Lemma sentences_go_tail (s tail cur : text) (closing : bool) :
  Forall (fun c => is_terminal c = false) tail ->
  sentences_go cur closing (s ++ tail) = sentences_go cur closing s.
Proof.
  intros Htail. revert cur closing.
  induction s as [|c r IH]; intros cur closing.
  - cbn [app]. destruct closing; [|apply sentences_go_open, Htail].
    destruct Htail as [|c tl Hc Htl]; [reflexivity|].
    cbn [sentences_go]. rewrite Hc, (sentences_go_open _ _ Htl).
    reflexivity.
  - cbn [app sentences_go]. destruct (is_terminal c).
    + destruct cur; apply IH.
    + destruct closing; rewrite IH; reflexivity.
Qed.

(** *** Matches *)

Lemma scan_parts (p : list atom) (s : text) (prev : option N) (skip : nat)
    (m : text) :
  m ∈ scan p prev skip s -> m <> [] /\ part_of m s.
Proof.
  revert prev skip. induction s as [|c r IH]; intros prev skip Hm.
  - inversion Hm.
  - cbn [scan] in Hm.
    assert (Hrest : forall prev' skip', m ∈ scan p prev' skip' r ->
                    m <> [] /\ part_of m (c :: r)).
    { intros prev' skip' H. destruct (IH _ _ H) as [Hne (a & b & ->)].
      split; [exact Hne|]. exists (c :: a), b. reflexivity. }
    destruct skip as [|k]; [|eapply Hrest, Hm].
    destruct (match_here p prev (c :: r)) as [[|k]|]; try (eapply Hrest, Hm).
    apply elem_of_cons in Hm as [->|Hm]; [|eapply Hrest, Hm].
    split; [discriminate|].
    exists [], (drop (S k) (c :: r)). cbn [app].
    symmetry. apply take_drop.
Qed.

Lemma fold_case_mark (y : N) : fold_case y = 46%N -> y = 46%N.
Proof.
  unfold fold_case.
  destruct ((97 <=? y) && (y <=? 122))%N eqn:E; [|trivial].
  apply andb_prop in E as [E1 E2].
  apply N.leb_le in E1. apply N.leb_le in E2. lia.
Qed.

Lemma fold_case_nine (x : N) : fold_case x = 57%N -> x = 57%N.
Proof.
  unfold fold_case.
  destruct ((97 <=? x) && (x <=? 122))%N eqn:E; [|trivial].
  apply andb_prop in E as [E1 E2].
  apply N.leb_le in E1. apply N.leb_le in E2. lia.
Qed.

Lemma digit_not_terminal (d : N) : is_digit d = true -> is_terminal d = false.
Proof.
  unfold is_digit, is_terminal. intros H. apply andb_prop in H as [H1 H2].
  apply N.leb_le in H1. apply N.leb_le in H2.
  repeat (apply orb_false_intro); apply N.eqb_neq; lia.
Qed.

Lemma match_atoms_suffix (pre q : list atom) (s : text) (n : nat) :
  match_atoms (pre ++ q) s = Some n ->
  exists k m, match_atoms q (drop k s) = Some m.
Proof.
  revert s n. induction pre as [|a pre IH]; intros s n H.
  - exists 0, n. exact H.
  - cbn [app match_atoms] in H. destruct a.
    + destruct s as [|x s']; [discriminate|].
      destruct (fold_case x =? fold_case c)%N; [|discriminate].
      destruct (match_atoms (pre ++ q) s') as [n'|] eqn:E; [|discriminate].
      destruct (IH _ _ E) as (k & m & Hk). exists (S k), m. exact Hk.
    + cbv zeta in H. destruct (1 <=? run is_space s); [|discriminate].
      destruct (match_atoms (pre ++ q) (drop (run is_space s) s))
        as [n'|] eqn:E; [|discriminate].
      destruct (IH _ _ E) as (k & m & Hk).
      exists (run is_space s + k), m. rewrite <- drop_drop. exact Hk.
    + cbv zeta in H. destruct (1 <=? run is_digit s); [|discriminate].
      destruct (match_atoms (pre ++ q) (drop (run is_digit s) s))
        as [n'|] eqn:E; [|discriminate].
      destruct (IH _ _ E) as (k & m & Hk).
      exists (run is_digit s + k), m. rewrite <- drop_drop. exact Hk.
Qed.

(** A match of the versioned pattern contains a 9, a full stop and a
    digit in a row. *)
Lemma versioned_needs_stop_inside (s : text) (n : nat) :
  match_atoms versioned s = Some n ->
  exists i d, s !! i = Some 57%N /\ s !! S i = Some 46%N
              /\ s !! S (S i) = Some d /\ is_terminal d = false.
Proof.
  change versioned
    with ((lits "Blackboard" ++ [Spaces] ++ lits "Learn" ++ [Spaces])
          ++ [Lit 57%N; Lit 46%N; Digits]).
  intros H. apply match_atoms_suffix in H as (k & m & H).
  exists k. cbn [match_atoms] in H.
  destruct (drop k s) as [|x [|y rest]] eqn:E; try discriminate.
  { destruct (fold_case x =? fold_case 57)%N; discriminate. }
  destruct (fold_case x =? fold_case 57)%N eqn:Ex; [|discriminate].
  destruct (fold_case y =? fold_case 46)%N eqn:Ey; [|discriminate].
  apply N.eqb_eq in Ex. apply N.eqb_eq in Ey.
  apply fold_case_nine in Ex. apply fold_case_mark in Ey. subst x y.
  cbv zeta in H. destruct rest as [|d rest']; [discriminate|].
  cbn [run] in H. destruct (is_digit d) eqn:Ed; [|discriminate].
  exists d.
  assert (L : forall j, s !! (k + j) = (57%N :: 46%N :: d :: rest') !! j)
    by (intros j; rewrite <- E; symmetry; apply lookup_drop).
  repeat split.
  - rewrite <- (Nat.add_0_r k). apply L.
  - replace (S k) with (k + 1) by lia. apply L.
  - replace (S (S k)) with (k + 2) by lia. apply L.
  - apply digit_not_terminal, Ed.
Qed.

Lemma versioned_not_in_split (p : N -> bool) (s : text) :
  p = other \/ p = is_terminal ->
  split_at p s -> match_atoms versioned s = None.
Proof.
  intros Hp Hs. destruct (match_atoms versioned s) as [n|] eqn:E;
    [|reflexivity].
  exfalso. apply versioned_needs_stop_inside in E
    as (i & d & H9 & Hstop & Hd & Hdt).
  destruct Hp as [-> | ->].
  - pose proof (split_at_pair other s (S i) _ _ Hs Hstop Hd eq_refl) as H.
    unfold other in H. rewrite Hdt in H. discriminate.
  - pose proof (split_at_pair is_terminal s i _ _ Hs H9 Hstop eq_refl) as H.
    discriminate.
Qed.

Lemma scan_versioned_nothing (p : N -> bool) (s : text) (prev : option N)
    (skip : nat) :
  p = other \/ p = is_terminal ->
  split_at p s -> scan versioned prev skip s = [].
Proof.
  intros Hp. revert prev skip.
  induction s as [|c r IH]; intros prev skip Hs; [reflexivity|].
  cbn [scan]. pose proof (split_at_tail _ _ _ Hs) as Hr.
  destruct skip as [|k]; [|apply IH, Hr].
  unfold match_here. rewrite (versioned_not_in_split p _ Hp Hs).
  destruct (boundary prev (head (c :: r))); apply IH, Hr.
Qed.

(** *** The last code unit of a match *)

Lemma match_atoms_last (pre : list atom) (c : N) (s : text) (n : nat) :
  match_atoms (pre ++ [Lit c]) s = Some n ->
  exists x, last (take n s) = Some x /\ fold_case x = fold_case c.
Proof.
  revert s n. induction pre as [|a pre IH]; intros s n H.
  - cbn [app match_atoms] in H. destruct s as [|x s']; [discriminate|].
    destruct (fold_case x =? fold_case c)%N eqn:E; [|discriminate].
    injection H as <-. exists x. split; [reflexivity|].
    apply N.eqb_eq, E.
  - cbn [app match_atoms] in H. destruct a.
    + destruct s as [|x s']; [discriminate|].
      destruct (fold_case x =? fold_case c0)%N; [|discriminate].
      destruct (match_atoms (pre ++ [Lit c]) s') as [n'|] eqn:E;
        [|discriminate].
      injection H as <-. destruct (IH _ _ E) as (y & Hy & Hf).
      exists y. split; [|exact Hf].
      cbn [take]. rewrite last_cons, Hy. reflexivity.
    + cbv zeta in H. destruct (1 <=? run is_space s); [|discriminate].
      destruct (match_atoms (pre ++ [Lit c]) (drop (run is_space s) s))
        as [n'|] eqn:E; [|discriminate].
      injection H as <-. destruct (IH _ _ E) as (y & Hy & Hf).
      exists y. split; [|exact Hf].
      rewrite <- take_take_drop, last_app, Hy. reflexivity.
    + cbv zeta in H. destruct (1 <=? run is_digit s); [|discriminate].
      destruct (match_atoms (pre ++ [Lit c]) (drop (run is_digit s) s))
        as [n'|] eqn:E; [|discriminate].
      injection H as <-. destruct (IH _ _ E) as (y & Hy & Hf).
      exists y. split; [|exact Hf].
      rewrite <- take_take_drop, last_app, Hy. reflexivity.
Qed.

Lemma head_drop (s : text) (n : nat) : head (drop n s) = s !! n.
Proof.
  unfold text in *. rewrite head_lookup, lookup_drop. f_equal. lia.
Qed.

Lemma last_take (s : text) (n : nat) (x : N) :
  last (take n s) = Some x -> n <= length s ->
  1 <= n /\ s !! (n - 1) = Some x.
Proof.
  unfold text in *. intros H Hn. rewrite last_lookup, length_take in H.
  destruct n as [|n]; [rewrite take_0 in H; discriminate|].
  split; [lia|].
  replace (Nat.pred (S n `min` length s)) with n in H by lia.
  rewrite lookup_take_lt in H by lia.
  replace (S n - 1) with n by lia. exact H.
Qed.

Lemma fold_case_paren (x : N) : fold_case x = fold_case 41%N -> x = 41%N.
Proof.
  change (fold_case 41%N) with 41%N. unfold fold_case.
  destruct ((97 <=? x) && (x <=? 122))%N eqn:E; [|trivial].
  apply andb_prop in E as [E1 E2].
  apply N.leb_le in E1. apply N.leb_le in E2. lia.
Qed.

Lemma closed_before_space_tail (c : N) (s : text) :
  closed_before_space (c :: s) -> closed_before_space s.
Proof. intros H i Hi. apply (H (S i)). exact Hi. Qed.

Lemma parenthesised_not_here (prev : option N) (s : text) :
  closed_before_space s -> match_here parenthesised prev s = None.
Proof.
  intros Hs. unfold match_here.
  destruct (boundary prev (head s)); [|reflexivity].
  destruct (match_atoms parenthesised s) as [n|] eqn:E; [|reflexivity].
  change parenthesised
    with ((lits "Learn" ++ [Spaces] ++ lits "(Blackboard") ++ [Lit 41%N])
    in E.
  apply match_atoms_last in E as (x & Hlast & Hx).
  apply fold_case_paren in Hx. subst x. rewrite Hlast, head_drop.
  destruct (decide (n <= length s)) as [Hn|Hn].
  - apply last_take in Hlast as [H1 Hl]; [|exact Hn].
    specialize (Hs _ Hl). replace (S (n - 1)) with n in Hs by lia.
    unfold boundary. rewrite Hs. reflexivity.
  - unfold text in *. rewrite lookup_ge_None_2 by lia. reflexivity.
Qed.

(** X26.  What the detector reports: every issue has severity medium or
    high, a non-empty term that occurs in the sentence it names, the
    location ["Sentence k"] of a sentence of the text (counted from 1),
    and as context the first 200 code units at most of that sentence,
    trimmed. *)
Theorem detected_issue_shape (t : text) (i : issue) :
  i ∈ detectOutdatedTerminology t ->
  severity i <> Analyze.low /\ term i <> [] /\ length (context i) <= 200 /\
  exists index sentence,
    sentences t !! index = Some sentence /\
    location i = ("Sentence " ++ decimal (index + 1))%string /\
    context i = substring (trim sentence) 0 200 /\
    part_of (term i) sentence.
Proof.
  unfold detectOutdatedTerminology. intros Hi.
  apply list_elem_of_In, in_concat in Hi as (l & Hl & Hi).
  apply list_elem_of_In, elem_of_lookup_imap in Hl
    as (index & sentence & -> & Hs).
  unfold issues_of in Hi.
  apply in_flat_map in Hi as ([p sev] & Hp & Hi).
  apply in_map_iff in Hi as (m & <- & Hm). cbn [term context severity location fst snd].
  apply list_elem_of_In, scan_parts in Hm as [Hne Hpart].
  repeat split.
  - cbn in Hp.
    repeat (destruct Hp as [[= <- <-]|Hp]; [discriminate|]). destruct Hp.
  - exact Hne.
  - unfold substring. rewrite length_take. lia.
  - exists index, sentence. repeat split; assumption.
Qed.

Lemma detected_issue_shape_witness :
  let t := of_string "Intro. We moved off the old  Blackboard last year!" in
  let i :=
    {| term := of_string "old  Blackboard";
       context := of_string "We moved off the old  Blackboard last year!";
       severity := Analyze.medium;
       location := "Sentence 2" |} in
  severity i <> Analyze.low /\ term i <> [] /\ length (context i) <= 200 /\
  exists index sentence,
    sentences t !! index = Some sentence /\
    location i = ("Sentence " ++ decimal (index + 1))%string /\
    context i = substring (trim sentence) 0 200 /\
    part_of (term i) sentence.
Proof.
  apply detected_issue_shape. vm_compute. apply list_elem_of_here.
Defined.

(** X27.  Text after the last closing mark is never scanned: once the text
    holds a complete sentence, appending any text without [.], [!] or [?]
    changes nothing in what the detector reports. *)
Theorem unterminated_tail_ignored (t tail : text) :
  sentences_go [] false t <> [] ->
  Forall (fun c => is_terminal c = false) tail ->
  detectOutdatedTerminology (t ++ tail) = detectOutdatedTerminology t.
Proof.
  intros Hfound Htail. unfold detectOutdatedTerminology, sentences.
  rewrite (sentences_go_tail t tail [] false Htail).
  destruct (sentences_go [] false t); [contradiction|reflexivity].
Qed.

Lemma unterminated_tail_ignored_witness :
  detectOutdatedTerminology
    (of_string "Welcome. " ++ of_string "We still use Blackboard Learn")
  = detectOutdatedTerminology (of_string "Welcome. ").
Proof.
  apply unterminated_tail_ignored.
  - vm_compute. discriminate.
  - cbn [of_string]. repeat constructor.
Defined.

(** X28.  The pattern for version numbers, [Blackboard Learn 9.x], never
    matches: it needs a full stop followed by a digit, and no sentence
    the text is cut into has one. *)
Theorem versioned_pattern_never_matches (t : text) :
  Forall (fun sentence => scan versioned None 0 sentence = []) (sentences t).
Proof.
  apply Forall_forall. intros sentence Hs.
  destruct (sentences_shape t sentence Hs) as [H|H].
  - apply (scan_versioned_nothing other); [left; reflexivity|exact H].
  - apply (scan_versioned_nothing is_terminal); [right; reflexivity|exact H].
Qed.

(** X29.  The pattern [Learn (Blackboard)] ends with a word boundary after
    the closing parenthesis, so it reports nothing in a sentence where
    every closing parenthesis is followed by the end of the sentence or by
    a code unit that is not a letter, a digit or an underscore. *)
Theorem parenthesised_needs_word_after (s : text) (prev : option N)
    (skip : nat) :
  closed_before_space s -> scan parenthesised prev skip s = [].
Proof.
  revert prev skip. induction s as [|c r IH]; intros prev skip Hs;
    [reflexivity|].
  cbn [scan]. pose proof (closed_before_space_tail _ _ Hs) as Hr.
  destruct skip as [|k]; [|apply IH, Hr].
  rewrite (parenthesised_not_here prev _ Hs). apply IH, Hr.
Qed.

Lemma parenthesised_needs_word_after_witness :
  scan parenthesised None 0 (of_string "Learn (Blackboard).") = [].
Proof.
  apply parenthesised_needs_word_after. intros i H.
  do 19 (destruct i as [|i];
         [first [discriminate H | reflexivity]|]).
  discriminate H.
Defined.

End DetectorFacts.
